(** * AV-Scanner-for-Linux: the traversal-and-hashing engine (src/hasher.py)
      and the entropy utility (src/entropy.py), embedded and verified.

    Layout: the library models the program calls into ([PosixPath] for
    os.path, [Blake2b] for hashlib.blake2b), then the program itself
    ([Hasher], [Entropy]), then the lemmas and the theorems about it.

    A Python [str] is modelled as a [string]: a character below 128 is
    that ASCII code point, and a character [c >= 128] stands for the lone
    surrogate U+DC00+c, which is how Python hands over a byte of a file
    name, a command-line argument or a working directory that is not
    valid UTF-8 (os.fsdecode, errors='surrogateescape').  Such a [str]
    cannot be encoded in strict UTF-8 ([PyStr.encodable]).  Other
    non-ASCII code points are outside the model.  Python [int] is [Z],
    [bytes] is [list byte]. *)

From Stdlib Require Import ZArith List Strings.String Strings.Ascii Strings.Byte Bool Lia Permutation.
From Stdlib Require Import Numbers.DecimalString.
From Stdlib Require QArith.
From Stdlib Require Import Sorting.Sorted.
Import ListNotations.

Local Open Scope string_scope.
Local Open Scope Z_scope.

(* ===================================================================== *)
(** * Python string helpers *)
(* ===================================================================== *)

Module PyStr.

(** [s.split(sep)] for a one-character separator: never returns [[]]. *)
Fixpoint split (sep : ascii) (s : string) : list string :=
  match s with
  | EmptyString => [EmptyString]
  | String c rest =>
      if Ascii.eqb c sep then EmptyString :: split sep rest
      else match split sep rest with
           | [] => [String c EmptyString]
           | w :: ws => String c w :: ws
           end
  end.

(** [s.startswith(p)] *)
Definition startswith (s p : string) : bool := String.prefix p s.

(** [s.endswith(p)] *)
Definition endswith (s p : string) : bool :=
  let n := String.length s in
  let k := String.length p in
  (k <=? n)%nat && String.eqb (String.substring (n - k) k s) p.

(** [c * n] for a one-character string *)
Fixpoint repeat_char (c : ascii) (n : nat) : string :=
  match n with
  | O => EmptyString
  | S k => String c (repeat_char c k)
  end.

(** [len(s)] *)
Definition len (s : string) : Z := Z.of_nat (String.length s).

(** [str(n)] for an int *)
Definition str_of_int (n : Z) : string := NilEmpty.string_of_int (Z.to_int n).

(** [str.isspace] on the strs of the model: TAB, LF, VT, FF, CR, FS, GS,
    RS, US and SPACE; no surrogate is white space. *)
Definition isspace (c : ascii) : bool :=
  let n := nat_of_ascii c in
  ((9 <=? n) && (n <=? 13) || (28 <=? n) && (n <=? 32))%nat.

(** [s.split()]: split on runs of whitespace, no empty fields.  [cur] is the
    field being accumulated, most recent character first. *)
Fixpoint split_ws_aux (cur : list ascii) (s : string) : list string :=
  let flush (rest : list string) :=
    match cur with
    | [] => rest
    | _ => string_of_list_ascii (rev cur) :: rest
    end in
  match s with
  | EmptyString => flush []
  | String c rest =>
      if isspace c then flush (split_ws_aux [] rest)
      else split_ws_aux (c :: cur) rest
  end.

Definition split_ws (s : string) : list string := split_ws_aux [] s.

(** [s.lstrip()], [s.rstrip()], [s.strip()] *)
Fixpoint lstrip (s : string) : string :=
  match s with
  | EmptyString => EmptyString
  | String c rest => if isspace c then lstrip rest else s
  end.

Definition string_rev (s : string) : string :=
  string_of_list_ascii (rev (list_ascii_of_string s)).

Definition rstrip (s : string) : string := string_rev (lstrip (string_rev s)).

Definition strip (s : string) : string := rstrip (lstrip s).

(** [s.split(sep, 1)]: split at the first occurrence of [sep] (non-empty);
    [None] when [sep] does not occur (Python then returns the one-element
    list [[s]]). *)
Fixpoint partition1 (sep : string) (s : string) : option (string * string) :=
  if String.prefix sep s
  then Some (EmptyString, String.substring (String.length sep)
                            (String.length s - String.length sep) s)
  else match s with
       | EmptyString => None
       | String c rest =>
           match partition1 sep rest with
           | Some (l, r) => Some (String c l, r)
           | None => None
           end
       end.

(** A surrogate escape (see the head of the file). *)
Definition is_surrogate (c : ascii) : bool := (128 <=? nat_of_ascii c)%nat.

(** Whether [s.encode('utf-8')] with the default error handler ('strict')
    succeeds: it raises UnicodeEncodeError exactly on a surrogate. *)
Definition encodable (s : string) : bool :=
  forallb (fun c => negb (is_surrogate c)) (list_ascii_of_string s).

(** Whether the str holds a NUL character: such a path is refused by every
    system call wrapper with ValueError("embedded null byte"). *)
Definition has_nul (s : string) : bool :=
  existsb (fun c => (nat_of_ascii c =? 0)%nat) (list_ascii_of_string s).

Definition hexchar (n : nat) : ascii :=
  if (n <? 10)%nat then ascii_of_nat (48 + n) else ascii_of_nat (87 + n).

(** Two lower-case hexadecimal digits. *)
Definition hex2 (n : nat) : string :=
  String (hexchar (n / 16)) (String (hexchar (n mod 16)) EmptyString).

Definition single_quote : ascii := ascii_of_nat 39.
Definition double_quote : ascii := ascii_of_nat 34.
Definition backslash : ascii := ascii_of_nat 92.

Definition contains (c : ascii) (s : string) : bool :=
  existsb (Ascii.eqb c) (list_ascii_of_string s).

(** One character of [repr(s)] inside the quotes [quote]. *)
Definition repr_char (quote : ascii) (c : ascii) : string :=
  let n := nat_of_ascii c in
  if Ascii.eqb c backslash then String backslash (String backslash EmptyString)
  else if Ascii.eqb c quote then String backslash (String quote EmptyString)
  else if (n =? 9)%nat then String backslash "t"
  else if (n =? 10)%nat then String backslash "n"
  else if (n =? 13)%nat then String backslash "r"
  else if ((n <? 32) || (n =? 127))%nat then String backslash ("x" ++ hex2 n)
  else if is_surrogate c then String backslash ("udc" ++ hex2 n)
  else String c EmptyString.

(** [repr(s)]: single quotes, unless the text holds a single quote and no
    double quote; the quote, the backslash, control characters and
    surrogates are escaped. *)
Definition repr (s : string) : string :=
  let quote := if contains single_quote s && negb (contains double_quote s)
               then double_quote else single_quote in
  String quote
    (String.concat EmptyString (map (repr_char quote) (list_ascii_of_string s))
     ++ String quote EmptyString).

End PyStr.

(* ===================================================================== *)
(** * os.path on POSIX (CPython's posixpath) *)
(* ===================================================================== *)

Module PosixPath.
Import PyStr.

Definition sep : string := "/".
Definition sep_char : ascii := "/"%char.

(** [posixpath.isabs] *)
Definition isabs (path : string) : bool := startswith path sep.

(** [posixpath.join(a, b)] with one extra component. *)
Definition join (a b : string) : string :=
  if startswith b sep then b
  else if String.eqb a "" || endswith a sep then a ++ b
  else a ++ sep ++ b.

(** One iteration of normpath's loop over the components; [new_comps] is
    Python's list, appended and popped at its end. *)
Definition normpath_step (initial_slashes : nat) (new_comps : list string)
    (comp : string) : list string :=
  if String.eqb comp "" || String.eqb comp "." then new_comps
  else if negb (String.eqb comp "..")
          || (Nat.eqb initial_slashes 0 && match new_comps with [] => true | _ => false end)
          || (match new_comps with [] => false | _ => true end
              && String.eqb (last new_comps "") "..")
       then new_comps ++ [comp]
       else match new_comps with
            | [] => new_comps
            | _ => removelast new_comps
            end.

(** [posixpath.normpath] *)
Definition normpath (path : string) : string :=
  if String.eqb path "" then "."
  else
    let initial_slashes : nat :=
      if startswith path sep then
        if startswith path "//" && negb (startswith path "///") then 2%nat else 1%nat
      else 0%nat in
    let comps := split sep_char path in
    let new_comps := fold_left (normpath_step initial_slashes) comps [] in
    let path' := repeat_char sep_char initial_slashes ++ String.concat sep new_comps in
    if String.eqb path' "" then "." else path'.

(** [posixpath.abspath], in a process whose working directory is [cwd]. *)
Definition abspath (cwd : string) (path : string) : string :=
  let path := if isabs path then path else join cwd path in
  normpath path.

(** [posixpath.basename] *)
Fixpoint basename (p : string) : string :=
  match p with
  | EmptyString => EmptyString
  | String c rest =>
      if existsb (Ascii.eqb sep_char) (list_ascii_of_string rest)
      then basename rest
      else if Ascii.eqb c sep_char then rest else p
  end.

End PosixPath.

(* ===================================================================== *)
(** * hashlib.blake2b (BLAKE2b as in RFC 7693, unkeyed, sequential mode) *)
(* ===================================================================== *)

Module Blake2b.

Definition w64 (x : Z) : Z := x mod 2 ^ 64.

Definition rotr64 (x : Z) (n : Z) : Z :=
  w64 (Z.lor (Z.shiftr x n) (Z.shiftl x (64 - n))).

Definition IV : list Z :=
  [ 0x6a09e667f3bcc908; 0xbb67ae8584caa73b; 0x3c6ef372fe94f82b; 0xa54ff53a5f1d36f1;
    0x510e527fade682d1; 0x9b05688c2b3e6c1f; 0x1f83d9abfb41bd6b; 0x5be0cd19137e2179 ].

Definition SIGMA : list (list nat) :=
  [ [ 0; 1; 2; 3; 4; 5; 6; 7; 8; 9; 10; 11; 12; 13; 14; 15 ];
    [ 14; 10; 4; 8; 9; 15; 13; 6; 1; 12; 0; 2; 11; 7; 5; 3 ];
    [ 11; 8; 12; 0; 5; 2; 15; 13; 10; 14; 3; 6; 7; 1; 9; 4 ];
    [ 7; 9; 3; 1; 13; 12; 11; 14; 2; 6; 5; 10; 4; 0; 15; 8 ];
    [ 9; 0; 5; 7; 2; 4; 10; 15; 14; 1; 11; 12; 6; 8; 3; 13 ];
    [ 2; 12; 6; 10; 0; 11; 8; 3; 4; 13; 7; 5; 15; 14; 1; 9 ];
    [ 12; 5; 1; 15; 14; 13; 4; 10; 0; 7; 6; 3; 9; 2; 8; 11 ];
    [ 13; 11; 7; 14; 12; 1; 3; 9; 5; 0; 15; 4; 8; 6; 2; 10 ];
    [ 6; 15; 14; 9; 11; 3; 0; 8; 12; 2; 13; 7; 1; 4; 10; 5 ];
    [ 10; 2; 8; 4; 7; 6; 1; 5; 15; 11; 9; 14; 3; 12; 13; 0 ] ]%nat.

Definition get (v : list Z) (i : nat) : Z := nth i v 0.

Fixpoint set (v : list Z) (i : nat) (x : Z) : list Z :=
  match v, i with
  | [], _ => []
  | _ :: t, O => x :: t
  | y :: t, S k => y :: set t k x
  end.

(** The mixing function G on the working vector [v]. *)
Definition G (v : list Z) (a b c d : nat) (x y : Z) : list Z :=
  let v := set v a (w64 (get v a + get v b + x)) in
  let v := set v d (rotr64 (Z.lxor (get v d) (get v a)) 32) in
  let v := set v c (w64 (get v c + get v d)) in
  let v := set v b (rotr64 (Z.lxor (get v b) (get v c)) 24) in
  let v := set v a (w64 (get v a + get v b + y)) in
  let v := set v d (rotr64 (Z.lxor (get v d) (get v a)) 16) in
  let v := set v c (w64 (get v c + get v d)) in
  let v := set v b (rotr64 (Z.lxor (get v b) (get v c)) 63) in
  v.

Definition round (m : list Z) (v : list Z) (r : nat) : list Z :=
  let s := nth (r mod 10) SIGMA [] in
  let mi (k : nat) := get m (nth k s O) in
  let v := G v 0 4 8 12 (mi 0%nat) (mi 1%nat) in
  let v := G v 1 5 9 13 (mi 2%nat) (mi 3%nat) in
  let v := G v 2 6 10 14 (mi 4%nat) (mi 5%nat) in
  let v := G v 3 7 11 15 (mi 6%nat) (mi 7%nat) in
  let v := G v 0 5 10 15 (mi 8%nat) (mi 9%nat) in
  let v := G v 1 6 11 12 (mi 10%nat) (mi 11%nat) in
  let v := G v 2 7 8 13 (mi 12%nat) (mi 13%nat) in
  let v := G v 3 4 9 14 (mi 14%nat) (mi 15%nat) in
  v.

(** The compression function F: state [h], message block [m] (16 words),
    byte offset [t], final-block flag [f]. *)
Definition F (h : list Z) (m : list Z) (t : Z) (f : bool) : list Z :=
  let v := (firstn 8 h ++ IV)%list in
  let v := set v 12 (Z.lxor (get v 12) (w64 t)) in
  let v := set v 13 (Z.lxor (get v 13) (w64 (Z.shiftr t 64))) in
  let v := if f then set v 14 (Z.lxor (get v 14) (2 ^ 64 - 1)) else v in
  let v := fold_left (round m) (seq 0 12) v in
  map (fun i => Z.lxor (Z.lxor (get h i) (get v i)) (get v (i + 8))) (seq 0 8).

Definition byte_val (b : byte) : Z := Z.of_N (Byte.to_N b).

(** Little-endian word of up to eight bytes. *)
Fixpoint le_word (bs : list byte) : Z :=
  match bs with
  | [] => 0
  | b :: t => byte_val b + 256 * le_word t
  end.

(** The sixteen little-endian words of a block, zero-padded. *)
Definition block_words (block : list byte) : list Z :=
  map (fun i => le_word (firstn 8 (skipn (8 * i) block))) (seq 0 16).

(** Absorb [data] after [t] bytes: every block but the last is compressed
    with the flag off; the last one (possibly empty or full) with it on. *)
Fixpoint absorb (fuel : nat) (h : list Z) (t : Z) (data : list byte) : list Z :=
  match fuel with
  | O => h
  | S k =>
      if (List.length data <=? 128)%nat
      then F h (block_words data) (t + Z.of_nat (List.length data)) true
      else absorb k (F h (block_words (firstn 128 data)) (t + 128) false)
                  (t + 128) (skipn 128 data)
  end.

(** Parameter block word 0: digest length [nn], no key, fanout 1, depth 1. *)
Definition init (nn : Z) : list Z :=
  set IV 0 (Z.lxor (get IV 0) (Z.lxor 0x01010000 nn)).

Definition hex_digit (n : Z) : ascii :=
  nth (Z.to_nat n)
      (list_ascii_of_string "0123456789abcdef") "0"%char.

Definition hex_byte (b : Z) : string :=
  String (hex_digit (b / 16 mod 16)) (String (hex_digit (b mod 16)) EmptyString).

(** The eight little-endian bytes of a state word. *)
Definition word_bytes (w : Z) : list Z :=
  map (fun k => Z.shiftr w (8 * Z.of_nat k) mod 256) (seq 0 8).

Definition state_bytes (h : list Z) : list Z :=
  flat_map (fun i => word_bytes (get h i)) (seq 0 8).

Fixpoint hex_of_bytes (bs : list Z) : string :=
  match bs with
  | [] => EmptyString
  | b :: t => hex_byte b ++ hex_of_bytes t
  end.

(** [hashlib.blake2b(data, digest_size=size).hexdigest()] for
    [1 <= size <= 64]. *)
Definition hexdigest (size : nat) (data : list byte) : string :=
  let h := absorb (S (List.length data / 128)) (init (Z.of_nat size)) 0 data in
  hex_of_bytes (firstn size (state_bytes h)).

(** A hash object: [hashlib.blake2b(digest_size=size)] followed by
    [update] calls is the hash of the concatenated input. *)
Record hasher := { digest_size : nat; absorbed : list byte }.

Definition new (size : nat) : hasher := {| digest_size := size; absorbed := [] |}.

Definition update (h : hasher) (b : list byte) : hasher :=
  {| digest_size := digest_size h; absorbed := (absorbed h ++ b)%list |}.

Definition hasher_hexdigest (h : hasher) : string :=
  hexdigest (digest_size h) (absorbed h).

End Blake2b.

(* ===================================================================== *)
(** * Exceptions *)
(* ===================================================================== *)

(** The exceptions of the model are all subclasses of Python's [Exception];
    [except Exception] therefore catches every [exn], [except OSError]
    only the first constructor.  An exception carries its [str()]; an
    [OSError] stands for its subclasses too (FileNotFoundError, ...), and a
    [UnicodeEncodeError] of the utf-8 codec carries the text that could not
    be encoded. *)
Inductive exn : Type :=
| OSError (strerror : string)
| ValueError (msg : string)
| IndexError (msg : string)
| ZeroDivisionError (msg : string)
| UnicodeEncodeError (object : string)
| OtherException (name : string).

Inductive result (A : Type) : Type :=
| Ok (a : A)
| Raise (e : exn).

Arguments Ok {A} a.
Arguments Raise {A} e.

Definition bind {A B : Type} (c : result A) (k : A -> result B) : result B :=
  match c with
  | Ok a => k a
  | Raise e => Raise e
  end.

Declare Scope py_scope.
Delimit Scope py_scope with py.
Notation "x <- c ;; k" := (bind c (fun x => k))
  (at level 61, c at next level, right associativity) : py_scope.
Notation "' pat <- c ;; k" := (bind c (fun x => match x with pat => k end))
  (at level 61, pat pattern, c at next level, right associativity) : py_scope.

(** [try: body  except Exception: handler] *)
Definition try_except {A : Type} (body : result A) (handler : exn -> result A) : result A :=
  match body with
  | Ok a => Ok a
  | Raise e => handler e
  end.

(** [try: body  except OSError: handler] *)
Definition try_except_OSError {A : Type} (body : result A)
    (handler : string -> result A) : result A :=
  match body with
  | Raise (OSError msg) => handler msg
  | other => other
  end.

(** The length of the run of surrogates at the head of [l]. *)
Fixpoint surrogate_run (l : list ascii) : nat :=
  match l with
  | c :: t => if PyStr.is_surrogate c then S (surrogate_run t) else O
  | [] => O
  end.

(** The first surrogate of [l], counting positions from [i]: its position,
    the character, and the length of the run it starts. *)
Fixpoint first_surrogate (l : list ascii) (i : nat) : option (nat * ascii * nat) :=
  match l with
  | [] => None
  | c :: t =>
      if PyStr.is_surrogate c then Some (i, c, S (surrogate_run t))
      else first_surrogate t (S i)
  end.

Definition str_of_nat (n : nat) : string := PyStr.str_of_int (Z.of_nat n).

(** [str(e)] *)
Definition str_of_exn (e : exn) : string :=
  match e with
  | OSError m | ValueError m | IndexError m | ZeroDivisionError m
  | OtherException m => m
  | UnicodeEncodeError object =>
      match first_surrogate (list_ascii_of_string object) 0 with
      | Some (start, c, 1%nat) =>
          "'utf-8' codec can't encode character '" ++ String PyStr.backslash "udc"
          ++ PyStr.hex2 (nat_of_ascii c) ++ "' in position " ++ str_of_nat start
          ++ ": surrogates not allowed"
      | Some (start, _, k) =>
          "'utf-8' codec can't encode characters in position " ++ str_of_nat start
          ++ "-" ++ str_of_nat (start + k - 1) ++ ": surrogates not allowed"
      | None => "surrogates not allowed"
      end
  end.

(** [l[i]] for [0 <= i] *)
Definition index {A : Type} (l : list A) (i : nat) : result A :=
  match nth_error l i with
  | Some x => Ok x
  | None => Raise (IndexError "list index out of range")
  end.

(* ===================================================================== *)
(** * The operating system as the program sees it *)
(* ===================================================================== *)

Module OS.
Import PyStr PosixPath.

(** What opening and reading a file gives: [open_error] is raised by
    [open]; otherwise [read] returns [data] piece by piece, and when
    [read_error] is [Some (k, e)] the call number [k] (from 0) raises [e]. *)
Record file_obj : Type := {
  open_error : option exn;
  data : list byte;
  read_error : option (nat * exn)
}.

Definition plain_file (content : list byte) : file_obj :=
  {| open_error := None; data := content; read_error := None |}.

Inductive special : Type := CharDev | BlockDev | Fifo | Socket.

#[local] Set Warnings "-register-all".

(** A directory entry and what it names.  A symbolic link carries its
    target text and the node the target resolves to ([None]: dangling). *)
Inductive node : Type :=
| File (f : file_obj)
| Symlink (target : string) (resolved : option node)
| Special (k : special) (f : file_obj)
| Dir (entries : list (string * node))
| NoAccessDir.

Inductive text_file : Type :=
| Absent
| Unreadable (e : exn)
| Lines (ls : list string).

Record world : Type := {
  getcwd : string;
  (** [os.getpid()] in the process that runs the function; it only shows
      in lines of the debug log *)
  getpid : Z;
  cpu_count : option Z;
  proc_self_mountinfo : text_file;
  proc_mounts : text_file;
  (** what a path names, without following a final symbolic link *)
  lookup : string -> option node;
  (** what [open(path, 'a')] raises, if anything *)
  append_error : string -> option exn
}.

Inductive st_fmt : Type :=
| S_IFREG | S_IFDIR | S_IFLNK | S_IFCHR | S_IFBLK | S_IFIFO | S_IFSOCK.

Definition S_ISREG (m : st_fmt) : bool :=
  match m with S_IFREG => true | _ => false end.

Definition fmt_of (n : node) : st_fmt :=
  match n with
  | File _ => S_IFREG
  | Symlink _ _ => S_IFLNK
  | Special CharDev _ => S_IFCHR
  | Special BlockDev _ => S_IFBLK
  | Special Fifo _ => S_IFIFO
  | Special Socket _ => S_IFSOCK
  | Dir _ | NoAccessDir => S_IFDIR
  end.

(** The conversion of a str path for a system call: a path with an
    embedded NUL is refused with ValueError, which is no OSError. *)
Definition fs_path (path : string) : result unit :=
  if has_nul path then Raise (ValueError "embedded null byte") else Ok tt.

(** [str()] of the OSError of a failed call on [path]. *)
Definition oserror (errno : Z) (strerror : string) (path : string) : exn :=
  OSError ("[Errno " ++ str_of_int errno ++ "] " ++ strerror ++ ": " ++ repr path).

Definition ENOENT (path : string) : exn := oserror 2 "No such file or directory" path.
Definition EACCES (path : string) : exn := oserror 13 "Permission denied" path.
Definition EISDIR (path : string) : exn := oserror 21 "Is a directory" path.

(** [os.lstat(path).st_mode]'s file type. *)
Definition lstat (w : world) (path : string) : result st_fmt :=
  match fs_path path with
  | Raise e => Raise e
  | Ok _ =>
      match lookup w path with
      | Some n => Ok (fmt_of n)
      | None => Raise (ENOENT path)
      end
  end.

(** [os.path.exists] of a text file of /proc *)
Definition text_exists (f : text_file) : bool :=
  match f with Absent => false | _ => true end.

(** Follow symbolic links to what they finally name. *)
Fixpoint resolve (n : node) : option node :=
  match n with
  | Symlink _ (Some t) => resolve t
  | Symlink _ None => None
  | _ => Some n
  end.

(** An open binary file: the bytes not yet read and the pending fault. *)
Record stream : Type := {
  remaining : list byte;
  fault : option (nat * exn)
}.

Definition open_obj (f : file_obj) : result stream :=
  match open_error f with
  | Some e => Raise e
  | None => Ok {| remaining := data f; fault := read_error f |}
  end.

(** [open(path, 'rb')] *)
Definition open_rb (w : world) (path : string) : result stream :=
  match fs_path path with
  | Raise e => Raise e
  | Ok _ =>
      match lookup w path with
      | None => Raise (ENOENT path)
      | Some n =>
          match resolve n with
          | None => Raise (ENOENT path)
          | Some (File f) | Some (Special _ f) => open_obj f
          | Some (Dir _) => Raise (EISDIR path)
          | Some _ => Raise (EACCES path)
          end
      end
  end.

Fixpoint take (n : Z) (l : list byte) : list byte :=
  match l with
  | [] => []
  | b :: t => if n <=? 0 then [] else b :: take (n - 1) t
  end.

Fixpoint drop (n : Z) (l : list byte) : list byte :=
  match l with
  | [] => []
  | _ :: t => if n <=? 0 then l else drop (n - 1) t
  end.

(** [f.read(size)] for [size > 0]: at most [size] bytes, [b''] at the end
    of the file. *)
Definition read (f : stream) (size : Z) : result (list byte * stream) :=
  match fault f with
  | Some (O, e) => Raise e
  | Some (S k, e) =>
      Ok (take size (remaining f),
          {| remaining := drop size (remaining f); fault := Some (k, e) |})
  | None =>
      Ok (take size (remaining f),
          {| remaining := drop size (remaining f); fault := None |})
  end.

(** [f.read()]: everything up to the end of the file, in one call. *)
Definition read_all (f : stream) : result (list byte) :=
  match fault f with
  | Some (O, e) => Raise e
  | _ => Ok (remaining f)
  end.

(** [open(path, 'a', encoding='utf-8')] *)
Definition open_append (w : world) (path : string) : result unit :=
  match append_error w path with
  | Some e => Raise e
  | None => Ok tt
  end.

(** [DirEntry.is_dir()]: follows symbolic links; a failing stat counts as
    "not a directory". *)
Definition entry_is_dir (n : node) : bool :=
  match resolve n with
  | Some (Dir _) | Some NoAccessDir => true
  | _ => false
  end.

Definition islink (n : node) : bool :=
  match n with Symlink _ _ => true | _ => false end.

(** [os.walk(top, followlinks=False)] on the directory [n] found at [top],
    top-down: this directory's triple, then the sub-directories in listing
    order; a directory that cannot be listed yields nothing, and a
    sub-directory that is a symbolic link is named but not entered. *)
Fixpoint walk_node (top : string) (n : node) : list (string * list string * list string) :=
  match n with
  | Dir entries =>
      let dirs := map fst (filter (fun e => entry_is_dir (snd e)) entries) in
      let nondirs := map fst (filter (fun e => negb (entry_is_dir (snd e))) entries) in
      (top, dirs, nondirs) ::
      flat_map (fun e : string * node =>
                  let (name, child) := e in
                  match child with
                  | Dir _ | NoAccessDir => walk_node (join top name) child
                  | _ => []
                  end) entries
  | _ => []
  end.

(** [os.walk(root, followlinks=False)]: the top itself is listed through a
    symbolic link; a top that cannot be listed yields nothing. *)
Definition walk (w : world) (root : string) : list (string * list string * list string) :=
  match lookup w root with
  | Some n =>
      match resolve n with
      | Some d => walk_node root d
      | None => []
      end
  | None => []
  end.

End OS.

(* ===================================================================== *)
(** * src/hasher.py *)
(* ===================================================================== *)

(** The diagnostic log ([teeprint]) and the progress lines
    ([progress_print], [heartbeat]) only observe the run; they are left out
    of the model, except for the final summary line.  Writes to the open
    output file and to the log are taken to succeed. *)

Module Hasher.
Import PyStr PosixPath OS.
Local Open Scope py_scope.

(** ** Settings *)

Definition CHUNK : Z := Z.shiftl 1 20.
Definition PROGRESS_EVERY : Z := 200.
Definition SUBMIT_BATCH : Z := 5000.
Definition HASH_FILE : string := "hashes.txt".

Definition SKIP_FS_TYPES : list string :=
  [ "proc"; "sysfs"; "devtmpfs"; "devpts"; "tmpfs"; "hugetlbfs";
    "cgroup"; "cgroup2"; "configfs"; "fusectl"; "debugfs"; "securityfs";
    "pstore"; "bpf"; "tracefs"; "ramfs"; "autofs"; "sockfs"; "pipefs";
    "overlay"; "squashfs"; "nsfs"; "binfmt_misc"; "rpc_pipefs"; "mqueue";
    "zramfs"; "zsmalloc" ].

Definition SKIP_FS_PREFIXES : list string := [ "cgroup"; "fuse."; "fusectl" ].

(** ** load_mounts_to_skip *)

(** The [try] block of the mountinfo branch: unpacking, [parts_left[4]]
    and [right.split()[0]] may each raise. *)
Definition parse_mountinfo_line (line : string) : result (string * string) :=
  match partition1 " - " (strip line) with
  | None => Raise (ValueError "not enough values to unpack (expected 2, got 1)")
  | Some (left', right') =>
      let parts_left := split_ws left' in
      mountpoint <- index parts_left 4 ;;
      fstype <- index (split_ws right') 0 ;;
      Ok (mountpoint, fstype)
  end.

Definition skipped_fstype (fstype : string) : bool :=
  existsb (String.eqb fstype) SKIP_FS_TYPES
  || existsb (fun pfx => startswith fstype pfx) SKIP_FS_PREFIXES.

(** The body of [for line in f], with [mounts] the list built so far. *)
Definition load_line (cwd path : string) (mounts : list string) (line : string)
    : list string :=
  let parsed : option (string * string) :=
    if endswith path "mountinfo" then
      match parse_mountinfo_line line with
      | Ok x => Some x
      | Raise _ => None
      end
    else
      let parts := split_ws line in
      if (List.length parts <? 3)%nat then None
      else Some (nth 1 parts "", nth 2 parts "") in
  match parsed with
  | None => mounts
  | Some (mountpoint, fstype) =>
      if skipped_fstype fstype then (mounts ++ [abspath cwd mountpoint])%list
      else mounts
  end.

(** The sort key [(-len(p), p)], compared as Python compares tuples. *)
Definition key_le (a b : string) : bool :=
  (- len a <? - len b) || ((- len a =? - len b) && String.leb a b).

Fixpoint insert_sorted (x : string) (l : list string) : list string :=
  match l with
  | [] => [x]
  | y :: t => if key_le x y then x :: l else y :: insert_sorted x t
  end.

(** [sorted(set(mounts), key=...)]: distinct strings have distinct keys, so
    the result does not depend on the set's iteration order. *)
Definition sorted_set (mounts : list string) : list string :=
  fold_right insert_sorted [] (nodup string_dec mounts).

Definition load_mounts_to_skip (w : world) : list string :=
  let path := if text_exists (proc_self_mountinfo w)
              then "/proc/self/mountinfo" else "/proc/mounts" in
  let f := if text_exists (proc_self_mountinfo w)
           then proc_self_mountinfo w else proc_mounts w in
  let mounts :=
    match f with
    | Lines ls => fold_left (load_line (getcwd w) path) ls []
    | Absent | Unreadable _ => []
    end in
  sorted_set mounts.

(** ** teeprint *)

(** [teeprint(msg)]: one line to the debug log, which the script opens
    with [open(DEBUG_LOG, 'w', encoding='utf-8')], so with the codec's
    strict error handler.  The log is never read; the model keeps of a
    call only whether it raises, which it does on a text that does not
    encode.  A write that the system refuses (a full disk) is outside the
    model, for the log as for the output file. *)
Definition teeprint (msg : string) : result unit :=
  if encodable msg then Ok tt else Raise (UnicodeEncodeError msg).

(** ** path_on_skipped_mount *)

Definition path_on_skipped_mount (cwd : string) (path : string)
    (skip_mounts : list string) : bool :=
  let ap := abspath cwd path in
  existsb (fun m => String.eqb ap m || startswith ap (m ++ sep)) skip_mounts.

(** ** is_regular_file *)

Definition is_regular_file (w : world) (path : string) : result bool :=
  try_except_OSError
    (st <- lstat w path ;; Ok (S_ISREG st))
    (fun _ => Ok false).

(** ** check_hash *)

Definition check_hash (digest : string) : bool * string :=
  (false, "DUMMY_REASON").

(** ** blake2b_file *)

(** [for b in iter(lambda: f.read(CHUNK), b''): h.update(b); bytes_read += len(b)].
    Every iteration but the last consumes at least one byte, so
    [S (length (remaining f))] iterations always suffice. *)
Fixpoint read_chunks (fuel : nat) (f : stream) (h : Blake2b.hasher) (bytes_read : Z)
    : result (Blake2b.hasher * Z) :=
  match fuel with
  | O => Ok (h, bytes_read)
  | S k =>
      ' (b, f') <- read f CHUNK ;;
      match b with
      | [] => Ok (h, bytes_read)
      | _ => read_chunks k f' (Blake2b.update h b) (bytes_read + Z.of_nat (List.length b))
      end
  end.

(** [hashlib.blake2b(digest_size=size)] *)
Definition blake2b_new (size : nat) : result Blake2b.hasher :=
  if ((1 <=? size) && (size <=? 64))%nat then Ok (Blake2b.new size)
  else Raise (ValueError "digest_size must be between 1 and 64 bytes").

(** [f"[WORKER {pid}] "] *)
Definition worker_tag (w : world) : string :=
  "[WORKER " ++ str_of_int (getpid w) ++ "] ".

(** The first and the last [teeprint] are outside the [try]; the one that
    reports the end is inside, so its failure is handled like a failed read,
    and the handler's own [teeprint] can raise in turn.
    [traceback.print_exc(file=logfile)] writes the text of the same
    exception to the same log after that line and is not modelled. *)
Definition blake2b_file (w : world) (path : string) (size : nat) : result (option string) :=
  _ <- teeprint (worker_tag w ++ "OPENING: " ++ path) ;;
  h <- blake2b_new size ;;
  let bytes_read := 0 in
  try_except
    (f <- open_rb w path ;;
     ' (h, bytes_read) <- read_chunks (S (List.length (remaining f))) f h bytes_read ;;
     _ <- teeprint (worker_tag w ++ "DONE: " ++ path ++ " read="
                    ++ str_of_int bytes_read ++ " bytes") ;;
     Ok (Some (Blake2b.hasher_hexdigest h)))
    (fun e =>
       _ <- teeprint (worker_tag w ++ "ERROR " ++ path ++ ": " ++ str_of_exn e) ;;
       Ok None).

(** ** hash_one *)

Definition hash_one (w : world) (args : string * list string)
    : result (string * option string) :=
  let (path, skip_mounts) := args in
  _ <- teeprint (worker_tag w ++ "START " ++ path) ;;
  if path_on_skipped_mount (getcwd w) path skip_mounts then
    _ <- teeprint (worker_tag w ++ "SKIP (skipped fs mount): " ++ path) ;;
    Ok (path, None)
  else
    reg <- is_regular_file w path ;;
    if negb reg then
      _ <- teeprint (worker_tag w ++ "SKIP (not regular): " ++ path) ;;
      Ok (path, None)
    else
      digest <- blake2b_file w path 64 ;;
      Ok (path, digest).

(** ** The worker pool *)

(** A future of the pool: [fid] stands for the object's identity, [_path]
    is the attribute [hash_all] sets on it, [outcome] is what [result()]
    returns or raises once the worker has run. *)
Record Future : Type := {
  fid : nat;
  _path : string;
  outcome : result (string * option string)
}.

Record executor : Type := {
  max_workers : Z;
  next_fid : nat
}.

(** A pool that has handed out no future yet. *)
Definition fresh_pool (n : Z) : executor := {| max_workers := n; next_fid := O |}.

(** [ProcessPoolExecutor(max_workers=n)] *)
Definition ProcessPoolExecutor (n : Z) : result executor :=
  if n <=? 0 then Raise (ValueError "max_workers must be greater than 0")
  else Ok (fresh_pool n).

(** [pool.submit(hash_one, args)] *)
Definition submit (w : world) (pool : executor) (args : string * list string)
    : Future * executor :=
  ({| fid := next_fid pool; _path := ""; outcome := hash_one w args |},
   {| max_workers := max_workers pool; next_fid := S (next_fid pool) |}).

Definition set_path (fut : Future) (p : string) : Future :=
  {| fid := fid fut; _path := p; outcome := outcome fut |}.

(** Futures compare by identity. *)
Definition same (a b : Future) : bool := Nat.eqb (fid a) (fid b).

(** [l.remove(x)]: drop the first element equal to [x]; [None] stands for
    [ValueError]. *)
Fixpoint list_remove (x : Future) (l : list Future) : option (list Future) :=
  match l with
  | [] => None
  | y :: t =>
      if same y x then Some t
      else match list_remove x t with
           | Some t' => Some (y :: t')
           | None => None
           end
  end.

Fixpoint remove_at (i : nat) (l : list Future) : list Future :=
  match l, i with
  | [], _ => []
  | _ :: t, O => t
  | y :: t, S k => y :: remove_at k t
  end.

(** [as_completed(fs)]: every future of [fs] once, in completion order.
    The order is the run's choice: [pick] tells, from the futures still
    pending, the position of the one that completes next. *)
Fixpoint as_completed_from (pick : list Future -> nat) (fuel : nat)
    (pending : list Future) : list Future :=
  match fuel with
  | O => []
  | S k =>
      match pending with
      | [] => []
      | f0 :: _ =>
          let i := (pick pending mod List.length pending)%nat in
          nth i pending f0 :: as_completed_from pick k (remove_at i pending)
      end
  end.

Definition as_completed (pick : list Future -> nat) (fs : list Future) : list Future :=
  as_completed_from pick (List.length fs) fs.

(** ** hash_all *)

Record state : Type := {
  submitted : Z;
  done : Z;
  errors : Z;
  futures : list Future;
  (** the lines written to [out] by this run *)
  out : list string;
  pool : executor;
  (** history: the futures whose [result()] was taken, in that order *)
  consumed : list Future
}.

(** Truth value of [digest] in [if digest:]. *)
Definition truthy (digest : option string) : bool :=
  match digest with
  | None => false
  | Some d => negb (String.eqb d "")
  end.

Definition format_record (digest : string) (boolean : bool) (reason : string) : string :=
  digest ++ " " ++ (if boolean then "TRUE" else "FALSE") ++ " " ++ reason
  ++ String (ascii_of_nat 10) EmptyString.

(** [futures[:n]] *)
Definition slice_to (n : Z) (l : list Future) : list Future :=
  if 0 <=? n then firstn (Z.to_nat n) l
  else firstn (List.length l - Z.to_nat (- n)) l.

(** Updates of the coordinator's variables. *)
Definition set_futures (l : list Future) (st : state) : state :=
  {| submitted := submitted st; done := done st; errors := errors st;
     futures := l; out := out st; pool := pool st; consumed := consumed st |}.

Definition log_consumed (fut : Future) (st : state) : state :=
  {| submitted := submitted st; done := done st; errors := errors st;
     futures := futures st; out := out st; pool := pool st;
     consumed := (consumed st ++ [fut])%list |}.

Definition out_write (line : string) (st : state) : state :=
  {| submitted := submitted st; done := done st; errors := errors st;
     futures := futures st; out := (out st ++ [line])%list; pool := pool st;
     consumed := consumed st |}.

Definition incr_errors (st : state) : state :=
  {| submitted := submitted st; done := done st; errors := errors st + 1;
     futures := futures st; out := out st; pool := pool st;
     consumed := consumed st |}.

Definition incr_done (st : state) : state :=
  {| submitted := submitted st; done := done st + 1; errors := errors st;
     futures := futures st; out := out st; pool := pool st;
     consumed := consumed st |}.

(** The body of [drain]'s loop up to [count += 1]. *)
Definition drain_one (st : state) (fut : Future) : result state :=
  let st :=
    match list_remove fut (futures st) with
    | Some l => set_futures l st
    | None => st
    end in
  ' (path, digest) <- outcome fut ;;
  let st := log_consumed fut st in
  let st :=
    if truthy digest then
      let d := match digest with Some d => d | None => "" end in
      let (boolean, reason) := check_hash d in
      out_write (format_record d boolean reason) st
    else incr_errors st in
  Ok (incr_done st).

(** [for fut in as_completed(snapshot): ...; count += 1; if n is not None
    and count >= n: break] *)
Fixpoint drain_loop (n : option Z) (count : Z) (order : list Future) (st : state)
    : result state :=
  match order with
  | [] => Ok st
  | fut :: rest =>
      st' <- drain_one st fut ;;
      let count := count + 1 in
      if match n with Some n => n <=? count | None => false end
      then Ok st'
      else drain_loop n count rest st'
  end.

Definition drain (pick : list Future -> nat) (n : option Z) (st : state) : result state :=
  let count := 0 in
  let snapshot :=
    match n with
    | None => futures st
    | Some n => slice_to n (futures st)
    end in
  drain_loop n count (as_completed pick snapshot) st.

(** The body of [for name in filenames]. *)
Definition submit_file (w : world) (pick : list Future -> nat)
    (skip_mounts : list string) (dirpath : string) (st : state) (name : string)
    : result state :=
  let fpath := join dirpath name in
  let (fut, pool') := submit w (pool st) (fpath, skip_mounts) in
  let fut := set_path fut fpath in
  let st :=
    {| submitted := submitted st + 1; done := done st; errors := errors st;
       futures := (futures st ++ [fut])%list; out := out st; pool := pool';
       consumed := consumed st |} in
  if submitted st mod SUBMIT_BATCH =? 0
  then drain pick (Some (SUBMIT_BATCH / 2)) st
  else Ok st.

(** A [for] loop whose body may raise. *)
Fixpoint for_each {A S : Type} (body : S -> A -> result S) (l : list A) (st : S)
    : result S :=
  match l with
  | [] => Ok st
  | x :: t => st' <- body st x ;; for_each body t st'
  end.

(** The loop over [os.walk(root, followlinks=False)].  The walk starts
    with [scandir(root)], whose ValueError for a root with an embedded NUL
    is no OSError and leaves [os.walk]; every directory is reported to the
    debug log before its files are submitted.  (The [teeprint] calls that
    report counters print digits and fixed text, which always encode.) *)
Definition submit_all (w : world) (pick : list Future -> nat)
    (skip_mounts : list string) (root : string) (st : state) : result state :=
  _ <- fs_path root ;;
  for_each
    (fun st (triple : string * list string * list string) =>
       let '(dirpath, _, filenames) := triple in
       _ <- teeprint ("[SCAN] dir: " ++ dirpath) ;;
       for_each (submit_file w pick skip_mounts dirpath) filenames st)
    (walk w root) st.

Record run : Type := {
  final : state;
  (** the [DONE] line printed at the end *)
  summary : string;
  return_value : Z
}.

(** The coordinator's variables when the [with] block is entered. *)
Definition initial_state (pool : executor) : state :=
  {| submitted := 0; done := 0; errors := 0; futures := []; out := [];
     pool := pool; consumed := [] |}.

(** [teeprint("[SKIP] mountpoints:", *("  - " + m for m in skip_mounts), sep="\n")]:
    [teeprint] joins its arguments with a space. *)
Definition skip_message (skip_mounts : list string) : string :=
  String.concat " " ("[SKIP] mountpoints:" :: map (fun m => "  - " ++ m) skip_mounts).

(** [hash_all(root, out_file, workers)]; [out (final r)] is the text
    appended to [out_file].  The two lines to the debug log, creating the
    pool and opening the output file are the steps that can fail before
    the walk starts.  Standard output is taken to accept the progress
    lines, which hold fixed text and numbers. *)
Definition hash_all (w : world) (pick : list Future -> nat)
    (root : string) (out_file : string) (workers : option Z) : result run :=
  let workers :=
    match workers with
    | Some n => n
    | None =>
        Z.max 4 (match cpu_count w with
                 | Some c => if c =? 0 then 4 else c
                 | None => 4
                 end)
    end in
  let skip_mounts := load_mounts_to_skip w in
  _ <- teeprint ("[START] root=" ++ root ++ " workers=" ++ str_of_int workers) ;;
  _ <- match skip_mounts with
       | [] => Ok tt
       | _ => teeprint (skip_message skip_mounts)
       end ;;
  pool <- ProcessPoolExecutor workers ;;
  _ <- open_append w out_file ;;
  st <- submit_all w pick skip_mounts root (initial_state pool) ;;
  st <- drain pick None st ;;
  Ok {| final := st;
        summary := "[DONE] submitted=" ++ str_of_int (submitted st)
                   ++ " ok=" ++ str_of_int (done st - errors st)
                   ++ " errors=" ++ str_of_int (errors st);
        return_value := 0 |}.

End Hasher.

(* ===================================================================== *)
(** * src/entropy.py *)
(* ===================================================================== *)

Module Entropy.
Import PyStr PosixPath OS.
Local Open Scope py_scope.

Section WithFloats.

(** Python's [float] and the operations the function uses on it are kept
    abstract: [truediv c n] is [c / n] for ints with [n <> 0],
    [log2_value x] is [math.log2(x)] where it is defined. *)
Variable float : Type.
Variable zero : float.
Variable truediv : Z -> Z -> float.
Variable log2_defined : float -> bool.
Variable log2_value : float -> float.
Variable fmul : float -> float -> float.
Variable fsub : float -> float -> float.
Variable format_3f : float -> string.

(** Whether [sys.stdout] has the error handler 'strict', as Python sets it
    up under a UTF-8 locale; under the C locale the handler is
    'surrogateescape' and every str of the model can be printed. *)
Variable stdout_strict : bool.

(** [c / n] on ints *)
Definition int_truediv (c n : Z) : result float :=
  if n =? 0 then Raise (ZeroDivisionError "division by zero")
  else Ok (truediv c n).

(** What the function does to the outside: the lines printed, and the
    arguments [math.log2] was called with. *)
Record effects : Type := {
  stdout : list string;
  log2_calls : list float
}.

Definition no_effects : effects := {| stdout := []; log2_calls := [] |}.

(** [print(line)] *)
Definition print (line : string) (io : effects) : result effects :=
  if stdout_strict && negb (encodable line) then Raise (UnicodeEncodeError line)
  else Ok {| stdout := (stdout io ++ [line])%list; log2_calls := log2_calls io |}.

(** [math.log2(x)] *)
Definition math_log2 (x : float) (io : effects) : result (float * effects) :=
  let io := {| stdout := stdout io; log2_calls := (log2_calls io ++ [x])%list |} in
  if log2_defined x then Ok (log2_value x, io)
  else Raise (ValueError "math domain error").

(** [collections.Counter(data)]: the count of each byte value, in the order
    of first occurrence. *)
Fixpoint counter_add (b : byte) (counts : list (byte * Z)) : list (byte * Z) :=
  match counts with
  | [] => [(b, 1)]
  | (k, c) :: t =>
      if Byte.eqb k b then (k, c + 1) :: t else (k, c) :: counter_add b t
  end.

Definition Counter (data : list byte) : list (byte * Z) :=
  fold_left (fun counts b => counter_add b counts) data [].

Definition values (counts : list (byte * Z)) : list Z := map snd counts.

(** [for count in counts.values(): p = count / length; ent -= p * math.log2(p)] *)
Fixpoint entropy_loop (length : Z) (counts : list Z) (ent : float) (io : effects)
    : result (float * effects) :=
  match counts with
  | [] => Ok (ent, io)
  | count :: rest =>
      p <- int_truediv count length ;;
      ' (l, io) <- math_log2 p io ;;
      entropy_loop length rest (fsub ent (fmul p l)) io
  end.

(** [print_entropy()] in a process started with [sys.argv = argv]. *)
Definition print_entropy (w : world) (argv : list string) : result effects :=
  let io := no_effects in
  if (List.length argv <? 2)%nat then
    argv0 <- index argv 0 ;;
    print ("Usage: " ++ basename argv0 ++ " <file>") io
  else
    path <- index argv 1 ;;
    match (f <- open_rb w path ;; read_all f) with
    | Raise e =>
        print ("[ERROR] Cannot read " ++ path ++ ": " ++ str_of_exn e) io
    | Ok data =>
        match data with
        | [] => print (path ++ ": empty file (entropy = 0.0)") io
        | _ =>
            let counts := Counter data in
            let length := Z.of_nat (List.length data) in
            let ent := zero in
            ' (ent, io) <- entropy_loop length (values counts) ent io ;;
            print (path ++ ": Entropy = " ++ format_3f ent
                   ++ " bits/byte, Size = " ++ str_of_int length ++ " bytes") io
        end
    end.

End WithFloats.

End Entropy.

(* ===================================================================== *)
(** * Concrete worlds *)
(* ===================================================================== *)

Module Scenario.
Import PyStr PosixPath OS Hasher.

(** Every entry below the directory [n] found at [top], with its path as
    [os.path.join] builds it. *)
Fixpoint listing (top : string) (n : node) : list (string * node) :=
  match n with
  | Dir entries =>
      flat_map (fun e : string * node =>
                  let (name, child) := e in
                  (join top name, child) :: listing (join top name) child) entries
  | _ => []
  end.

(** A file system that holds the tree [t] at [root] and does not change
    during the run. *)
Definition static_lookup (root : string) (t : node) (path : string) : option node :=
  if String.eqb path root then Some t
  else match find (fun e => String.eqb (fst e) path) (listing root t) with
       | Some e => Some (snd e)
       | None => None
       end.

Definition static_world (cwd : string) (mountinfo : text_file) (root : string)
    (t : node) : world :=
  {| getcwd := cwd; getpid := 4242; cpu_count := Some 8;
     proc_self_mountinfo := mountinfo; proc_mounts := Absent;
     lookup := static_lookup root t;
     append_error := fun _ => None |}.

Definition bytes_of (s : string) : list byte := list_byte_of_string s.

Definition nl : string := String (ascii_of_nat 10) EmptyString.

(** A mount table with the root on ext4, /proc, /sys and a tmpfs. *)
Definition mountinfo_lines : list string :=
  [ "22 28 0:21 / /proc rw,nosuid,nodev,noexec,relatime shared:12 - proc proc rw" ++ nl;
    "23 28 0:22 / /sys rw,nosuid,nodev,noexec,relatime shared:7 - sysfs sysfs rw" ++ nl;
    "28 1 8:2 / / rw,relatime shared:1 - ext4 /dev/sda2 rw,errors=remount-ro" ++ nl;
    "30 28 0:26 / /run rw,nosuid,nodev shared:13 - tmpfs tmpfs rw,mode=755" ++ nl ].

(** The end-to-end scenario: a.txt and b.txt hold "hello", link points to
    a.txt, sub/c.txt holds "world". *)
Definition hello : node := File (plain_file (bytes_of "hello")).

Definition scenario_tree : node :=
  Dir [ ("a.txt", hello);
        ("b.txt", hello);
        ("link", Symlink "a.txt" (Some hello));
        ("sub", Dir [ ("c.txt", File (plain_file (bytes_of "world"))) ]) ].

Definition scenario_root : string := "/srv/data".

Definition scenario_world : world :=
  static_world "/" (Lines mountinfo_lines) scenario_root scenario_tree.

(** Completion orders: the oldest pending future first, or the newest. *)
Definition oldest_first (pending : list Future) : nat := O.
Definition newest_first (pending : list Future) : nat := (List.length pending - 1)%nat.

(** A directory of [n] empty files f0, f1, ... *)
Definition flat_tree (n : nat) : node :=
  Dir (map (fun i => ("f" ++ str_of_int (Z.of_nat i), File (plain_file [])))
           (seq 0 n)).

Definition big_root : string := "/srv/big".

Definition big_world : world :=
  static_world "/" (Lines mountinfo_lines) big_root (flat_tree (Z.to_nat 15000)).

(** A root file system with /proc mounted, scanned from "/". *)
Definition mounted_tree : node :=
  Dir [ ("etc", Dir [ ("hostname", File (plain_file (bytes_of "box"))) ]);
        ("proc", Dir [ ("version", File (plain_file (bytes_of "Linux version 6"))) ]) ].


(** A file whose first read fails with an I/O error, an unreadable file,
    and an empty file. *)
Definition eio : exn := OSError "[Errno 5] Input/output error".

Definition faulty_tree : node :=
  Dir [ ("bad-sector", File {| open_error := None; data := bytes_of "partly readable";
                               read_error := Some (O, eio) |});
        ("secret", File {| open_error := Some (EACCES "/srv/faulty/secret");
                           data := bytes_of "x"; read_error := None |});
        ("empty", File (plain_file [])) ].

Definition faulty_world : world :=
  static_world "/" (Lines mountinfo_lines) "/srv/faulty" faulty_tree.

(** A file whose name is not valid UTF-8: the bytes of "caf\xe9.txt"
    (Latin-1), which Python reads as the str 'caf\udce9.txt'. *)
Definition cafe_name : string := "caf" ++ String (ascii_of_nat 233) ".txt".

Definition music_tree : node :=
  Dir [ ("a.txt", hello); (cafe_name, hello) ].

Definition music_root : string := "/srv/music".

Definition music_world : world :=
  static_world "/" (Lines mountinfo_lines) music_root music_tree.

Definition cafe_path : string := "/srv/music/" ++ cafe_name.


(** A container: the root file system itself is an overlay mount. *)
Definition container_mountinfo : list string :=
  [ "455 380 0:50 / / rw,relatime master:120 - overlay overlay rw,lowerdir=/l,upperdir=/u" ++ nl;
    "456 455 0:53 / /proc rw,nosuid,nodev,noexec,relatime - proc proc rw" ++ nl ].

Definition container_tree : node :=
  Dir [ ("etc", Dir [ ("passwd", File (plain_file (bytes_of "root:x:0:0"))) ]) ].

Definition container_world : world :=
  static_world "/" (Lines container_mountinfo) "/" container_tree.

End Scenario.

(* ===================================================================== *)
(** * Facts about the library models *)
(* ===================================================================== *)

Import PyStr PosixPath OS Hasher Scenario.

Section Blake2bFacts.

Definition hex_alphabet : list ascii := list_ascii_of_string "0123456789abcdef".

Definition is_hex_char (c : ascii) : bool := existsb (Ascii.eqb c) hex_alphabet.

(** A BLAKE2b-512 digest in hexadecimal: 128 lower-case hex characters. *)
Definition is_hex_digest (s : string) : bool :=
  Nat.eqb (String.length s) 128 && forallb is_hex_char (list_ascii_of_string s).

Lemma hex_digit_is_hex (n : Z) : is_hex_char (Blake2b.hex_digit n) = true.
Proof.
  unfold is_hex_char, Blake2b.hex_digit. fold hex_alphabet.
  apply existsb_exists.
  exists (nth (Z.to_nat n) hex_alphabet "0"%char). split.
  - destruct (Nat.lt_ge_cases (Z.to_nat n) (List.length hex_alphabet)) as [Hlt | Hge].
    + now apply nth_In.
    + rewrite nth_overflow by exact Hge. simpl. now left.
  - apply Ascii.eqb_refl.
Qed.

Lemma list_ascii_of_string_app (a b : string) :
  list_ascii_of_string (a ++ b) = (list_ascii_of_string a ++ list_ascii_of_string b)%list.
Proof. induction a as [| c a IH]; simpl; [reflexivity | now rewrite IH]. Qed.

Lemma string_length_app (a b : string) :
  String.length (a ++ b) = (String.length a + String.length b)%nat.
Proof. induction a as [| c a IH]; simpl; [reflexivity | now rewrite IH]. Qed.

Lemma hex_of_bytes_length (bs : list Z) :
  String.length (Blake2b.hex_of_bytes bs) = (2 * List.length bs)%nat.
Proof.
  induction bs as [| b t IH]; simpl; [reflexivity |].
  rewrite IH. lia.
Qed.

Lemma hex_of_bytes_is_hex (bs : list Z) :
  forallb is_hex_char (list_ascii_of_string (Blake2b.hex_of_bytes bs)) = true.
Proof.
  induction bs as [| b t IH]; simpl; [reflexivity |].
  now rewrite !hex_digit_is_hex, IH.
Qed.

Lemma flat_map_length_const {A B : Type} (f : A -> list B) (c : nat) (l : list A) :
  (forall a, List.length (f a) = c) ->
  List.length (flat_map f l) = (c * List.length l)%nat.
Proof.
  intros Hf. induction l as [| a t IH]; simpl; [lia |].
  rewrite length_app, Hf, IH. lia.
Qed.

Lemma state_bytes_length (h : list Z) : List.length (Blake2b.state_bytes h) = 64%nat.
Proof.
  unfold Blake2b.state_bytes.
  rewrite (flat_map_length_const _ 8%nat).
  - now rewrite length_seq.
  - intros i. unfold Blake2b.word_bytes. now rewrite length_map, length_seq.
Qed.

Lemma hexdigest_length (data : list byte) :
  String.length (Blake2b.hexdigest 64 data) = 128%nat.
Proof.
  unfold Blake2b.hexdigest.
  rewrite hex_of_bytes_length, firstn_length_le; [reflexivity |].
  rewrite state_bytes_length. lia.
Qed.

Lemma hexdigest_is_hex (data : list byte) :
  is_hex_digest (Blake2b.hexdigest 64 data) = true.
Proof.
  unfold is_hex_digest. rewrite hexdigest_length, Nat.eqb_refl.
  unfold Blake2b.hexdigest. cbn [andb]. apply hex_of_bytes_is_hex.
Qed.




(** The RFC's test vector. *)
Lemma hexdigest_abc :
  Blake2b.hexdigest 64 (list_byte_of_string "abc") =
  "ba80a53f981c4d0d6a2797b69f12f6e94c212f14685ac4b74b12bb6fdbffa2d17d87c5392aab792dc252d5de4533cc9518d38aa8dbf1925ab92386edd4009923".
Proof. vm_compute. reflexivity. Qed.

End Blake2bFacts.

(* ===================================================================== *)
(** * The worker: is_regular_file, blake2b_file, hash_one *)
(* ===================================================================== *)

Section LogFacts.

Lemma encodable_app (a b : string) :
  encodable (a ++ b) = encodable a && encodable b.
Proof.
  unfold encodable. induction a as [| c a IH]; simpl; [reflexivity |].
  rewrite IH. now rewrite andb_assoc.
Qed.

Lemma string_of_uint_encodable (d : Decimal.uint) :
  encodable (NilEmpty.string_of_uint d) = true.
Proof. induction d; simpl; auto. Qed.

Lemma str_of_int_encodable (n : Z) : encodable (str_of_int n) = true.
Proof.
  unfold str_of_int, NilEmpty.string_of_int.
  destruct (Z.to_int n); [apply string_of_uint_encodable |].
  change (encodable (String "-" (NilEmpty.string_of_uint d)))
    with (encodable (NilEmpty.string_of_uint d)).
  apply string_of_uint_encodable.
Qed.

Lemma has_nul_app (a b : string) : has_nul (a ++ b) = has_nul a || has_nul b.
Proof.
  unfold has_nul. induction a as [| c a IH]; simpl; [reflexivity |].
  rewrite IH. now rewrite orb_assoc.
Qed.

Lemma string_of_uint_no_nul (d : Decimal.uint) :
  has_nul (NilEmpty.string_of_uint d) = false.
Proof. induction d; simpl; auto. Qed.

Lemma str_of_int_no_nul (n : Z) : has_nul (str_of_int n) = false.
Proof.
  unfold str_of_int, NilEmpty.string_of_int.
  destruct (Z.to_int n); [apply string_of_uint_no_nul |].
  change (has_nul (String "-" (NilEmpty.string_of_uint d)))
    with (has_nul (NilEmpty.string_of_uint d)).
  apply string_of_uint_no_nul.
Qed.

Lemma repr_char_encodable (quote c : ascii) :
  quote = single_quote \/ quote = double_quote ->
  encodable (repr_char quote c) = true.
Proof.
  intros [-> | ->];
    destruct c as [[] [] [] [] [] [] [] []]; reflexivity.
Qed.

Lemma concat_encodable (sep : string) (l : list string) :
  encodable sep = true ->
  Forall (fun s => encodable s = true) l ->
  encodable (String.concat sep l) = true.
Proof.
  intros Hsep. induction 1 as [| s t Hs Ht IH]; [reflexivity |].
  destruct t as [| s' t'].
  - exact Hs.
  - change (String.concat sep (s :: s' :: t'))
      with (s ++ sep ++ String.concat sep (s' :: t')).
    rewrite !encodable_app, Hs, Hsep, IH. reflexivity.
Qed.

(** [repr] escapes every surrogate: its text always encodes. *)
Lemma repr_encodable (s : string) : encodable (repr s) = true.
Proof.
  unfold repr.
  set (quote := if contains single_quote s && negb (contains double_quote s)
                then double_quote else single_quote).
  assert (Hq : quote = single_quote \/ quote = double_quote)
    by (unfold quote; destruct (_ && _); auto).
  assert (Hquote : encodable (String quote EmptyString) = true)
    by (destruct Hq as [-> | ->]; reflexivity).
  change (String quote
            (String.concat EmptyString (map (repr_char quote) (list_ascii_of_string s))
             ++ String quote EmptyString))
    with (String quote EmptyString
          ++ String.concat EmptyString (map (repr_char quote) (list_ascii_of_string s))
          ++ String quote EmptyString).
  rewrite !encodable_app, Hquote, concat_encodable; [reflexivity | reflexivity |].
  apply Forall_forall. intros x Hx. apply in_map_iff in Hx.
  destruct Hx as [c [<- _]]. now apply repr_char_encodable.
Qed.

Lemma oserror_encodable (errno : Z) (strerror path : string) :
  encodable strerror = true -> encodable (str_of_exn (oserror errno strerror path)) = true.
Proof.
  intros H. unfold oserror. cbn [str_of_exn].
  rewrite !encodable_app, str_of_int_encodable, H, repr_encodable. reflexivity.
Qed.

Lemma teeprint_encodable (msg : string) :
  encodable msg = true -> teeprint msg = Ok tt.
Proof. intros H. unfold teeprint. now rewrite H. Qed.

Lemma teeprint_surrogate (msg : string) :
  encodable msg = false -> teeprint msg = Raise (UnicodeEncodeError msg).
Proof. intros H. unfold teeprint. now rewrite H. Qed.

Lemma worker_tag_encodable (w : world) : encodable (worker_tag w) = true.
Proof.
  unfold worker_tag. rewrite !encodable_app, str_of_int_encodable. reflexivity.
Qed.

(** A line that a worker writes about [path] encodes exactly when [path]
    does. *)
Lemma worker_line_encodable (w : world) (label path : string) :
  encodable label = true ->
  encodable (worker_tag w ++ label ++ path) = encodable path.
Proof.
  intros H. now rewrite !encodable_app, worker_tag_encodable, H.
Qed.

End LogFacts.

Section WorkerFacts.

Lemma CHUNK_pos : 0 < CHUNK.
Proof. reflexivity. Qed.

Lemma take_drop (n : Z) (l : list byte) : (take n l ++ drop n l)%list = l.
Proof.
  revert n. induction l as [| b t IH]; intros n; simpl; [reflexivity |].
  destruct (n <=? 0); simpl; [reflexivity | now rewrite IH].
Qed.

Lemma take_nil_inv (n : Z) (l : list byte) : 0 < n -> take n l = [] -> l = [].
Proof.
  intros Hn. destruct l as [| b t]; simpl; [reflexivity |].
  destruct (Z.leb_spec n 0); [lia | discriminate].
Qed.

Lemma drop_length_lt (n : Z) (l : list byte) :
  0 < n -> l <> [] -> (List.length (drop n l) < List.length l)%nat.
Proof.
  intros Hn Hl.
  assert (Ht : take n l <> []) by (intros H; apply Hl; eapply take_nil_inv; eauto).
  rewrite <- (take_drop n l) at 2. rewrite length_app.
  destruct (take n l); [congruence | simpl; lia].
Qed.

Lemma drop_length (n : Z) (l : list byte) :
  0 <= n -> Z.of_nat (List.length (drop n l)) = Z.max 0 (Z.of_nat (List.length l) - n).
Proof.
  revert n. induction l as [| b t IH]; intros n Hn; simpl List.length.
  - simpl. lia.
  - simpl drop. destruct (Z.leb_spec n 0).
    + simpl List.length. lia.
    + rewrite IH by lia. lia.
Qed.

(** [is_regular_file] contains every OSError of [lstat], and nothing else:
    the ValueError for a path with an embedded NUL leaves it. *)
Lemma is_regular_file_total (w : world) (path : string) :
  has_nul path = false ->
  is_regular_file w path =
  Ok (match lookup w path with Some (File _) => true | _ => false end).
Proof.
  intros Hnul. unfold is_regular_file, lstat, fs_path. rewrite Hnul.
  destruct (lookup w path) as [n |]; simpl; [| reflexivity].
  destruct n as [f | t r | k f | es |]; try reflexivity.
  destruct k; reflexivity.
Qed.

Lemma is_regular_file_nul (w : world) (path : string) :
  has_nul path = true ->
  is_regular_file w path = Raise (ValueError "embedded null byte").
Proof.
  intros Hnul. unfold is_regular_file, lstat, fs_path. now rewrite Hnul.
Qed.

(** Without a fault the read loop feeds the whole file to the hash. *)
Lemma read_chunks_ok (fuel : nat) :
  forall (rem : list byte) (h : Blake2b.hasher) (br : Z),
    (List.length rem < fuel)%nat ->
    read_chunks fuel {| remaining := rem; fault := None |} h br =
    Ok ({| Blake2b.digest_size := Blake2b.digest_size h;
           Blake2b.absorbed := (Blake2b.absorbed h ++ rem)%list |},
        br + Z.of_nat (List.length rem)).
Proof.
  induction fuel as [| k IH]; intros rem h br Hfuel; [lia |].
  simpl read_chunks. unfold read. simpl fault. simpl remaining. simpl bind.
  destruct (take CHUNK rem) as [| b bs] eqn:Htake.
  - apply take_nil_inv in Htake; [| exact CHUNK_pos]. subst rem.
    rewrite app_nil_r. simpl. rewrite Z.add_0_r. now destruct h.
  - assert (Hne : rem <> []) by (intros ->; discriminate).
    pose proof (drop_length_lt CHUNK rem CHUNK_pos Hne) as Hlt.
    rewrite IH by lia.
    unfold Blake2b.update. simpl Blake2b.digest_size. simpl Blake2b.absorbed.
    rewrite <- app_assoc, <- Htake, take_drop.
    f_equal. f_equal.
    rewrite <- (take_drop CHUNK rem) at 3. rewrite length_app, Htake. lia.
Qed.

(** A fault at the read call number [k] is reached exactly when the calls
    before it all returned data. *)
Lemma read_chunks_fault (k : nat) :
  forall (fuel : nat) (rem : list byte) (e : exn) (h : Blake2b.hasher) (br : Z),
    (k < fuel)%nat ->
    (k = O \/ (Z.of_nat k - 1) * CHUNK < Z.of_nat (List.length rem)) ->
    read_chunks fuel {| remaining := rem; fault := Some (k, e) |} h br = Raise e.
Proof.
  induction k as [| k IH]; intros fuel rem e h br Hfuel Hreach;
    (destruct fuel as [| fuel]; [lia |]).
  - reflexivity.
  - destruct Hreach as [Hk | Hreach]; [discriminate |].
    simpl read_chunks. unfold read. simpl fault. simpl remaining. simpl bind.
    pose proof CHUNK_pos as Hc.
    assert (Hne : rem <> []).
    { intros ->. cbn [List.length] in Hreach.
      assert (0 <= (Z.of_nat (S k) - 1) * CHUNK) by (apply Z.mul_nonneg_nonneg; lia).
      lia. }
    destruct (take CHUNK rem) as [| b bs] eqn:Htake.
    + apply take_nil_inv in Htake; [contradiction | exact Hc].
    + apply IH; [lia |].
      destruct k as [| k']; [now left | right].
      rewrite drop_length by lia.
      replace (Z.of_nat (S (S k')) - 1) with (Z.of_nat (S k') - 1 + 1) in Hreach by lia.
      rewrite Z.mul_add_distr_r in Hreach. lia.
Qed.

(** More iterations than [blake2b_file] allows never change the result:
    the loop always ends within [S (length (remaining f))] reads. *)
Lemma read_chunks_enough (fuel : nat) :
  forall (fuel' : nat) (f : stream) (h : Blake2b.hasher) (br : Z),
    (List.length (remaining f) < fuel)%nat ->
    (List.length (remaining f) < fuel')%nat ->
    read_chunks fuel f h br = read_chunks fuel' f h br.
Proof.
  induction fuel as [| k IH]; intros fuel' f h br Hf Hf'; [lia |].
  destruct fuel' as [| k']; [lia |].
  cbn [read_chunks].
  assert (Hrem : forall b f', read f CHUNK = Ok (b, f') ->
                   b = take CHUNK (remaining f) /\
                   remaining f' = drop CHUNK (remaining f)).
  { intros b f'. unfold read. destruct (fault f) as [[[| j] e] |]; intros H;
      inversion H; subst; split; reflexivity. }
  destruct (read f CHUNK) as [[b f'] | e] eqn:Hr; cbv [bind]; [| reflexivity].
  destruct (Hrem b f' eq_refl) as [Hb Hf'']. 
  destruct b as [| x b]; [reflexivity |].
  assert (Hne : remaining f <> []).
  { intros Hnil. rewrite Hnil in Hb. discriminate. }
  pose proof (drop_length_lt CHUNK (remaining f) CHUNK_pos Hne) as Hlt.
  apply IH; rewrite Hf''; lia.
Qed.

(** The texts of the exceptions that opening and reading [f] can raise
    encode (as those of the system's errors do). *)
Definition file_errors_encode (f : file_obj) : bool :=
  match open_error f with
  | Some e => encodable (str_of_exn e)
  | None => true
  end &&
  match read_error f with
  | Some (_, e) => encodable (str_of_exn e)
  | None => true
  end.

Definition errors_encode (w : world) (path : string) : bool :=
  match lookup w path with
  | Some n =>
      match resolve n with
      | Some (File f) | Some (Special _ f) => file_errors_encode f
      | _ => true
      end
  | None => true
  end.

Lemma read_chunks_raise (fuel : nat) :
  forall (f : stream) (h : Blake2b.hasher) (br : Z) (e : exn),
    read_chunks fuel f h br = Raise e -> exists k, fault f = Some (k, e).
Proof.
  induction fuel as [| n IH]; intros f h br e; cbn [read_chunks]; [discriminate |].
  unfold read. destruct (fault f) as [[[| k] e0] |] eqn:Hf; cbv [bind].
  - intros H. inversion H. eauto.
  - destruct (take CHUNK (remaining f)); [discriminate |].
    intros H. apply IH in H. destruct H as [k' Hk']. cbn [fault] in Hk'.
    inversion Hk'. eauto.
  - destruct (take CHUNK (remaining f)); [discriminate |].
    intros H. apply IH in H. destruct H as [k' Hk']. discriminate.
Qed.

(** What the file gives to the hash: the content read, or the exception of
    [open] or of a [read]. *)
Definition read_for_hash (w : world) (path : string) : result (Blake2b.hasher * Z) :=
  (f <- open_rb w path ;;
   read_chunks (S (List.length (remaining f))) f (Blake2b.new 64) 0)%py.

Lemma read_for_hash_error (w : world) (path : string) (e : exn) :
  errors_encode w path = true ->
  read_for_hash w path = Raise e -> encodable (str_of_exn e) = true.
Proof.
  unfold read_for_hash, errors_encode, open_rb, fs_path. intros Henc.
  destruct (has_nul path); [intros H; inversion H; reflexivity |].
  assert (Hobj : forall f, file_errors_encode f = true ->
            (f' <- open_obj f ;;
             read_chunks (S (List.length (remaining f'))) f' (Blake2b.new 64) 0)%py
            = Raise e -> encodable (str_of_exn e) = true).
  { intros f Hf. unfold file_errors_encode in Hf. apply andb_prop in Hf.
    destruct Hf as [Ho Hr]. unfold open_obj.
    destruct (open_error f) as [e0 |]; cbv [bind].
    - intros H. inversion H; subst. exact Ho.
    - intros H. apply read_chunks_raise in H. destruct H as [k Hk].
      cbn [fault] in Hk. rewrite Hk in Hr. exact Hr. }
  destruct (lookup w path) as [n |].
  - destruct (resolve n) as [[f | t r | k f | es |] |]; cbv [bind].
    + now apply Hobj.
    + intros H; inversion H. now apply oserror_encodable.
    + now apply Hobj.
    + intros H; inversion H. now apply oserror_encodable.
    + intros H; inversion H. now apply oserror_encodable.
    + intros H; inversion H. now apply oserror_encodable.
  - cbv [bind]. intros H; inversion H. now apply oserror_encodable.
Qed.

(** [blake2b_file] on a path that encodes: only the handler's line can
    still fail to reach the log. *)
Lemma blake2b_file_quiet (w : world) (path : string) :
  encodable path = true ->
  blake2b_file w path 64 =
  match read_for_hash w path with
  | Ok (h, _) => Ok (Some (Blake2b.hasher_hexdigest h))
  | Raise e =>
      (_ <- teeprint (worker_tag w ++ "ERROR " ++ path ++ ": " ++ str_of_exn e) ;;
       Ok None)%py
  end.
Proof.
  intros Henc. unfold blake2b_file, read_for_hash.
  rewrite teeprint_encodable by (now rewrite worker_line_encodable).
  change (blake2b_new 64) with (Ok (Blake2b.new 64)). cbv [bind try_except].
  destruct (open_rb w path) as [f | e]; [| reflexivity].
  destruct (read_chunks _ f _ 0) as [[h br] | e]; [| reflexivity].
  rewrite teeprint_encodable; [reflexivity |].
  rewrite worker_line_encodable by reflexivity.
  now rewrite !encodable_app, Henc, str_of_int_encodable.
Qed.

Lemma blake2b_file_surrogate (w : world) (path : string) (size : nat) :
  encodable path = false ->
  blake2b_file w path size
  = Raise (UnicodeEncodeError (worker_tag w ++ "OPENING: " ++ path)).
Proof.
  intros Henc. unfold blake2b_file.
  rewrite teeprint_surrogate by (now rewrite worker_line_encodable). reflexivity.
Qed.

Lemma blake2b_file_total (w : world) (path : string) :
  encodable path = true -> errors_encode w path = true ->
  exists digest, blake2b_file w path 64 = Ok digest.
Proof.
  intros Henc Herr. rewrite blake2b_file_quiet by exact Henc.
  destruct (read_for_hash w path) as [[h br] | e] eqn:Hr; [eauto |].
  rewrite teeprint_encodable; [cbv [bind]; eauto |].
  rewrite worker_line_encodable by reflexivity.
  rewrite !encodable_app, Henc. cbn [andb encodable].
  exact (read_for_hash_error w path e Herr Hr).
Qed.

Lemma blake2b_file_failure (w : world) (path : string) (e : exn) :
  encodable path = true -> encodable (str_of_exn e) = true ->
  read_for_hash w path = Raise e -> blake2b_file w path 64 = Ok None.
Proof.
  intros Henc He Hr. rewrite blake2b_file_quiet by exact Henc. rewrite Hr.
  rewrite teeprint_encodable; [reflexivity |].
  rewrite worker_line_encodable by reflexivity.
  now rewrite !encodable_app, Henc, He.
Qed.

Lemma blake2b_file_open_error (w : world) (path : string) (e : exn) :
  encodable path = true -> encodable (str_of_exn e) = true ->
  open_rb w path = Raise e -> blake2b_file w path 64 = Ok None.
Proof.
  intros Henc He H. apply (blake2b_file_failure w path e Henc He).
  unfold read_for_hash. now rewrite H.
Qed.

Lemma blake2b_file_readable (w : world) (path : string) (content : list byte) :
  encodable path = true ->
  open_rb w path = Ok {| remaining := content; fault := None |} ->
  blake2b_file w path 64 = Ok (Some (Blake2b.hexdigest 64 content)).
Proof.
  intros Henc H. rewrite blake2b_file_quiet by exact Henc.
  unfold read_for_hash. rewrite H. cbv [bind].
  cbn [remaining]. rewrite read_chunks_ok by lia. reflexivity.
Qed.

Lemma blake2b_file_read_error (w : world) (path : string)
    (content : list byte) (k : nat) (e : exn) :
  encodable path = true -> encodable (str_of_exn e) = true ->
  open_rb w path = Ok {| remaining := content; fault := Some (k, e) |} ->
  (k = O \/ (Z.of_nat k - 1) * CHUNK < Z.of_nat (List.length content)) ->
  blake2b_file w path 64 = Ok None.
Proof.
  intros Henc He H Hreach. apply (blake2b_file_failure w path e Henc He).
  unfold read_for_hash. rewrite H. cbv [bind].
  cbn [remaining].
  rewrite read_chunks_fault; [reflexivity | | exact Hreach].
  destruct Hreach as [-> | Hr]; [lia |].
  destruct k as [| k]; [lia |].
  assert (Z.of_nat (S k) - 1 <= (Z.of_nat (S k) - 1) * CHUNK); [| lia].
  rewrite <- (Z.mul_1_r (Z.of_nat (S k) - 1)) at 1.
  apply Z.mul_le_mono_nonneg_l; [lia |]. pose proof CHUNK_pos; lia.
Qed.

Lemma read_chunks_digest_size (fuel : nat) :
  forall (f : stream) (h0 h : Blake2b.hasher) (br0 br : Z),
    read_chunks fuel f h0 br0 = Ok (h, br) ->
    Blake2b.digest_size h = Blake2b.digest_size h0.
Proof.
  induction fuel as [| k IH]; intros f h0 h br0 br; simpl.
  - intros H; now inversion H.
  - destruct (read f CHUNK) as [[b f'] |]; cbv [bind]; [| discriminate].
    destruct b; [intros H; now inversion H |].
    intros H. now apply IH in H.
Qed.

(** Whatever [blake2b_file] returns for a digest size of 64 is either null
    or the 128-character digest of some byte string. *)
Lemma blake2b_file_digest (w : world) (path : string) (d : string) :
  blake2b_file w path 64 = Ok (Some d) ->
  exists content, d = Blake2b.hexdigest 64 content.
Proof.
  destruct (encodable path) eqn:Henc;
    [| rewrite blake2b_file_surrogate by exact Henc; discriminate].
  rewrite blake2b_file_quiet by exact Henc. unfold read_for_hash.
  destruct (open_rb w path) as [f |]; cbv [bind];
    [| destruct (teeprint _); discriminate].
  destruct (read_chunks _ f _ 0) as [[h br] |] eqn:Hr;
    [| destruct (teeprint _); discriminate].
  intros H. inversion H; subst d.
  exists (Blake2b.absorbed h).
  unfold Blake2b.hasher_hexdigest.
  now rewrite (read_chunks_digest_size _ _ _ _ _ _ Hr).
Qed.

(** [hash_one] on a path that encodes: the lines to the log go through. *)
Lemma hash_one_quiet (w : world) (path : string) (skip_mounts : list string) :
  encodable path = true ->
  hash_one w (path, skip_mounts) =
  if path_on_skipped_mount (getcwd w) path skip_mounts then Ok (path, None)
  else
    (reg <- is_regular_file w path ;;
     if negb reg then Ok (path, None)
     else digest <- blake2b_file w path 64 ;; Ok (path, digest))%py.
Proof.
  intros Henc. unfold hash_one.
  rewrite !teeprint_encodable by (now rewrite worker_line_encodable).
  reflexivity.
Qed.

(** The first line of [hash_one] is outside every [try]: a path that does
    not encode makes the worker raise before it looks at the file. *)
Lemma hash_one_surrogate (w : world) (path : string) (skip_mounts : list string) :
  encodable path = false ->
  hash_one w (path, skip_mounts)
  = Raise (UnicodeEncodeError (worker_tag w ++ "START " ++ path)).
Proof.
  intros Henc. unfold hash_one.
  rewrite teeprint_surrogate by (now rewrite worker_line_encodable). reflexivity.
Qed.

(** What a path needs for its worker to return: it encodes, it holds no
    NUL, and the errors of the file it names have texts that encode. *)
Definition worker_safe (w : world) (path : string) : bool :=
  encodable path && negb (has_nul path) && errors_encode w path.

Lemma worker_safe_inv (w : world) (path : string) :
  worker_safe w path = true ->
  encodable path = true /\ has_nul path = false /\ errors_encode w path = true.
Proof.
  unfold worker_safe. intros H. apply andb_prop in H. destruct H as [H He].
  apply andb_prop in H. destruct H as [Hp Hn].
  apply negb_true_iff in Hn. auto.
Qed.

(** [hash_one] returns a pair for the path it was given, when the path is
    safe for the worker. *)
Lemma hash_one_total (w : world) (path : string) (skip_mounts : list string) :
  worker_safe w path = true ->
  exists digest, hash_one w (path, skip_mounts) = Ok (path, digest).
Proof.
  intros Hsafe. apply worker_safe_inv in Hsafe. destruct Hsafe as (Henc & Hnul & Herr).
  rewrite hash_one_quiet by exact Henc.
  destruct (path_on_skipped_mount _ _ _); [eauto |].
  rewrite is_regular_file_total by exact Hnul. cbv [bind].
  destruct (negb _); [eauto |].
  destruct (blake2b_file_total w path Henc Herr) as [d Hd]. rewrite Hd. eauto.
Qed.

Lemma hash_one_digest (w : world) (args : string * list string) (p d : string) :
  hash_one w args = Ok (p, Some d) ->
  exists content, d = Blake2b.hexdigest 64 content.
Proof.
  destruct args as [path skip_mounts].
  destruct (encodable path) eqn:Henc;
    [| rewrite hash_one_surrogate by exact Henc; discriminate].
  rewrite hash_one_quiet by exact Henc.
  destruct (path_on_skipped_mount _ _ _); [discriminate |].
  destruct (is_regular_file w path) as [reg |]; cbv [bind]; [| discriminate].
  destruct (negb reg); [discriminate |].
  destruct (blake2b_file w path 64) as [[d' |] |] eqn:Hb; try discriminate.
  intros H. inversion H; subst. eapply blake2b_file_digest; eauto.
Qed.


Lemma hash_one_regular (w : world) (path : string) (skip_mounts : list string)
    (content : list byte) :
  lookup w path = Some (File (plain_file content)) ->
  path_on_skipped_mount (getcwd w) path skip_mounts = false ->
  encodable path = true -> has_nul path = false ->
  hash_one w (path, skip_mounts) = Ok (path, Some (Blake2b.hexdigest 64 content)).
Proof.
  intros Hfile Hmount Hname Hnul.
  rewrite hash_one_quiet by exact Hname.
  rewrite Hmount, is_regular_file_total, Hfile by exact Hnul. cbv [bind negb].
  rewrite (blake2b_file_readable w path content Hname); [reflexivity |].
  unfold open_rb, fs_path. rewrite Hnul, Hfile. reflexivity.
Qed.

End WorkerFacts.

(* ===================================================================== *)
(** * The coordinator: as_completed, drain, the submission loop *)
(* ===================================================================== *)

Section CoordinatorFacts.

(** What a future delivers: its digest (null when the worker returned null
    or raised), whether that counts as a success in [drain], and the lines
    [drain] writes for it. *)
Definition digest_of (fut : Future) : option string :=
  match outcome fut with
  | Ok (_, d) => d
  | Raise _ => None
  end.

Definition succeeded (fut : Future) : bool := truthy (digest_of fut).

Definition record_of (fut : Future) : list string :=
  match digest_of fut with
  | Some d => if succeeded fut then [format_record d false "DUMMY_REASON"] else []
  | None => []
  end.

Definition records (l : list Future) : list string := flat_map record_of l.

Definition failures (l : list Future) : nat :=
  List.length (filter (fun f => negb (succeeded f)) l).

Definition delivers (fut : Future) : Prop := exists r, outcome fut = Ok r.

(** ** as_completed yields every future once *)

Lemma remove_at_perm (l : list Future) :
  forall (i : nat) (f0 : Future),
    (i < List.length l)%nat -> Permutation (nth i l f0 :: remove_at i l) l.
Proof.
  induction l as [| y t IH]; intros i f0 Hi; simpl in Hi; [lia |].
  destruct i as [| i]; simpl; [reflexivity |].
  etransitivity; [apply perm_swap |].
  apply perm_skip, IH. lia.
Qed.

Lemma as_completed_from_perm (pick : list Future -> nat) (fuel : nat) :
  forall pending : list Future,
    (List.length pending <= fuel)%nat ->
    Permutation (as_completed_from pick fuel pending) pending.
Proof.
  induction fuel as [| k IH]; intros pending Hlen.
  - destruct pending; [reflexivity | simpl in Hlen; lia].
  - destruct pending as [| f0 rest]; [reflexivity |].
    cbn [as_completed_from].
    set (l := f0 :: rest) in *.
    assert (Hi : (pick l mod List.length l < List.length l)%nat)
      by (apply Nat.mod_upper_bound; subst l; discriminate).
    pose proof (remove_at_perm l _ f0 Hi) as Hp.
    etransitivity; [| exact Hp].
    apply perm_skip, IH.
    apply Permutation_length in Hp. cbn [List.length] in Hp. lia.
Qed.

Lemma as_completed_perm (pick : list Future -> nat) (fs : list Future) :
  Permutation (as_completed pick fs) fs.
Proof. apply as_completed_from_perm. lia. Qed.

(** ** futures.remove(fut) *)

Lemma same_fid (a b : Future) : same a b = true <-> fid a = fid b.
Proof. unfold same. apply Nat.eqb_eq. Qed.

Lemma list_remove_perm (x : Future) (l : list Future) :
  In x l -> NoDup (map fid l) ->
  exists l', list_remove x l = Some l' /\ Permutation (x :: l') l.
Proof.
  induction l as [| y t IH]; intros Hin Hnd; [contradiction |].
  simpl in Hnd. inversion Hnd as [| ? ? Hy Ht]; subst.
  simpl. destruct (same y x) eqn:Hs.
  - apply same_fid in Hs.
    destruct Hin as [-> | Hin].
    + exists t. split; reflexivity.
    + exfalso. apply Hy. rewrite Hs. now apply in_map.
  - destruct Hin as [-> | Hin].
    + unfold same in Hs. now rewrite Nat.eqb_refl in Hs.
    + destruct (IH Hin Ht) as [t' [-> Hp]].
      exists (y :: t'). split; [reflexivity |].
      etransitivity; [apply perm_swap | now apply perm_skip].
Qed.

(** ** drain *)

(** [drained_by order st st']: from [st], the results of [order] were taken
    once each, in that order, and nothing else changed. *)
Definition drained_by (order : list Future) (st st' : state) : Prop :=
  submitted st' = submitted st /\
  pool st' = pool st /\
  consumed st' = (consumed st ++ order)%list /\
  done st' = done st + Z.of_nat (List.length order) /\
  out st' = (out st ++ records order)%list /\
  errors st' = errors st + Z.of_nat (failures order) /\
  Permutation (order ++ futures st') (futures st).

Lemma drained_by_nil (st : state) : drained_by [] st st.
Proof.
  unfold drained_by, records, failures. simpl.
  rewrite !app_nil_r, !Z.add_0_r. repeat split; reflexivity.
Qed.

Lemma drained_by_cons (fut : Future) (rest : list Future) (st st1 st2 : state) :
  drained_by [fut] st st1 -> drained_by rest st1 st2 ->
  drained_by (fut :: rest) st st2.
Proof.
  unfold drained_by, records, failures.
  intros (Hs & Hp & Hc & Hd & Ho & He & Hperm) (Hs' & Hp' & Hc' & Hd' & Ho' & He' & Hperm').
  repeat split.
  - congruence.
  - congruence.
  - rewrite Hc', Hc, <- app_assoc. reflexivity.
  - rewrite Hd', Hd. simpl List.length. lia.
  - rewrite Ho', Ho, <- app_assoc. simpl. now rewrite app_nil_r.
  - rewrite He', He. simpl filter.
    destruct (negb (succeeded fut)); simpl List.length; lia.
  - simpl. etransitivity; [apply perm_skip, Hperm' | exact Hperm].
Qed.

Lemma drain_one_spec (st : state) (fut : Future) :
  delivers fut -> In fut (futures st) -> NoDup (map fid (futures st)) ->
  exists st', drain_one st fut = Ok st' /\ drained_by [fut] st st'.
Proof.
  intros [[p d] Hr] Hin Hnd.
  destruct (list_remove_perm fut (futures st) Hin Hnd) as [l' [Hrm Hperm]].
  unfold drain_one. rewrite Hrm, Hr. cbv [bind].
  assert (Hd : digest_of fut = d) by (unfold digest_of; now rewrite Hr).
  destruct d as [d |]; [destruct (truthy (Some d)) eqn:Ht |];
    (eexists; split; [reflexivity |]);
    unfold drained_by, records, failures, record_of, succeeded;
    cbn [flat_map filter]; rewrite Hd, ?Ht;
    cbn; rewrite ?app_nil_r, ?Z.add_0_r;
    repeat split; try reflexivity; exact Hperm.
Qed.

Lemma drain_loop_spec (n : option Z) (order : list Future) :
  forall (count : Z) (st : state),
    Forall delivers order ->
    NoDup (map fid (futures st)) ->
    NoDup (map fid order) ->
    incl order (futures st) ->
    match n with
    | Some k => count + Z.of_nat (List.length order) <= k
    | None => True
    end ->
    exists st', drain_loop n count order st = Ok st' /\ drained_by order st st'.
Proof.
  induction order as [| fut rest IH]; intros count st Hok Hnd Hndo Hincl Hbound.
  - exists st. split; [reflexivity | apply drained_by_nil].
  - inversion Hok as [| ? ? Hfut Hrest]; subst.
    simpl in Hndo. inversion Hndo as [| ? ? Hnotin Hndr]; subst.
    destruct (drain_one_spec st fut Hfut (Hincl fut (or_introl eq_refl)) Hnd)
      as [st1 [Hone Hd1]].
    cbn [drain_loop]. rewrite Hone. cbv [bind].
    assert (Hperm1 : Permutation (fut :: futures st1) (futures st)).
    { destruct Hd1 as (_ & _ & _ & _ & _ & _ & Hp). exact Hp. }
    assert (Hnd1 : NoDup (map fid (futures st1))).
    { assert (H : NoDup (map fid (fut :: futures st1))).
      { eapply Permutation_NoDup; [| exact Hnd].
        apply Permutation_map. symmetry. exact Hperm1. }
      now inversion H. }
    assert (Hincl1 : incl rest (futures st1)).
    { intros g Hg.
      assert (Hg' : In g (fut :: futures st1)).
      { eapply Permutation_in; [symmetry; exact Hperm1 |].
        apply Hincl. now right. }
      destruct Hg' as [<- | Hg']; [| exact Hg'].
      exfalso. apply Hnotin. now apply in_map. }
    destruct (match n with Some n0 => n0 <=? count + 1 | None => false end) eqn:Hbreak.
    + destruct n as [k |]; [| discriminate].
      apply Z.leb_le in Hbreak.
      destruct rest as [| g rest'].
      * exists st1. split; [reflexivity |].
        eapply drained_by_cons; [exact Hd1 | apply drained_by_nil].
      * simpl List.length in Hbound. lia.
    + destruct (IH (count + 1) st1 Hrest Hnd1 Hndr Hincl1) as [st2 [Hloop Hd2]].
      { destruct n as [k |]; [| exact I]. simpl List.length in Hbound. lia. }
      exists st2. split; [exact Hloop |].
      eapply drained_by_cons; eassumption.
Qed.

Lemma slice_to_length (k : Z) (l : list Future) :
  0 <= k -> List.length (slice_to k l) = Nat.min (Z.to_nat k) (List.length l).
Proof.
  intros Hk. unfold slice_to.
  destruct (Z.leb_spec 0 k); [| lia]. apply length_firstn.
Qed.

Lemma slice_to_incl (k : Z) (l : list Future) : incl (slice_to k l) l.
Proof.
  unfold slice_to. intros x Hx.
  destruct (0 <=? k);
    match type of Hx with In _ (firstn ?j _) =>
      rewrite <- (firstn_skipn j l); apply in_or_app; now left
    end.
Qed.

Lemma firstn_map_NoDup (k : nat) (l : list Future) :
  NoDup (map fid l) -> NoDup (map fid (firstn k l)).
Proof.
  intros H. rewrite <- (firstn_skipn k l), map_app in H.
  rewrite <- firstn_map in H |- *.
  now apply NoDup_app_remove_r in H.
Qed.

Lemma slice_to_NoDup (k : Z) (l : list Future) :
  NoDup (map fid l) -> NoDup (map fid (slice_to k l)).
Proof. unfold slice_to. destruct (0 <=? k); apply firstn_map_NoDup. Qed.

(** The snapshot [drain] works on. *)
Definition snapshot_of (n : option Z) (st : state) : list Future :=
  match n with
  | None => futures st
  | Some k => slice_to k (futures st)
  end.

Lemma drain_spec (pick : list Future -> nat) (n : option Z) (st : state) :
  Forall delivers (futures st) ->
  NoDup (map fid (futures st)) ->
  match n with Some k => 0 <= k | None => True end ->
  exists st',
    drain pick n st = Ok st' /\
    drained_by (as_completed pick (snapshot_of n st)) st st'.
Proof.
  intros Hok Hnd Hn. unfold drain. fold (snapshot_of n st).
  pose proof (as_completed_perm pick (snapshot_of n st)) as Hperm.
  assert (Hincl : incl (snapshot_of n st) (futures st)).
  { destruct n; simpl; [apply slice_to_incl | apply incl_refl]. }
  apply drain_loop_spec.
  - apply Forall_forall. intros f Hf.
    eapply Forall_forall; [exact Hok |].
    apply Hincl. eapply Permutation_in; eassumption.
  - exact Hnd.
  - eapply Permutation_NoDup; [apply Permutation_map; symmetry; exact Hperm |].
    destruct n; simpl; [now apply slice_to_NoDup | exact Hnd].
  - intros f Hf. apply Hincl. eapply Permutation_in; eassumption.
  - destruct n as [k |]; [| exact I].
    rewrite (Permutation_length Hperm). simpl snapshot_of.
    rewrite slice_to_length by exact Hn. lia.
Qed.

(** ** A drain that returned *)

(** [drain] takes a result with [fut.result()] outside any [try]: when it
    returns, every future it met had delivered. *)
Lemma drain_one_ok (st st' : state) (fut : Future) :
  drain_one st fut = Ok st' -> delivers fut.
Proof.
  unfold drain_one. destruct (outcome fut) as [r |] eqn:Ho; [| discriminate].
  intros _. now exists r.
Qed.

Lemma drain_loop_ok (n : option Z) (order : list Future) :
  forall (count : Z) (st st' : state),
    drain_loop n count order st = Ok st' ->
    match n with
    | Some k => count + Z.of_nat (List.length order) <= k
    | None => True
    end ->
    Forall delivers order.
Proof.
  induction order as [| f rest IH]; intros count st st' H Hbound; [constructor |].
  cbn [drain_loop] in H.
  destruct (drain_one st f) as [st1 |] eqn:H1; cbv [bind] in H; [| discriminate].
  constructor; [eapply drain_one_ok; eassumption |].
  cbv zeta in H. destruct n as [k |].
  - destruct (Z.leb_spec k (count + 1)) as [Hle | Hgt].
    + cbn [List.length] in Hbound. destruct rest; [constructor |].
      cbn [List.length] in Hbound. lia.
    + eapply IH; [exact H |]. cbn [List.length] in Hbound. lia.
  - eapply IH; [exact H | exact I].
Qed.

Lemma drain_returned (pick : list Future -> nat) (n : option Z) (st st' : state) :
  drain pick n st = Ok st' ->
  NoDup (map fid (futures st)) ->
  match n with Some k => 0 <= k | None => True end ->
  drained_by (as_completed pick (snapshot_of n st)) st st' /\
  Forall delivers (as_completed pick (snapshot_of n st)).
Proof.
  intros H Hnd Hn. unfold drain in H. cbv zeta in H. fold (snapshot_of n st) in H.
  pose proof (as_completed_perm pick (snapshot_of n st)) as Hperm.
  assert (Hincl : incl (snapshot_of n st) (futures st)).
  { destruct n; simpl; [apply slice_to_incl | apply incl_refl]. }
  assert (Hbound : match n with
                   | Some k => 0 + Z.of_nat (List.length (as_completed pick (snapshot_of n st))) <= k
                   | None => True
                   end).
  { destruct n as [k |]; [| exact I].
    rewrite (Permutation_length Hperm). simpl snapshot_of.
    rewrite slice_to_length by exact Hn. lia. }
  pose proof (drain_loop_ok n _ 0 st st' H Hbound) as Hdel.
  split; [| exact Hdel].
  destruct (drain_loop_spec n (as_completed pick (snapshot_of n st)) 0 st) as [st2 [H2 Hby]].
  - exact Hdel.
  - exact Hnd.
  - eapply Permutation_NoDup; [apply Permutation_map; symmetry; exact Hperm |].
    destruct n; simpl; [now apply slice_to_NoDup | exact Hnd].
  - intros f Hf. apply Hincl. eapply Permutation_in; eassumption.
  - exact Hbound.
  - rewrite H in H2. inversion H2. now subst.
Qed.

End CoordinatorFacts.

(* ===================================================================== *)
(** * The submission loop and the whole run *)
(* ===================================================================== *)

(** Quotient and remainder of [s] and [s + 1] by the batch size, as linear
    facts for [lia]. *)
Ltac batch_arith s :=
  unfold SUBMIT_BATCH in *; change (5000 / 2) with 2500 in *;
  pose proof (Z.div_mod s 5000);
  pose proof (Z.div_mod (s + 1) 5000);
  pose proof (Z.mod_pos_bound s 5000);
  pose proof (Z.mod_pos_bound (s + 1) 5000);
  lia.

Section RunFacts.

Variable w : world.
Variable pick : list Future -> nat.
Variable skip_mounts : list string.

(** The future the pool hands out for the [i]-th submission, for [p]. *)
Definition future_of (i : nat) (p : string) : Future :=
  {| fid := i; _path := p; outcome := hash_one w (p, skip_mounts) |}.

Fixpoint futures_for (i : nat) (paths : list string) : list Future :=
  match paths with
  | [] => []
  | p :: t => future_of i p :: futures_for (S i) t
  end.

(** The paths [hash_all]'s two loops visit, in order. *)
Definition walk_files (root : string) : list string :=
  flat_map (fun triple : string * list string * list string =>
              let '(dirpath, _, filenames) := triple in
              map (join dirpath) filenames)
           (walk w root).

Lemma futures_for_app (paths more : list string) :
  forall i, futures_for i (paths ++ more) =
            (futures_for i paths ++ futures_for (i + List.length paths) more)%list.
Proof.
  induction paths as [| p t IH]; intros i; simpl.
  - now rewrite Nat.add_0_r.
  - rewrite IH. do 3 f_equal. lia.
Qed.

Lemma futures_for_fids (paths : list string) :
  forall i, map fid (futures_for i paths) = seq i (List.length paths).
Proof. induction paths as [| p t IH]; intros i; simpl; [| rewrite IH]; reflexivity. Qed.

Lemma futures_for_length (paths : list string) :
  forall i, List.length (futures_for i paths) = List.length paths.
Proof. induction paths as [| p t IH]; intros i; simpl; [| rewrite IH]; reflexivity. Qed.

Lemma futures_for_In (paths : list string) :
  forall i f, In f (futures_for i paths) ->
    In (_path f) paths /\ outcome f = hash_one w (_path f, skip_mounts).
Proof.
  induction paths as [| p t IH]; intros i f Hin; [contradiction |].
  destruct Hin as [<- | Hin]; simpl.
  - split; [now left | reflexivity].
  - destruct (IH _ _ Hin). split; [now right | assumption].
Qed.

(** The paths whose workers return (see [worker_safe]). *)
Definition safe_paths (paths : list string) : Prop :=
  Forall (fun p => worker_safe w p = true) paths.

Lemma futures_for_deliver (paths : list string) (i : nat) :
  safe_paths paths -> Forall delivers (futures_for i paths).
Proof.
  intros Hsafe. apply Forall_forall. intros f Hin.
  destruct (futures_for_In _ _ _ Hin) as [Hp Ho].
  assert (Hs : worker_safe w (_path f) = true)
    by (eapply Forall_forall in Hsafe; eauto).
  destruct (hash_one_total w (_path f) skip_mounts Hs) as [d Hd].
  exists (_path f, d). congruence.
Qed.

(** The accounting part of [hash_all]'s loop invariant, after the files
    [paths] have been submitted. *)
Record accounted (workers : Z) (paths : list string) (st : state) : Prop := {
  acc_submitted : submitted st = Z.of_nat (List.length paths);
  acc_pool : pool st = {| max_workers := workers; next_fid := List.length paths |};
  acc_perm : Permutation (consumed st ++ futures st) (futures_for 0 paths);
  acc_done : done st = Z.of_nat (List.length (consumed st));
  acc_out : out st = records (consumed st);
  acc_errors : errors st = Z.of_nat (failures (consumed st))
}.

(** The number of futures in flight once [s] files have been submitted and
    the periodic drains have run. *)
Definition inflight_after (s : Z) : Z := s - SUBMIT_BATCH / 2 * (s / SUBMIT_BATCH).

(** The loop invariant: the accounting, the in-flight count, and that the
    workers of the files submitted so far return. *)
Definition inv (workers : Z) (paths : list string) (st : state) : Prop :=
  accounted workers paths st /\
  Z.of_nat (List.length (futures st)) = inflight_after (submitted st) /\
  safe_paths paths.

Lemma inv_initial (workers : Z) : inv workers [] (initial_state (fresh_pool workers)).
Proof. split; [constructor; reflexivity | split; [reflexivity | constructor]]. Qed.

Lemma accounted_deliver workers paths st :
  safe_paths paths ->
  accounted workers paths st -> Forall delivers (futures st).
Proof.
  intros Hsafe H. apply Forall_forall. intros f Hf.
  pose proof (futures_for_deliver paths 0 Hsafe) as Hall.
  eapply Forall_forall; [exact Hall |].
  eapply Permutation_in; [apply (acc_perm _ _ _ H) |].
  apply in_or_app. now right.
Qed.

Lemma accounted_NoDup workers paths st :
  accounted workers paths st ->
  NoDup (map fid (consumed st)) /\ NoDup (map fid (futures st)).
Proof.
  intros H.
  assert (Hnd : NoDup (map fid (consumed st ++ futures st))).
  { eapply Permutation_NoDup.
    - apply Permutation_map. symmetry. apply (acc_perm _ _ _ H).
    - rewrite futures_for_fids. apply seq_NoDup. }
  rewrite map_app in Hnd. split.
  - now apply NoDup_app_remove_r in Hnd.
  - now apply NoDup_app_remove_l in Hnd.
Qed.

(** Appending the new future and counting it. *)
Lemma accounted_append workers paths st (p : string) :
  accounted workers paths st ->
  accounted workers (paths ++ [p])
    {| submitted := submitted st + 1; done := done st; errors := errors st;
       futures := (futures st ++ [future_of (List.length paths) p])%list;
       out := out st;
       pool := {| max_workers := workers; next_fid := S (List.length paths) |};
       consumed := consumed st |}.
Proof.
  intros H.
  assert (Hlen : List.length (paths ++ [p]) = S (List.length paths))
    by (rewrite length_app; simpl; lia).
  constructor; cbn [submitted pool consumed done out errors futures].
  - rewrite Hlen, (acc_submitted _ _ _ H). lia.
  - now rewrite Hlen.
  - rewrite futures_for_app, app_assoc. simpl futures_for.
    apply Permutation_app_tail, (acc_perm _ _ _ H).
  - apply (acc_done _ _ _ H).
  - apply (acc_out _ _ _ H).
  - apply (acc_errors _ _ _ H).
Qed.

(** A drain keeps the accounting and shortens the in-flight list by the
    number of futures it took. *)
Lemma accounted_drained workers paths order st st' :
  accounted workers paths st -> drained_by order st st' ->
  accounted workers paths st' /\
  (List.length (futures st') + List.length order = List.length (futures st))%nat.
Proof.
  intros H (Hs & Hp & Hc & Hd & Ho & He & Hperm). split; [constructor |].
  - rewrite Hs. apply (acc_submitted _ _ _ H).
  - rewrite Hp. apply (acc_pool _ _ _ H).
  - rewrite Hc, <- app_assoc.
    etransitivity; [apply Permutation_app_head, Hperm | apply (acc_perm _ _ _ H)].
  - rewrite Hd, Hc, length_app, (acc_done _ _ _ H). lia.
  - rewrite Ho, Hc. unfold records. rewrite flat_map_app.
    now rewrite (acc_out _ _ _ H).
  - rewrite He, Hc. unfold failures. rewrite filter_app, length_app.
    rewrite (acc_errors _ _ _ H). unfold failures. lia.
  - apply Permutation_length in Hperm. rewrite length_app in Hperm. lia.
Qed.

(** The two arithmetic facts behind the in-flight count. *)
Lemma inflight_after_step (s : Z) :
  (s + 1) mod SUBMIT_BATCH <> 0 ->
  inflight_after (s + 1) = inflight_after s + 1.
Proof. unfold inflight_after. intros Hm. batch_arith s. Qed.

Lemma inflight_after_batch (s : Z) :
  0 <= s ->
  (s + 1) mod SUBMIT_BATCH = 0 ->
  inflight_after (s + 1) = inflight_after s + 1 - SUBMIT_BATCH / 2 /\
  SUBMIT_BATCH / 2 <= inflight_after s + 1.
Proof. unfold inflight_after. intros Hs Hm. batch_arith s. Qed.

Lemma submit_file_inv workers paths st (dirpath name : string) :
  inv workers paths st ->
  worker_safe w (join dirpath name) = true ->
  exists st',
    submit_file w pick skip_mounts dirpath st name = Ok st' /\
    inv workers (paths ++ [join dirpath name]) st'.
Proof.
  intros (Hacc & Hfl & Hsafe0) Hname.
  assert (Hsafe : safe_paths (paths ++ [join dirpath name]))
    by (apply Forall_app; split; [exact Hsafe0 | now constructor]).
  unfold submit_file, submit, set_path. cbn [fid outcome].
  rewrite (acc_pool _ _ _ Hacc). cbn [max_workers next_fid].
  fold (future_of (List.length paths) (join dirpath name)).
  pose proof (accounted_append _ _ _ (join dirpath name) Hacc) as Hacc1.
  set (st1 := {| submitted := submitted st + 1; done := done st; errors := errors st;
                 futures := (futures st ++ [future_of (List.length paths)
                                                       (join dirpath name)])%list;
                 out := out st;
                 pool := {| max_workers := workers; next_fid := S (List.length paths) |};
                 consumed := consumed st |}) in *.
  assert (Hfl1 : Z.of_nat (List.length (futures st1)) = inflight_after (submitted st) + 1).
  { subst st1. cbn [futures]. rewrite length_app. simpl List.length. lia. }
  assert (Hs1 : submitted st1 = submitted st + 1) by reflexivity.
  assert (Hs0 : 0 <= submitted st) by (rewrite (acc_submitted _ _ _ Hacc); lia).
  destruct (submitted st1 mod SUBMIT_BATCH =? 0) eqn:Hmod.
  - (* the batch is full: drain(n = SUBMIT_BATCH // 2) *)
    apply Z.eqb_eq in Hmod. rewrite Hs1 in Hmod.
    destruct (inflight_after_batch _ Hs0 Hmod) as [Hstep Henough].
    destruct (drain_spec pick (Some (SUBMIT_BATCH / 2)) st1) as [st2 [Hdr Hby]].
    + eapply accounted_deliver; eassumption.
    + eapply accounted_NoDup; eassumption.
    + now vm_compute.
    + exists st2. split; [exact Hdr |].
      destruct (accounted_drained _ _ _ _ _ Hacc1 Hby) as [Hacc2 Hlen].
      split; [exact Hacc2 |]. split; [| exact Hsafe].
      rewrite (Permutation_length (as_completed_perm _ _)) in Hlen.
      change (snapshot_of (Some (SUBMIT_BATCH / 2)) st1)
        with (slice_to (SUBMIT_BATCH / 2) (futures st1)) in Hlen.
      rewrite slice_to_length in Hlen by now vm_compute.
      destruct Hby as (Hs & _). rewrite Hs, Hs1, Hstep.
      change (SUBMIT_BATCH / 2) with 2500 in *. lia.
  - apply Z.eqb_neq in Hmod. rewrite Hs1 in Hmod.
    exists st1. split; [reflexivity |]. split; [exact Hacc1 |].
    split; [| exact Hsafe].
    rewrite Hs1, inflight_after_step by exact Hmod. exact Hfl1.
Qed.

(** The inner loop, over the file names of one directory. *)
Lemma submit_names_inv workers (dirpath : string) (names : list string) :
  forall paths st,
    inv workers paths st ->
    safe_paths (map (join dirpath) names) ->
    exists st',
      for_each (submit_file w pick skip_mounts dirpath) names st = Ok st' /\
      inv workers (paths ++ map (join dirpath) names) st'.
Proof.
  induction names as [| name rest IH]; intros paths st Hinv Hnames.
  - exists st. simpl. now rewrite app_nil_r.
  - inversion Hnames as [| ? ? Hname Hrest]; subst.
    destruct (submit_file_inv _ _ _ dirpath name Hinv Hname) as [st1 [H1 Hinv1]].
    destruct (IH _ _ Hinv1 Hrest) as [st2 [H2 Hinv2]].
    exists st2. cbn [for_each]. rewrite H1. cbv [bind]. split; [exact H2 |].
    simpl map. now rewrite <- app_assoc in Hinv2.
Qed.

(** A directory of the walk that the loop gets through: its path encodes,
    and the workers of its files return. *)
Definition safe_triple (triple : string * list string * list string) : Prop :=
  let '(dirpath, _, filenames) := triple in
  encodable dirpath = true /\ safe_paths (map (join dirpath) filenames).

(** The outer loop, over the directories [os.walk] yields. *)
Lemma submit_triples_inv workers (triples : list (string * list string * list string)) :
  forall paths st,
    inv workers paths st ->
    Forall safe_triple triples ->
    exists st',
      for_each
        (fun st (triple : string * list string * list string) =>
           let '(dirpath, _, filenames) := triple in
           (_ <- teeprint ("[SCAN] dir: " ++ dirpath) ;;
            for_each (submit_file w pick skip_mounts dirpath) filenames st)%py)
        triples st = Ok st' /\
      inv workers
          (paths ++ flat_map (fun triple : string * list string * list string =>
                                let '(dirpath, _, filenames) := triple in
                                map (join dirpath) filenames) triples) st'.
Proof.
  induction triples as [| [[dirpath dirnames] filenames] rest IH];
    intros paths st Hinv Hall.
  - exists st. simpl. now rewrite app_nil_r.
  - inversion Hall as [| ? ? Htriple Hrest]; subst.
    destruct Htriple as [Hdir Hnames].
    destruct (submit_names_inv _ dirpath filenames _ _ Hinv Hnames) as [st1 [H1 Hinv1]].
    destruct (IH _ _ Hinv1 Hrest) as [st2 [H2 Hinv2]].
    exists st2. cbn [for_each].
    rewrite teeprint_encodable by (now rewrite encodable_app, Hdir).
    cbv [bind] in *. rewrite H1. split; [exact H2 |].
    cbn [flat_map]. now rewrite <- app_assoc in Hinv2.
Qed.

(** A walk that the submission loop gets through: the root is accepted
    by [scandir], and every directory of the walk is safe. *)
Definition safe_walk (root : string) : Prop :=
  has_nul root = false /\ Forall safe_triple (walk w root).

(** The submission loop over a safe walk does not raise, and leaves the
    invariant for the files of the walk. *)
Lemma submit_all_inv workers (root : string) :
  safe_walk root ->
  exists st,
    submit_all w pick skip_mounts root (initial_state (fresh_pool workers)) = Ok st /\
    inv workers (walk_files root) st.
Proof.
  intros [Hnul Hall].
  destruct (submit_triples_inv workers (walk w root) [] _ (inv_initial workers) Hall)
    as [st [H Hinv]].
  exists st. unfold submit_all, fs_path. rewrite Hnul.
  split; [exact H | exact Hinv].
Qed.

(** ** A submission loop that returned *)

(** What holds of the state whenever the loop has not raised, whatever the
    names are: the accounting, the in-flight count, and that every result
    taken so far was delivered. *)
Definition tracked (workers : Z) (paths : list string) (st : state) : Prop :=
  accounted workers paths st /\
  Z.of_nat (List.length (futures st)) = inflight_after (submitted st) /\
  Forall delivers (consumed st).

Lemma tracked_initial (workers : Z) :
  tracked workers [] (initial_state (fresh_pool workers)).
Proof. split; [constructor; reflexivity | split; [reflexivity | constructor]]. Qed.

Lemma submit_file_returned workers paths st st' (dirpath name : string) :
  tracked workers paths st ->
  submit_file w pick skip_mounts dirpath st name = Ok st' ->
  tracked workers (paths ++ [join dirpath name]) st'.
Proof.
  intros (Hacc & Hfl & Hcons) H.
  unfold submit_file, submit, set_path in H. cbn [fid outcome] in H.
  rewrite (acc_pool _ _ _ Hacc) in H. cbn [max_workers next_fid] in H.
  fold (future_of (List.length paths) (join dirpath name)) in H.
  pose proof (accounted_append _ _ _ (join dirpath name) Hacc) as Hacc1.
  set (st1 := {| submitted := submitted st + 1; done := done st; errors := errors st;
                 futures := (futures st ++ [future_of (List.length paths)
                                                       (join dirpath name)])%list;
                 out := out st;
                 pool := {| max_workers := workers; next_fid := S (List.length paths) |};
                 consumed := consumed st |}) in *.
  assert (Hfl1 : Z.of_nat (List.length (futures st1)) = inflight_after (submitted st) + 1).
  { subst st1. cbn [futures]. rewrite length_app. simpl List.length. lia. }
  assert (Hs1 : submitted st1 = submitted st + 1) by reflexivity.
  assert (Hs0 : 0 <= submitted st) by (rewrite (acc_submitted _ _ _ Hacc); lia).
  destruct (submitted st1 mod SUBMIT_BATCH =? 0) eqn:Hmod.
  - apply Z.eqb_eq in Hmod. rewrite Hs1 in Hmod.
    destruct (inflight_after_batch _ Hs0 Hmod) as [Hstep Henough].
    destruct (drain_returned pick (Some (SUBMIT_BATCH / 2)) st1 st' H) as [Hby Hdel].
    + eapply accounted_NoDup; eassumption.
    + now vm_compute.
    + destruct (accounted_drained _ _ _ _ _ Hacc1 Hby) as [Hacc2 Hlen].
      split; [exact Hacc2 |]. split.
      * rewrite (Permutation_length (as_completed_perm _ _)) in Hlen.
        change (snapshot_of (Some (SUBMIT_BATCH / 2)) st1)
          with (slice_to (SUBMIT_BATCH / 2) (futures st1)) in Hlen.
        rewrite slice_to_length in Hlen by now vm_compute.
        destruct Hby as (Hs & _). rewrite Hs, Hs1, Hstep.
        change (SUBMIT_BATCH / 2) with 2500 in *. lia.
      * destruct Hby as (_ & _ & Hc & _). rewrite Hc.
        apply Forall_app. split; [exact Hcons | exact Hdel].
  - apply Z.eqb_neq in Hmod. rewrite Hs1 in Hmod.
    inversion H; subst st'. split; [exact Hacc1 |]. split; [| exact Hcons].
    rewrite Hs1, inflight_after_step by exact Hmod. exact Hfl1.
Qed.

Lemma submit_names_returned workers (dirpath : string) (names : list string) :
  forall paths st st',
    tracked workers paths st ->
    for_each (submit_file w pick skip_mounts dirpath) names st = Ok st' ->
    tracked workers (paths ++ map (join dirpath) names) st'.
Proof.
  induction names as [| name rest IH]; intros paths st st' Ht H.
  - simpl in H. inversion H; subst. now rewrite app_nil_r.
  - cbn [for_each] in H.
    destruct (submit_file w pick skip_mounts dirpath st name) as [st1 |] eqn:H1;
      cbv [bind] in H; [| discriminate].
    pose proof (submit_file_returned _ _ _ _ _ _ Ht H1) as Ht1.
    pose proof (IH _ _ _ Ht1 H) as Ht2.
    simpl map. now rewrite <- app_assoc in Ht2.
Qed.

Lemma submit_triples_returned workers
    (triples : list (string * list string * list string)) :
  forall paths st st',
    tracked workers paths st ->
    for_each
      (fun st (triple : string * list string * list string) =>
         let '(dirpath, _, filenames) := triple in
         (_ <- teeprint ("[SCAN] dir: " ++ dirpath) ;;
          for_each (submit_file w pick skip_mounts dirpath) filenames st)%py)
      triples st = Ok st' ->
    tracked workers
            (paths ++ flat_map (fun triple : string * list string * list string =>
                                  let '(dirpath, _, filenames) := triple in
                                  map (join dirpath) filenames) triples) st'.
Proof.
  induction triples as [| [[dirpath dirnames] filenames] rest IH];
    intros paths st st' Ht H.
  - simpl in H. inversion H; subst. now rewrite app_nil_r.
  - cbn [for_each] in H.
    destruct (teeprint _) as [[] |]; cbv [bind] in H; [| discriminate].
    destruct (for_each (submit_file w pick skip_mounts dirpath) filenames st)
      as [st1 |] eqn:H1; [| discriminate].
    pose proof (submit_names_returned _ _ _ _ _ _ Ht H1) as Ht1.
    pose proof (IH _ _ _ Ht1 H) as Ht2.
    cbn [flat_map]. now rewrite <- app_assoc in Ht2.
Qed.

(** Whenever the submission loop returns, the state is tracked for the
    files of the walk. *)
Lemma submit_all_returned workers (root : string) (st : state) :
  submit_all w pick skip_mounts root (initial_state (fresh_pool workers)) = Ok st ->
  tracked workers (walk_files root) st.
Proof.
  unfold submit_all. destruct (fs_path root) as [[] |]; cbv [bind]; [| discriminate].
  intros H.
  exact (submit_triples_returned workers (walk w root) [] _ _ (tracked_initial workers) H).
Qed.

(** Whenever the final [drain()] returns, it has taken every future that
    was left. *)
Lemma final_drain_returned workers paths st st' :
  tracked workers paths st ->
  drain pick None st = Ok st' ->
  accounted workers paths st' /\ futures st' = [] /\ Forall delivers (consumed st').
Proof.
  intros (Hacc & _ & Hcons) H.
  destruct (drain_returned pick None st st' H) as [Hby Hdel].
  - eapply accounted_NoDup; eassumption.
  - exact I.
  - destruct (accounted_drained _ _ _ _ _ Hacc Hby) as [Hacc' Hlen].
    split; [exact Hacc' |]. split.
    + rewrite (Permutation_length (as_completed_perm _ _)) in Hlen.
      simpl snapshot_of in Hlen.
      destruct (futures st'); [reflexivity | simpl in Hlen; lia].
    + destruct Hby as (_ & _ & Hc & _). rewrite Hc.
      apply Forall_app. split; [exact Hcons | exact Hdel].
Qed.

(** The final [drain()] takes every future that is left. *)
Lemma final_drain workers paths st :
  inv workers paths st ->
  exists st',
    drain pick None st = Ok st' /\
    accounted workers paths st' /\ futures st' = [].
Proof.
  intros (Hacc & _ & Hsafe).
  destruct (drain_spec pick None st) as [st' [Hdr Hby]].
  - eapply accounted_deliver; eassumption.
  - eapply accounted_NoDup; eassumption.
  - exact I.
  - exists st'. split; [exact Hdr |].
    destruct (accounted_drained _ _ _ _ _ Hacc Hby) as [Hacc' Hlen].
    split; [exact Hacc' |].
    rewrite (Permutation_length (as_completed_perm _ _)) in Hlen.
    simpl snapshot_of in Hlen.
    destruct (futures st'); [reflexivity | simpl in Hlen; lia].
Qed.

End RunFacts.

Section WholeRun.

(** The pool size [hash_all] settles on. *)
Definition pool_size (w : world) (workers : option Z) : Z :=
  match workers with
  | Some n => n
  | None =>
      Z.max 4 (match cpu_count w with
               | Some c => if c =? 0 then 4 else c
               | None => 4
               end)
  end.

(** The futures a run creates: one per file of the walk, in walk order. *)
Definition tasks (w : world) (root : string) : list Future :=
  futures_for w (load_mounts_to_skip w) 0 (walk_files w root).

(** Without a valid pool size or an output file to append to, the run
    stops before the walk. *)
Lemma hash_all_cannot_start (w : world) (pick : list Future -> nat)
    (root out_file : string) (workers : option Z) :
  pool_size w workers <= 0 \/ append_error w out_file <> None ->
  exists e, hash_all w pick root out_file workers = Raise e.
Proof.
  intros H. unfold hash_all. fold (pool_size w workers). cbv zeta.
  destruct (teeprint _) as [[] |]; cbv [bind]; [| eauto].
  match goal with
  | |- context [match ?c with Ok _ => _ | Raise _ => _ end] =>
      destruct c as [[] |]; [| eauto]
  end.
  unfold ProcessPoolExecutor, open_append.
  destruct (Z.leb_spec (pool_size w workers) 0) as [Hle | Hgt]; [simpl; eauto |].
  destruct H as [H | H]; [lia |].
  destruct (append_error w out_file) as [e |]; [simpl; eauto | congruence].
Qed.

(** Whenever [hash_all] returns, whatever the names are: nothing is in
    flight, the accounting holds for every file of the walk, and every
    result taken was delivered. *)
Lemma hash_all_returned (w : world) (pick : list Future -> nat)
    (root out_file : string) (workers : option Z) (r : run) :
  hash_all w pick root out_file workers = Ok r ->
  accounted w (load_mounts_to_skip w) (pool_size w workers) (walk_files w root) (final r) /\
  futures (final r) = [] /\
  Forall delivers (consumed (final r)) /\
  summary r = "[DONE] submitted=" ++ str_of_int (submitted (final r))
              ++ " ok=" ++ str_of_int (done (final r) - errors (final r))
              ++ " errors=" ++ str_of_int (errors (final r)) /\
  return_value r = 0.
Proof.
  unfold hash_all. fold (pool_size w workers). cbv zeta.
  destruct (teeprint _) as [[] |]; cbv [bind]; [| discriminate].
  match goal with
  | |- context [match ?c with Ok _ => _ | Raise _ => _ end] =>
      destruct c as [[] |]; [| discriminate]
  end.
  unfold ProcessPoolExecutor.
  destruct (pool_size w workers <=? 0); [discriminate |].
  destruct (open_append w out_file) as [[] |]; [| discriminate].
  fold (fresh_pool (pool_size w workers)).
  destruct (submit_all w pick (load_mounts_to_skip w) root _) as [st1 |] eqn:H1;
    [| discriminate].
  destruct (drain pick None st1) as [st2 |] eqn:H2; [| discriminate].
  intros H. inversion H; subst r. cbn [final summary return_value].
  pose proof (submit_all_returned w pick _ _ _ _ H1) as Ht.
  destruct (final_drain_returned w pick _ _ _ _ _ Ht H2) as (Hacc & Hnil & Hdel).
  split; [exact Hacc |]. split; [exact Hnil |]. split; [exact Hdel |].
  split; reflexivity.
Qed.

(** The names a run meets are well formed for it: the root and the
    skipped mountpoints encode, the root holds no NUL, every directory of
    the walk encodes, and every file of the walk is safe for its worker
    ([worker_safe]). *)
Definition well_named (w : world) (root : string) : bool :=
  encodable root && forallb encodable (load_mounts_to_skip w)
  && negb (has_nul root)
  && forallb (fun triple : string * list string * list string =>
                let '(dirpath, _, filenames) := triple in
                encodable dirpath
                && forallb (fun name => worker_safe w (join dirpath name)) filenames)
             (walk w root).

Lemma well_named_inv (w : world) (root : string) :
  well_named w root = true ->
  encodable root = true /\
  Forall (fun m => encodable m = true) (load_mounts_to_skip w) /\
  safe_walk w root.
Proof.
  unfold well_named. intros H.
  apply andb_prop in H. destruct H as [H Hwalk].
  apply andb_prop in H. destruct H as [H Hnul].
  apply andb_prop in H. destruct H as [Hroot Hmounts].
  split; [exact Hroot |].
  split; [apply Forall_forall; now rewrite forallb_forall in Hmounts |].
  split; [now apply negb_true_iff |].
  apply Forall_forall. intros [[dirpath dirnames] filenames] Hin.
  rewrite forallb_forall in Hwalk. specialize (Hwalk _ Hin). cbn beta iota in Hwalk.
  apply andb_prop in Hwalk. destruct Hwalk as [Hdir Hfiles].
  split; [exact Hdir |].
  apply Forall_forall. intros p Hp. apply in_map_iff in Hp.
  destruct Hp as [name [<- Hname]].
  rewrite forallb_forall in Hfiles. now apply Hfiles.
Qed.

Lemma well_named_files (w : world) (root : string) :
  well_named w root = true -> safe_paths w (walk_files w root).
Proof.
  intros H. apply well_named_inv in H. destruct H as (_ & _ & _ & Hall).
  unfold walk_files. induction (walk w root) as [| [[d ds] fs] t IH];
    [constructor |].
  inversion Hall as [| ? ? Htriple Ht]; subst.
  destruct Htriple as [_ Hfs].
  cbn [flat_map]. apply Forall_app. split; [exact Hfs | now apply IH].
Qed.

(** The two lines [hash_all] writes to the log before it creates the
    pool. *)
Lemma start_lines (w : world) (root : string) (workers : Z) :
  encodable root = true ->
  Forall (fun m => encodable m = true) (load_mounts_to_skip w) ->
  teeprint ("[START] root=" ++ root ++ " workers=" ++ str_of_int workers) = Ok tt /\
  match load_mounts_to_skip w with
  | [] => Ok tt
  | _ => teeprint (skip_message (load_mounts_to_skip w))
  end = Ok tt.
Proof.
  intros Hroot Hmounts. split.
  - apply teeprint_encodable.
    now rewrite !encodable_app, Hroot, str_of_int_encodable.
  - destruct (load_mounts_to_skip w) as [| m ms] eqn:Hm; [reflexivity |].
    apply teeprint_encodable. unfold skip_message.
    apply concat_encodable; [reflexivity |].
    constructor; [reflexivity |].
    apply Forall_forall. intros x Hx. apply in_map_iff in Hx.
    destruct Hx as [m' [<- Hin]]. rewrite encodable_app.
    eapply Forall_forall in Hmounts; [| exact Hin]. now rewrite Hmounts.
Qed.

(** Over well-formed names, once the pool is created and the output file
    is open, [hash_all] does not raise; when it returns, nothing is in
    flight and the accounting holds for every file of the walk. *)
Lemma hash_all_accounted (w : world) (pick : list Future -> nat)
    (root out_file : string) (workers : option Z) :
  0 < pool_size w workers ->
  append_error w out_file = None ->
  well_named w root = true ->
  exists r,
    hash_all w pick root out_file workers = Ok r /\
    accounted w (load_mounts_to_skip w) (pool_size w workers) (walk_files w root) (final r) /\
    futures (final r) = [] /\
    summary r = "[DONE] submitted=" ++ str_of_int (submitted (final r))
                ++ " ok=" ++ str_of_int (done (final r) - errors (final r))
                ++ " errors=" ++ str_of_int (errors (final r)) /\
    return_value r = 0.
Proof.
  intros Hpool Hout Hnames.
  destruct (well_named_inv w root Hnames) as (Hroot & Hmounts & Hwalk).
  destruct (start_lines w root (pool_size w workers) Hroot Hmounts) as [Hstart Hskip].
  unfold hash_all. fold (pool_size w workers).
  destruct (submit_all_inv w pick (load_mounts_to_skip w) (pool_size w workers) root Hwalk)
    as [st1 [H1 Hinv1]].
  destruct (final_drain w pick _ _ _ _ Hinv1) as [st2 [H2 [Hacc Hnil]]].
  cbv zeta. rewrite Hstart, Hskip. unfold ProcessPoolExecutor, open_append.
  destruct (Z.leb_spec (pool_size w workers) 0) as [Hle | _]; [lia |].
  rewrite Hout. cbv [bind]. rewrite H1, H2.
  eexists. split; [reflexivity |]. cbn [final summary return_value].
  split; [exact Hacc |]. split; [exact Hnil |]. split; reflexivity.
Qed.

Lemma hash_all_returns (w : world) (pick : list Future -> nat)
    (root out_file : string) (workers : option Z) :
  0 < pool_size w workers ->
  append_error w out_file = None ->
  well_named w root = true ->
  exists r, hash_all w pick root out_file workers = Ok r.
Proof.
  intros Hpool Hout Hnames.
  destruct (hash_all_accounted w pick root out_file workers Hpool Hout Hnames)
    as [r [Hrun _]].
  now exists r.
Qed.

Lemma records_length (l : list Future) :
  List.length (records l) = List.length (filter succeeded l).
Proof.
  induction l as [| f t IH]; simpl; [reflexivity |].
  rewrite length_app, IH. unfold record_of.
  destruct (succeeded f) eqn:Hs; simpl.
  - unfold succeeded in Hs. destruct (digest_of f); [reflexivity | discriminate].
  - destruct (digest_of f); reflexivity.
Qed.

Lemma failures_successes (l : list Future) :
  (failures l + List.length (filter succeeded l) = List.length l)%nat.
Proof.
  unfold failures. induction l as [| f t IH]; simpl; [reflexivity |].
  destruct (succeeded f); simpl; lia.
Qed.

Lemma filter_length_perm {A : Type} (p : A -> bool) (l l' : list A) :
  Permutation l l' -> List.length (filter p l) = List.length (filter p l').
Proof.
  induction 1 as [| x l l' _ IH | x y l | l l' l'' _ IH1 _ IH2]; simpl.
  - reflexivity.
  - destruct (p x); simpl; now rewrite IH.
  - destruct (p x), (p y); reflexivity.
  - now rewrite IH1.
Qed.

Lemma records_perm (l l' : list Future) :
  Permutation l l' -> Permutation (records l) (records l').
Proof. intros H. unfold records. now apply Permutation_flat_map. Qed.

End WholeRun.

(* ===================================================================== *)
(** * The scheduler and the result sink: exactly-once draining, the
      counters, the output records *)
(* ===================================================================== *)

(** X18. For every run of [hash_all] that returns: nothing is left in
    flight; the futures whose result was taken are exactly the submitted
    ones, each once (a permutation of them, with distinct identities);
    [done = submitted]; [done = errors + (number of records written)]; the
    records written are as many as the futures with a successful digest,
    and that number is the [ok] count of the summary line.  And the run
    does return when it gets its pool and its output file and the names
    are well formed ([well_named]). *)
Theorem every_task_drained_exactly_once
    (w : world) (pick : list Future -> nat) (root out_file : string)
    (workers : option Z) :
  (forall r,
    hash_all w pick root out_file workers = Ok r ->
    futures (final r) = [] /\
    Permutation (consumed (final r)) (tasks w root) /\
    NoDup (map fid (consumed (final r))) /\
    submitted (final r) = Z.of_nat (List.length (tasks w root)) /\
    done (final r) = submitted (final r) /\
    done (final r) = errors (final r) + Z.of_nat (List.length (out (final r))) /\
    List.length (out (final r)) = List.length (filter succeeded (tasks w root)) /\
    summary r = "[DONE] submitted=" ++ str_of_int (submitted (final r))
                ++ " ok=" ++ str_of_int (Z.of_nat (List.length (out (final r))))
                ++ " errors=" ++ str_of_int (errors (final r))) /\
  (0 < pool_size w workers ->
   append_error w out_file = None ->
   well_named w root = true ->
   exists r, hash_all w pick root out_file workers = Ok r).
Proof.
  split; [| apply hash_all_returns].
  intros r Hrun.
  destruct (hash_all_returned w pick root out_file workers r Hrun)
    as (Hacc & Hnil & _ & Hsum & _).
  pose proof (acc_perm _ _ _ _ _ Hacc) as Hperm.
  rewrite Hnil, app_nil_r in Hperm. fold (tasks w root) in Hperm.
  pose proof (Permutation_length Hperm) as Hlen.
  assert (Hdone : done (final r) = submitted (final r)).
  { rewrite (acc_done _ _ _ _ _ Hacc), (acc_submitted _ _ _ _ _ Hacc), Hlen.
    unfold tasks. now rewrite futures_for_length. }
  assert (Hok : done (final r) = errors (final r) + Z.of_nat (List.length (out (final r)))).
  { rewrite (acc_done _ _ _ _ _ Hacc), (acc_errors _ _ _ _ _ Hacc), (acc_out _ _ _ _ _ Hacc).
    rewrite records_length.
    pose proof (failures_successes (consumed (final r))). lia. }
  repeat split.
  - exact Hnil.
  - exact Hperm.
  - apply (accounted_NoDup _ _ _ _ _ Hacc).
  - rewrite (acc_submitted _ _ _ _ _ Hacc). unfold tasks. now rewrite futures_for_length.
  - exact Hdone.
  - exact Hok.
  - rewrite (acc_out _ _ _ _ _ Hacc), records_length.
    now apply filter_length_perm.
  - rewrite Hsum.
    replace (done (final r) - errors (final r))
      with (Z.of_nat (List.length (out (final r)))) by lia.
    reflexivity.
Qed.

(** The theorem at the end-to-end scenario, the workers completing in
    submission order. *)
Lemma every_task_drained_exactly_once_witness :
  exists r,
    hash_all scenario_world oldest_first scenario_root HASH_FILE None = Ok r /\
    futures (final r) = [] /\
    NoDup (map fid (consumed (final r))) /\
    done (final r) = submitted (final r) /\
    done (final r) = errors (final r) + Z.of_nat (List.length (out (final r))).
Proof.
  assert (Hpool : 0 < pool_size scenario_world None) by reflexivity.
  assert (Hout : append_error scenario_world HASH_FILE = None) by reflexivity.
  assert (Hnames : well_named scenario_world scenario_root = true) by (vm_compute; reflexivity).
  destruct (every_task_drained_exactly_once scenario_world oldest_first scenario_root
              HASH_FILE None) as [Hall Hreturns].
  destruct (Hreturns Hpool Hout Hnames) as [r Hrun].
  destruct (Hall r Hrun) as (Hnil & _ & Hnd & _ & Hdone & Hok & _).
  exists r. repeat split; assumption.
Defined.

Lemma drain_one_raises (st : state) (fut : Future) (e : exn) :
  outcome fut = Raise e -> drain_one st fut = Raise e.
Proof. intros H. unfold drain_one. now rewrite H. Qed.

Lemma drain_one_delivers (st : state) (fut : Future) :
  delivers fut -> exists st', drain_one st fut = Ok st'.
Proof.
  intros [[p d] H]. unfold drain_one. rewrite H. cbv [bind]. eauto.
Qed.

(** A full drain that meets a future whose worker raised raises what the
    worker raised: the results of the futures after it are never taken. *)
Lemma drain_loop_raises (e : exn) (order : list Future) :
  forall count st,
    Forall (fun f => delivers f \/ outcome f = Raise e) order ->
    Exists (fun f => outcome f = Raise e) order ->
    drain_loop None count order st = Raise e.
Proof.
  induction order as [| f rest IH]; intros count st Hall Hex; [inversion Hex |].
  inversion Hall as [| ? ? Hf Hrest]; subst. cbn [drain_loop].
  destruct Hf as [Hd | Hr]; [| now rewrite (drain_one_raises st f e Hr)].
  destruct (drain_one_delivers st f Hd) as [st' Hst']. rewrite Hst'. cbv [bind].
  apply IH; [exact Hrest |].
  inversion Hex as [? ? Hhead | ? ? Htail]; subst; [| exact Htail].
  destruct Hd as [r Hr]. congruence.
Qed.

(** C2 fails on the code.  A file whose name is not valid UTF-8 makes its
    worker raise (the first statement of [hash_one] writes the path to the
    debug log), and [drain] takes every result with [fut.result()] outside
    any [try]: the run of [hash_all] over a directory that holds a.txt and
    such a file submits both and then raises the worker's
    UnicodeEncodeError, in whatever order the two workers complete.  No
    summary is printed, [done] never reaches [submitted], and the task of
    the file is lost. *)
Theorem undecodable_name_aborts_the_run (pick : list Future -> nat) :
  walk_files music_world music_root = ["/srv/music/a.txt"; cafe_path] /\
  hash_all music_world pick music_root HASH_FILE None
  = Raise (UnicodeEncodeError ("[WORKER 4242] START " ++ cafe_path)).
Proof.
  split; [reflexivity |].
  set (e := UnicodeEncodeError ("[WORKER 4242] START " ++ cafe_path)).
  set (skip := load_mounts_to_skip music_world).
  set (fs := futures_for music_world skip 0 ["/srv/music/a.txt"; cafe_path]).
  assert (Hsub : submit_all music_world pick skip music_root (initial_state (fresh_pool 8))
                 = Ok {| submitted := 2; done := 0; errors := 0; futures := fs;
                         out := []; pool := {| max_workers := 8; next_fid := 2 |};
                         consumed := [] |}) by reflexivity.
  assert (Hdrain : forall st, futures st = fs -> drain pick None st = Raise e).
  { intros st Hfs. unfold drain. rewrite Hfs.
    apply drain_loop_raises.
    - eapply Permutation_Forall; [symmetry; apply as_completed_perm |].
      constructor; [| constructor; [| constructor]].
      + left. eexists.
        apply (hash_one_regular music_world "/srv/music/a.txt" skip (bytes_of "hello"));
          reflexivity.
      + right. apply (hash_one_surrogate music_world cafe_path skip). reflexivity.
    - eapply Permutation_Exists; [symmetry; apply as_completed_perm |].
      right. left. apply (hash_one_surrogate music_world cafe_path skip). reflexivity. }
  unfold hash_all. cbv zeta. fold skip.
  change (teeprint _) with (Ok tt) at 1.
  change (match skip with [] => Ok tt | _ => teeprint (skip_message skip) end) with (Ok tt).
  change (ProcessPoolExecutor _) with (Ok (fresh_pool 8)).
  change (open_append music_world HASH_FILE) with (Ok tt).
  cbv [bind]. rewrite Hsub. now rewrite Hdrain.
Qed.


(** C8. Every line [hash_all] appends to the output file, in every run
    that returns, is
    [<hex-digest> <TRUE|FALSE> <reason>] and a newline, built by
    [format_record] from a 128-character hexadecimal BLAKE2b digest; with
    the present [check_hash], which answers [(False, "DUMMY_REASON")] for
    every digest, each line is exactly [<hex-digest> FALSE DUMMY_REASON]
    and a newline.  The run returns when it gets its pool and its output
    file and the names are well formed. *)
Theorem every_record_is_digest_FALSE_DUMMY_REASON
    (w : world) (pick : list Future -> nat) (root out_file : string)
    (workers : option Z) :
  (forall digest, check_hash digest = (false, "DUMMY_REASON")) /\
  (forall r,
    hash_all w pick root out_file workers = Ok r ->
    Forall (fun line =>
              exists digest content,
                digest = Blake2b.hexdigest 64 content /\
                is_hex_digest digest = true /\
                line = format_record digest (fst (check_hash digest))
                                     (snd (check_hash digest)) /\
                line = digest ++ " FALSE DUMMY_REASON"
                       ++ String (ascii_of_nat 10) EmptyString)
           (out (final r))) /\
  (0 < pool_size w workers ->
   append_error w out_file = None ->
   well_named w root = true ->
   exists r, hash_all w pick root out_file workers = Ok r).
Proof.
  split; [reflexivity |]. split; [| apply hash_all_returns].
  intros r Hrun.
  destruct (hash_all_returned w pick root out_file workers r Hrun)
    as (Hacc & Hnil & _).
  rewrite (acc_out _ _ _ _ _ Hacc).
  apply Forall_forall. intros line Hline.
  unfold records in Hline. apply in_flat_map in Hline.
  destruct Hline as [fut [Hfut Hrec]].
  assert (Htask : In fut (tasks w root)).
  { eapply Permutation_in; [apply (acc_perm _ _ _ _ _ Hacc) |].
    apply in_or_app. now left. }
  destruct (futures_for_In _ _ _ _ _ Htask) as [_ Hres].
  unfold record_of in Hrec.
  destruct (digest_of fut) as [d |] eqn:Hd; [| contradiction].
  destruct (succeeded fut); [| contradiction].
  destruct Hrec as [<- | []].
  unfold digest_of in Hd.
  destruct (outcome fut) as [[p d'] | e] eqn:Ho; [| discriminate]. subst d'.
  symmetry in Hres. apply hash_one_digest in Hres. destruct Hres as [content ->].
  exists (Blake2b.hexdigest 64 content), content.
  repeat split. apply hexdigest_is_hex.
Qed.

(** The theorem at the end-to-end scenario, the workers completing in
    submission order. *)
Lemma every_record_is_digest_FALSE_DUMMY_REASON_witness :
  exists r,
    hash_all scenario_world oldest_first scenario_root HASH_FILE None = Ok r /\
    Forall (fun line =>
              exists digest,
                is_hex_digest digest = true /\
                line = digest ++ " FALSE DUMMY_REASON"
                       ++ String (ascii_of_nat 10) EmptyString)
           (out (final r)).
Proof.
  assert (Hpool : 0 < pool_size scenario_world None) by reflexivity.
  assert (Hout : append_error scenario_world HASH_FILE = None) by reflexivity.
  assert (Hnames : well_named scenario_world scenario_root = true) by (vm_compute; reflexivity).
  destruct (every_record_is_digest_FALSE_DUMMY_REASON scenario_world oldest_first
              scenario_root HASH_FILE None)
    as (_ & Hlines & Hreturns).
  destruct (Hreturns Hpool Hout Hnames) as [r Hrun].
  pose proof (Hlines r Hrun) as Hall.
  exists r. split; [exact Hrun |].
  eapply Forall_impl; [| exact Hall].
  intros line (digest & content & _ & Hhex & _ & Hline).
  exists digest. split; assumption.
Defined.

(* ===================================================================== *)
(** * The batch drain and the number of tasks in flight *)
(* ===================================================================== *)

Section InFlight.

(** The (directory, file name) pairs [hash_all]'s nested loops visit. *)
Definition walk_entries (w : world) (root : string) : list (string * string) :=
  flat_map (fun triple : string * list string * list string =>
              let '(dirpath, _, filenames) := triple in
              map (pair dirpath) filenames)
           (walk w root).

(** The loop body of [hash_all] run over a list of such pairs. *)
Definition submit_entries (w : world) (pick : list Future -> nat)
    (skip_mounts : list string) (entries : list (string * string)) (st : state)
    : result state :=
  for_each (fun st (e : string * string) =>
              submit_file w pick skip_mounts (fst e) st (snd e))
           entries st.

Lemma for_each_app {A S : Type} (body : S -> A -> result S) (l l' : list A) :
  forall st, for_each body (l ++ l') st = bind (for_each body l st) (for_each body l').
Proof.
  induction l as [| x t IH]; intros st; simpl; [reflexivity |].
  destruct (body st x); simpl; [apply IH | reflexivity].
Qed.

Lemma for_each_map {A B S : Type} (body : S -> B -> result S) (f : A -> B) (l : list A) :
  forall st, for_each body (map f l) st = for_each (fun st x => body st (f x)) l st.
Proof.
  induction l as [| x t IH]; intros st; simpl; [reflexivity |].
  destruct (body st (f x)); simpl; [apply IH | reflexivity].
Qed.

(** The directories of the walk can all be reported to the debug log, and
    the root is accepted by [scandir]. *)
Definition walk_reported (w : world) (root : string) : Prop :=
  has_nul root = false /\
  Forall (fun triple : string * list string * list string =>
            encodable (fst (fst triple)) = true) (walk w root).

(** [hash_all]'s nested loops are one loop over the pairs of the walk,
    when the walk can be reported. *)
Lemma submit_all_entries (w : world) (pick : list Future -> nat)
    (skip_mounts : list string) (root : string) (st : state) :
  walk_reported w root ->
  submit_all w pick skip_mounts root st =
  submit_entries w pick skip_mounts (walk_entries w root) st.
Proof.
  intros [Hnul Hdirs].
  unfold submit_all, submit_entries, walk_entries, fs_path. rewrite Hnul.
  cbv [bind]. revert st Hdirs.
  induction (walk w root) as [| [[dirpath dirnames] filenames] rest IH];
    intros st Hdirs; [reflexivity |].
  inversion Hdirs as [| ? ? Hdir Hrest]; subst. cbn [fst] in Hdir.
  cbn [for_each flat_map]. rewrite for_each_app, for_each_map. cbn [fst snd].
  rewrite teeprint_encodable by (now rewrite encodable_app, Hdir). cbv [bind].
  destruct (for_each _ filenames st); [now apply IH | reflexivity].
Qed.

Lemma submit_entries_inv (w : world) (pick : list Future -> nat)
    (skip_mounts : list string) (workers : Z) (entries : list (string * string)) :
  forall paths st,
    inv w skip_mounts workers paths st ->
    safe_paths w (map (fun e => join (fst e) (snd e)) entries) ->
    exists st',
      submit_entries w pick skip_mounts entries st = Ok st' /\
      inv w skip_mounts workers
          (paths ++ map (fun e => join (fst e) (snd e)) entries) st'.
Proof.
  unfold submit_entries.
  induction entries as [| [dirpath name] rest IH]; intros paths st Hinv Hsafe.
  - exists st. simpl. now rewrite app_nil_r.
  - inversion Hsafe as [| ? ? Hname Hrest]; subst. cbn [fst snd] in Hname.
    destruct (submit_file_inv w pick skip_mounts _ _ _ dirpath name Hinv Hname)
      as [st1 [H1 Hinv1]].
    destruct (IH _ _ Hinv1 Hrest) as [st2 [H2 Hinv2]].
    exists st2. cbn [for_each fst snd]. rewrite H1. cbv [bind]. split; [exact H2 |].
    simpl map. now rewrite <- app_assoc in Hinv2.
Qed.

(** A submission loop that returned had a walk that could be reported. *)
Lemma submit_all_reported (w : world) (pick : list Future -> nat)
    (skip_mounts : list string) (root : string) (st st' : state) :
  submit_all w pick skip_mounts root st = Ok st' -> walk_reported w root.
Proof.
  unfold submit_all, fs_path, walk_reported.
  destruct (has_nul root); cbv [bind]; [discriminate |].
  intros H. split; [reflexivity |]. revert st H.
  induction (walk w root) as [| [[dirpath dirnames] filenames] rest IH];
    intros st H; [constructor |].
  cbn [for_each] in H. unfold teeprint in H at 1.
  destruct (encodable ("[SCAN] dir: " ++ dirpath)) eqn:E; cbv [bind] in H;
    [| discriminate].
  rewrite encodable_app in E. cbn [andb] in E.
  destruct (for_each _ filenames st) as [st1 |]; [| discriminate].
  constructor; [exact E | now apply (IH st1)].
Qed.

Lemma submit_entries_returned (w : world) (pick : list Future -> nat)
    (skip_mounts : list string) (workers : Z) (entries : list (string * string)) :
  forall paths st st',
    tracked w skip_mounts workers paths st ->
    submit_entries w pick skip_mounts entries st = Ok st' ->
    tracked w skip_mounts workers
            (paths ++ map (fun e => join (fst e) (snd e)) entries) st'.
Proof.
  unfold submit_entries.
  induction entries as [| [dirpath name] rest IH]; intros paths st st' Ht H.
  - simpl in H. inversion H; subst. now rewrite app_nil_r.
  - cbn [for_each fst snd] in H.
    destruct (submit_file w pick skip_mounts dirpath st name) as [st1 |] eqn:H1;
      cbv [bind] in H; [| discriminate].
    pose proof (submit_file_returned w pick skip_mounts _ _ _ _ _ _ Ht H1) as Ht1.
    pose proof (IH _ _ _ Ht1 H) as Ht2.
    simpl map. now rewrite <- app_assoc in Ht2.
Qed.

Lemma inflight_after_bounds (s : Z) :
  0 <= s -> s <= 2 * inflight_after s /\ 2 * inflight_after s < s + SUBMIT_BATCH.
Proof. unfold inflight_after. intros Hs. batch_arith s. Qed.

End InFlight.

(** C1 (as the code has it).  [hash_all]'s submission loop is one loop over
    the files of the walk, and after any number of its iterations,
    whenever it has not raised: with [s]
    files submitted, the futures in flight number exactly
    [s - (SUBMIT_BATCH / 2) * (s / SUBMIT_BATCH)], every periodic drain
    having taken [SUBMIT_BATCH / 2] futures; so at least half of the
    submitted tasks are in flight, and fewer than half of them plus half a
    batch.  The pool size plays no part.  The loop does not raise over
    files whose workers return. *)
Theorem inflight_is_half_of_submitted_plus_partial_batch
    (w : world) (pick : list Future -> nat) (skip_mounts : list string)
    (workers : Z) :
  (forall root st,
      submit_all w pick skip_mounts root (initial_state (fresh_pool workers)) = Ok st ->
      submit_entries w pick skip_mounts (walk_entries w root)
                     (initial_state (fresh_pool workers)) = Ok st) /\
  (forall (entries : list (string * string)) st,
      submit_entries w pick skip_mounts entries (initial_state (fresh_pool workers))
      = Ok st ->
      submitted st = Z.of_nat (List.length entries) /\
      Z.of_nat (List.length (futures st)) =
        submitted st - SUBMIT_BATCH / 2 * (submitted st / SUBMIT_BATCH) /\
      submitted st <= 2 * Z.of_nat (List.length (futures st)) /\
      2 * Z.of_nat (List.length (futures st)) < submitted st + SUBMIT_BATCH) /\
  (forall entries : list (string * string),
      safe_paths w (map (fun e => join (fst e) (snd e)) entries) ->
      exists st,
        submit_entries w pick skip_mounts entries (initial_state (fresh_pool workers))
        = Ok st).
Proof.
  split.
  { intros root st H. rewrite <- H. symmetry. apply submit_all_entries.
    eapply submit_all_reported. exact H. }
  split.
  2: { intros entries Hsafe.
       destruct (submit_entries_inv w pick skip_mounts workers entries [] _
                   (inv_initial w skip_mounts workers) Hsafe) as [st [Hrun _]].
       now exists st. }
  intros entries st Hrun.
  destruct (submit_entries_returned w pick skip_mounts workers entries [] _ _
              (tracked_initial w skip_mounts workers) Hrun) as (Hacc & Hfl & _).
  assert (Hs : submitted st = Z.of_nat (List.length entries)).
  { rewrite (acc_submitted _ _ _ _ _ Hacc). simpl. now rewrite length_map. }
  split; [exact Hs |]. split; [exact Hfl |].
  rewrite Hfl. apply inflight_after_bounds. lia.
Qed.

(** The big tree: one directory of empty files with ASCII names. *)
Lemma flat_tree_entries (top : string) (names : list string) :
  let entries := map (fun name : string => (name, File (plain_file []))) names in
  walk_node top (Dir entries) = [(top, [], names)] /\
  forall e, In e (listing top (Dir entries)) -> snd e = File (plain_file []).
Proof.
  cbn zeta. cbn [walk_node listing]. split.
  - assert (H : forall l : list string,
              map fst (filter (fun e : string * node => entry_is_dir (snd e))
                         (map (fun name : string => (name, File (plain_file []))) l)) = []
              /\ map fst (filter (fun e : string * node => negb (entry_is_dir (snd e)))
                         (map (fun name : string => (name, File (plain_file []))) l)) = l
              /\ flat_map (fun e : string * node =>
                             let (name, child) := e in
                             match child with
                             | Dir _ | NoAccessDir => walk_node (join top name) child
                             | _ => []
                             end)
                    (map (fun name : string => (name, File (plain_file []))) l) = []).
    { induction l as [| x t (IH1 & IH2 & IH3)]; [repeat split |].
      cbn [map filter snd entry_is_dir resolve negb fst flat_map app].
      rewrite IH1, IH2, IH3. repeat split. }
    destruct (H names) as (-> & -> & ->). reflexivity.
  - induction names as [| x t IH]; [intros e [] |].
    cbn [map flat_map listing app]. intros e [<- | Hin]; [reflexivity | now apply IH].
Qed.

Lemma flat_tree_names (n : nat) :
  flat_tree n = Dir (map (fun name : string => (name, File (plain_file [])))
                         (map (fun i => "f" ++ str_of_int (Z.of_nat i)) (seq 0 n))).
Proof. unfold flat_tree. now rewrite map_map. Qed.

Lemma big_world_safe_walk : safe_walk big_world big_root.
Proof.
  split; [reflexivity |].
  destruct (flat_tree_entries big_root
              (map (fun i => "f" ++ str_of_int (Z.of_nat i)) (seq 0 (Z.to_nat 15000))))
    as [Hwalk Hfiles].
  cbn zeta in Hwalk, Hfiles.
  assert (Hw : walk big_world big_root
               = [(big_root, [],
                   map (fun i => "f" ++ str_of_int (Z.of_nat i)) (seq 0 (Z.to_nat 15000)))]).
  { unfold walk.
    change (lookup big_world big_root)
      with (static_lookup big_root (flat_tree (Z.to_nat 15000)) big_root).
    unfold static_lookup. rewrite String.eqb_refl, flat_tree_names.
    cbn [resolve]. exact Hwalk. }
  rewrite Hw.
  constructor; [| constructor]. split; [reflexivity |].
  apply Forall_forall. intros p Hp. apply in_map_iff in Hp.
  destruct Hp as [name [<- Hname]]. apply in_map_iff in Hname.
  destruct Hname as [i [<- _]].
  assert (Hjoin : join big_root ("f" ++ str_of_int (Z.of_nat i))
                  = "/srv/big/f" ++ str_of_int (Z.of_nat i)) by reflexivity.
  rewrite Hjoin. unfold worker_safe.
  rewrite encodable_app, has_nul_app, str_of_int_encodable, str_of_int_no_nul.
  cbn [encodable has_nul list_ascii_of_string forallb existsb andb orb negb].
  change (encodable "/srv/big/f") with true. change (has_nul "/srv/big/f") with false.
  cbn [andb orb negb].
  unfold errors_encode.
  change (lookup big_world ("/srv/big/f" ++ str_of_int (Z.of_nat i)))
    with (static_lookup big_root (flat_tree (Z.to_nat 15000))
            ("/srv/big/f" ++ str_of_int (Z.of_nat i))).
  unfold static_lookup.
  destruct (String.eqb _ big_root); [now rewrite flat_tree_names |].
  destruct (find _ _) as [e |] eqn:Hfind; [| reflexivity].
  apply find_some in Hfind. destruct Hfind as [Hin _].
  rewrite flat_tree_names in Hin. apply Hfiles in Hin. now rewrite Hin.
Qed.

(** C1 (as the spec has it) fails: after 15000 files have been submitted,
    7500 futures are in flight, more than SUBMIT_BATCH plus the pool size
    (8 workers here). *)
Lemma inflight_exceeds_batch_plus_pool :
  exists st,
    submit_all big_world oldest_first (load_mounts_to_skip big_world) big_root
               (initial_state (fresh_pool (pool_size big_world None))) = Ok st /\
    submitted st = 15000 /\
    max_workers (pool st) = 8 /\
    Z.of_nat (List.length (futures st)) = 7500 /\
    SUBMIT_BATCH + max_workers (pool st) < Z.of_nat (List.length (futures st)).
Proof.
  destruct (submit_all_inv big_world oldest_first (load_mounts_to_skip big_world)
              (pool_size big_world None) big_root big_world_safe_walk)
    as [st (Hrun & Hacc & Hfl & _)].
  exists st. split; [exact Hrun |].
  assert (Hn : Z.of_nat (List.length (walk_files big_world big_root)) = 15000)
    by (vm_compute; reflexivity).
  assert (Hs : submitted st = 15000).
  { rewrite (acc_submitted _ _ _ _ _ Hacc). exact Hn. }
  assert (Hw : max_workers (pool st) = 8).
  { rewrite (acc_pool _ _ _ _ _ Hacc). reflexivity. }
  assert (Hf : Z.of_nat (List.length (futures st)) = 7500).
  { rewrite Hfl, Hs. reflexivity. }
  repeat split; try assumption.
  rewrite Hf, Hw. reflexivity.
Qed.

(* ===================================================================== *)
(** * Files under an excluded mount *)
(* ===================================================================== *)

Section ExcludedFiles.

Variable w : world.

Let skip_mounts : list string := load_mounts_to_skip w.







End ExcludedFiles.




(* ===================================================================== *)
(** * The end-to-end scenario *)
(* ===================================================================== *)

Section EndToEnd.

Definition hello_digest : string :=
  "e4cfa39a3d37be31c59609e807970799caa68a19bfaa15135f165085e01d41a65ba1e1b146aeb6bd0092b49eac214c103ccfa3a365954bbbe52f74a2b3620c94".

Definition world_digest : string :=
  "267b2e02b6af3d5bff52397f238c3a240e5d1319375dc5c60ef9f0df5ae9511761968f33a2ce17a0952d85fed231e6103c867f0432c250dd52baf959c7fc4759".

Definition record_line (digest : string) : string :=
  digest ++ " FALSE DUMMY_REASON" ++ nl.

(** What each task of the scenario delivers, in submission order. *)
Lemma scenario_tasks :
  map (fun fut => (_path fut, outcome fut, record_of fut))
      (tasks scenario_world scenario_root) =
  [ ("/srv/data/a.txt", Ok ("/srv/data/a.txt", Some hello_digest),
       [record_line hello_digest]);
    ("/srv/data/b.txt", Ok ("/srv/data/b.txt", Some hello_digest),
       [record_line hello_digest]);
    ("/srv/data/link", Ok ("/srv/data/link", None), []);
    ("/srv/data/sub/c.txt", Ok ("/srv/data/sub/c.txt", Some world_digest),
       [record_line world_digest]) ].
Proof. vm_compute. reflexivity. Qed.

Lemma scenario_well_named : well_named scenario_world scenario_root = true.
Proof. vm_compute. reflexivity. Qed.

(** The order of the records follows the order of completion. *)
Example scenario_newest_first :
  exists r,
    hash_all scenario_world newest_first scenario_root HASH_FILE None = Ok r /\
    map _path (consumed (final r)) =
      ["/srv/data/sub/c.txt"; "/srv/data/link"; "/srv/data/b.txt"; "/srv/data/a.txt"] /\
    out (final r) =
      [record_line world_digest; record_line hello_digest; record_line hello_digest].
Proof. eexists. split; [vm_compute; reflexivity |]. split; vm_compute; reflexivity. Qed.

End EndToEnd.

(** C4 (as the code has it).  On the root holding a.txt = "hello",
    b.txt = "hello", link -> a.txt and sub/c.txt = "world", with the
    default pool and in whatever order the workers complete: the run
    returns; four tasks are submitted
    (the link is one of them) and each result is taken once; the output
    holds exactly three records, those of a.txt, b.txt and sub/c.txt, the
    first two with the same digest; link gets no record and is the one
    error: submitted=4, done=4, errors=1, ok=3. *)
Theorem scenario_three_records_four_tasks
    (pick : list Future -> nat) (out_file : string) :
  exists r,
    hash_all scenario_world pick scenario_root out_file None = Ok r /\
    Permutation (consumed (final r)) (tasks scenario_world scenario_root) /\
    map (fun fut => (_path fut, record_of fut)) (tasks scenario_world scenario_root) =
      [ ("/srv/data/a.txt", [record_line hello_digest]);
        ("/srv/data/b.txt", [record_line hello_digest]);
        ("/srv/data/link", []);
        ("/srv/data/sub/c.txt", [record_line world_digest]) ] /\
    out (final r) = flat_map record_of (consumed (final r)) /\
    Permutation (out (final r))
      [record_line hello_digest; record_line hello_digest; record_line world_digest] /\
    List.length (out (final r)) = 3%nat /\
    submitted (final r) = 4 /\ done (final r) = 4 /\ errors (final r) = 1 /\
    summary r = "[DONE] submitted=4 ok=3 errors=1".
Proof.
  destruct (hash_all_accounted scenario_world pick scenario_root out_file None
              eq_refl eq_refl scenario_well_named)
    as [r (Hrun & Hacc & Hnil & Hsum & _)].
  exists r. split; [exact Hrun |].
  pose proof (acc_perm _ _ _ _ _ Hacc) as Hperm.
  rewrite Hnil, app_nil_r in Hperm. fold (tasks scenario_world scenario_root) in Hperm.
  assert (Hout : Permutation (out (final r))
            [record_line hello_digest; record_line hello_digest; record_line world_digest]).
  { rewrite (acc_out _ _ _ _ _ Hacc).
    etransitivity; [apply records_perm, Hperm |].
    vm_compute. reflexivity. }
  assert (Hs : submitted (final r) = 4) by (rewrite (acc_submitted _ _ _ _ _ Hacc); reflexivity).
  assert (Hd : done (final r) = 4).
  { rewrite (acc_done _ _ _ _ _ Hacc), (Permutation_length Hperm). reflexivity. }
  assert (He : errors (final r) = 1).
  { rewrite (acc_errors _ _ _ _ _ Hacc). unfold failures.
    rewrite (filter_length_perm _ _ _ Hperm). vm_compute. reflexivity. }
  split; [exact Hperm |].
  split; [vm_compute; reflexivity |].
  split; [apply (acc_out _ _ _ _ _ Hacc) |].
  split; [exact Hout |].
  split; [apply (Permutation_length Hout) |].
  split; [exact Hs |]. split; [exact Hd |]. split; [exact He |].
  rewrite Hsum, Hs, Hd, He. reflexivity.
Qed.

(** C4 (as the spec has it) fails on the counters: with the workers
    completing in submission order the run ends with submitted=4, done=4,
    errors=1, not 3, 3 and 0, although the output holds the three expected
    records. *)
Lemma scenario_counters_are_4_4_1 :
  exists r,
    hash_all scenario_world oldest_first scenario_root HASH_FILE None = Ok r /\
    out (final r) =
      [record_line hello_digest; record_line hello_digest; record_line world_digest] /\
    map _path (consumed (final r)) =
      ["/srv/data/a.txt"; "/srv/data/b.txt"; "/srv/data/link"; "/srv/data/sub/c.txt"] /\
    submitted (final r) = 4 /\ done (final r) = 4 /\ errors (final r) = 1 /\
    ~ (submitted (final r) = 3 /\ done (final r) = 3 /\ errors (final r) = 0).
Proof.
  eexists. split; [vm_compute; reflexivity |].
  repeat split; try (vm_compute; reflexivity).
  vm_compute. intros (H & _). discriminate H.
Qed.

(* ===================================================================== *)
(** * Failures stay inside the worker *)
(* ===================================================================== *)

(** What [drain] does with a null digest: no record, one more error. *)
Lemma drain_one_null (st : state) (fut : Future) (p : string) :
  outcome fut = Ok (p, None) ->
  exists st',
    drain_one st fut = Ok st' /\
    out st' = out st /\ errors st' = errors st + 1 /\ done st' = done st + 1 /\
    submitted st' = submitted st.
Proof.
  intros Ho. unfold drain_one. rewrite Ho. cbv [bind].
  eexists. split; [reflexivity |].
  destruct (list_remove fut (futures st)); repeat split.
Qed.


(** C6 fails on the code.  [hash_one] does not always return a pair: its
    first statement writes the path to the debug log outside every [try],
    so for a file name that is not valid UTF-8 it raises UnicodeEncodeError
    before it looks at the file, in every world and for every list of
    mounts, and so does [blake2b_file] when called on such a path; and for
    a path with an embedded NUL off the skipped mounts the ValueError of
    [os.lstat] passes [except OSError] and leaves [hash_one]. *)
Theorem worker_raises_past_the_pool_boundary
    (w : world) (skip_mounts : list string) :
  encodable cafe_path = false /\
  hash_one w (cafe_path, skip_mounts)
  = Raise (UnicodeEncodeError (worker_tag w ++ "START " ++ cafe_path)) /\
  blake2b_file w cafe_path 64
  = Raise (UnicodeEncodeError (worker_tag w ++ "OPENING: " ++ cafe_path)) /\
  hash_one music_world (cafe_path, load_mounts_to_skip music_world)
  = Raise (UnicodeEncodeError ("[WORKER 4242] START " ++ cafe_path)) /\
  hash_one w (String (ascii_of_nat 0) "", [])
  = Raise (ValueError "embedded null byte").
Proof.
  split; [reflexivity |].
  split; [now apply hash_one_surrogate |].
  split; [now apply blake2b_file_surrogate |].
  split; [now rewrite hash_one_surrogate |].
  rewrite hash_one_quiet by reflexivity.
  cbn [path_on_skipped_mount existsb].
  now rewrite is_regular_file_nul.
Qed.

(** X19. What the worker does contain.  For a path that is safe for the worker
    (it encodes, it holds no NUL, and the errors of its file have texts
    that encode): [blake2b_file] returns; it returns null when [open]
    fails and when a [read] fails (at the first call, or at a later one
    that the loop reaches); [hash_one] returns a pair for the path it was
    given; and a null digest reaches the coordinator only as one more
    error and no output record. *)
Theorem worker_contains_io_failures
    (w : world) (path : string) (skip_mounts : list string)
    (Hsafe : worker_safe w path = true) :
  (exists digest, blake2b_file w path 64 = Ok digest) /\
  (forall e, open_rb w path = Raise e -> blake2b_file w path 64 = Ok None) /\
  (forall content k e,
      open_rb w path = Ok {| remaining := content; fault := Some (k, e) |} ->
      k = O \/ (Z.of_nat k - 1) * CHUNK < Z.of_nat (List.length content) ->
      blake2b_file w path 64 = Ok None) /\
  (exists digest, hash_one w (path, skip_mounts) = Ok (path, digest)) /\
  (forall st fut,
      outcome fut = Ok (path, None) ->
      exists st',
        drain_one st fut = Ok st' /\
        out st' = out st /\ errors st' = errors st + 1 /\ done st' = done st + 1).
Proof.
  destruct (worker_safe_inv w path Hsafe) as (Henc & Hnul & Herr).
  split; [now apply blake2b_file_total |].
  split.
  { intros e He. apply (blake2b_file_open_error w path e Henc); [| exact He].
    apply (read_for_hash_error w path e Herr). unfold read_for_hash. now rewrite He. }
  split.
  { intros content k e Hopen Hreach.
    apply (blake2b_file_read_error w path content k e Henc); [| exact Hopen | exact Hreach].
    assert (Hfault : encodable (str_of_exn e) = true).
    { unfold errors_encode, open_rb, fs_path in *. rewrite Hnul in Hopen.
      destruct (lookup w path) as [n |]; [| discriminate].
      assert (Hobj : forall f, file_errors_encode f = true ->
                open_obj f = Ok {| remaining := content; fault := Some (k, e) |} ->
                encodable (str_of_exn e) = true).
      { intros f Hf. unfold file_errors_encode in Hf. apply andb_prop in Hf.
        destruct Hf as [_ Hr]. unfold open_obj.
        destruct (open_error f); [discriminate |].
        intros H. inversion H as [[Hd Hre]]. now rewrite Hre in Hr. }
      destruct (resolve n) as [[f | t r | sp f | es |] |]; try discriminate;
        now apply (Hobj f). }
    exact Hfault. }
  split; [now apply hash_one_total |].
  intros st fut Ho.
  destruct (drain_one_null st fut path Ho) as [st' (H1 & H2 & H3 & H4 & _)].
  exists st'. repeat split; assumption.
Qed.

(** The theorem at a file whose first read fails and at a file that cannot
    be opened. *)
Lemma worker_contains_io_failures_witness :
  blake2b_file faulty_world "/srv/faulty/bad-sector" 64 = Ok None /\
  blake2b_file faulty_world "/srv/faulty/secret" 64 = Ok None /\
  exists st',
    drain_one (initial_state (fresh_pool 4))
              {| fid := O; _path := "/srv/faulty/secret";
                 outcome := Ok ("/srv/faulty/secret", None) |} = Ok st' /\
    out st' = [] /\ errors st' = 1 /\ done st' = 1.
Proof.
  split; [| split].
  - destruct (worker_contains_io_failures faulty_world "/srv/faulty/bad-sector" []
                eq_refl)
      as (_ & _ & Hread & _).
    apply (Hread (bytes_of "partly readable") O eio); [reflexivity | now left].
  - destruct (worker_contains_io_failures faulty_world "/srv/faulty/secret" []
                eq_refl)
      as (_ & Hopen & _).
    apply (Hopen (EACCES "/srv/faulty/secret")). reflexivity.
  - destruct (worker_contains_io_failures faulty_world "/srv/faulty/secret" []
                eq_refl)
      as (_ & _ & _ & _ & Hdrain).
    apply (Hdrain (initial_state (fresh_pool 4))). reflexivity.
Defined.

(* ===================================================================== *)
(** * Empty files *)
(* ===================================================================== *)




(* ===================================================================== *)
(** * path_on_skipped_mount *)
(* ===================================================================== *)

Section MountFilter.

(** The spec's [is_excluded], in its words: the absolute form of the path
    equals an excluded mountpoint, or lies strictly inside one: the
    mountpoint is a prefix of it that ends at a path separator (the
    mountpoint ends with one itself, as the root does, or the next
    character of the path is one). *)
Definition under_mount_spec (ap m : string) : bool :=
  String.eqb ap m
  || (startswith ap m
      && (endswith m sep
          || startswith (String.substring (String.length m)
                                          (String.length ap - String.length m) ap) sep)).

Definition is_excluded_spec (cwd path : string) (excluded_mounts : list string) : bool :=
  existsb (under_mount_spec (abspath cwd path)) excluded_mounts.

Lemma prefix_app (p r : string) : String.prefix p (p ++ r) = true.
Proof.
  induction p as [| c p IH]; simpl.
  - now destruct r.
  - destruct (ascii_dec c c) as [_ | Hne]; [exact IH | now elim Hne].
Qed.

Lemma prefix_inv (p s : string) :
  String.prefix p s = true -> exists r, s = p ++ r.
Proof.
  revert s. induction p as [| c p IH]; intros s H.
  - exists s. reflexivity.
  - destruct s as [| d s]; simpl in H; [discriminate |].
    destruct (ascii_dec c d) as [<- | _]; [| discriminate].
    destruct (IH _ H) as [r ->]. exists r. reflexivity.
Qed.

Lemma substring_after (p r : string) :
  String.substring (String.length p) (String.length (p ++ r) - String.length p) (p ++ r) = r.
Proof.
  rewrite string_length_app.
  replace (String.length p + String.length r - String.length p)%nat
    with (String.length r) by lia.
  induction p as [| c p IH]; simpl; [| exact IH].
  clear. induction r as [| c r IH]; simpl; [reflexivity | now rewrite IH].
Qed.

Lemma append_assoc (a b c : string) : (a ++ b) ++ c = a ++ (b ++ c).
Proof. induction a as [| x a IH]; simpl; [reflexivity | now rewrite IH]. Qed.

(** What the code tests for one mountpoint implies what the spec asks. *)
Lemma code_test_implies_spec (ap m : string) :
  String.eqb ap m || startswith ap (m ++ sep) = true ->
  under_mount_spec ap m = true.
Proof.
  unfold under_mount_spec, startswith. intros H.
  apply orb_true_iff in H. destruct H as [H | H]; [now rewrite H |].
  apply prefix_inv in H. destruct H as [r ->].
  rewrite append_assoc, prefix_app, substring_after, prefix_app.
  now rewrite !orb_true_r.
Qed.

(** For a mountpoint that does not end with a separator the two agree. *)
Lemma spec_implies_code_test (ap m : string) :
  endswith m sep = false ->
  under_mount_spec ap m = true ->
  String.eqb ap m || startswith ap (m ++ sep) = true.
Proof.
  unfold under_mount_spec, startswith. intros Hend H. rewrite Hend in H.
  apply orb_true_iff in H. destruct H as [H | H]; [now rewrite H |].
  apply andb_true_iff in H. destruct H as [Hp Hs].
  apply prefix_inv in Hp. destruct Hp as [r ->].
  rewrite substring_after in Hs. simpl in Hs.
  apply prefix_inv in Hs. destruct Hs as [r' ->].
  apply orb_true_iff. right.
  rewrite <- append_assoc. apply prefix_app.
Qed.

(** Away from mountpoints that end with a separator, the code is the
    spec's [is_excluded]. *)
Lemma path_on_skipped_mount_is_spec (cwd path : string) (skip_mounts : list string) :
  (forall m, In m skip_mounts -> endswith m sep = false) ->
  path_on_skipped_mount cwd path skip_mounts = is_excluded_spec cwd path skip_mounts.
Proof.
  intros Hm. unfold path_on_skipped_mount, is_excluded_spec.
  induction skip_mounts as [| m t IH]; simpl; [reflexivity |].
  rewrite IH by (intros; apply Hm; now right). f_equal.
  destruct (under_mount_spec (abspath cwd path) m) eqn:Hs.
  - apply spec_implies_code_test; [apply Hm; now left | exact Hs].
  - destruct (String.eqb _ m || startswith _ (m ++ sep)) eqn:Hc; [| reflexivity].
    apply code_test_implies_spec in Hc. congruence.
Qed.

(** In every case, what the code excludes the spec excludes. *)
Lemma path_on_skipped_mount_sound (cwd path : string) (skip_mounts : list string) :
  path_on_skipped_mount cwd path skip_mounts = true ->
  is_excluded_spec cwd path skip_mounts = true.
Proof.
  unfold path_on_skipped_mount, is_excluded_spec. intros H.
  apply existsb_exists in H. destruct H as [m [Hin Hm]].
  apply existsb_exists. exists m. split; [exact Hin |].
  now apply code_test_implies_spec.
Qed.

End MountFilter.

(* ===================================================================== *)
(** * Exclusion and descendants *)
(* ===================================================================== *)

Section Descendants.

Lemma split_nonempty (c : ascii) (s : string) : split c s <> [].
Proof.
  induction s as [| x s IH]; simpl; [discriminate |].
  destruct (Ascii.eqb x c); [discriminate |].
  destruct (split c s); [contradiction | discriminate].
Qed.

(** Splitting at a separator splits the list of components. *)
Lemma split_app (c : ascii) (a b : string) :
  split c (a ++ String c b) = (split c a ++ split c b)%list.
Proof.
  induction a as [| x a IH]; simpl.
  - now rewrite Ascii.eqb_refl.
  - destruct (Ascii.eqb x c); [now rewrite IH |].
    rewrite IH. pose proof (split_nonempty c a) as Hne.
    destruct (split c a); [contradiction | reflexivity].
Qed.

(** The components normpath keeps when none of them is "..". *)
Definition kept (comp : string) : bool :=
  negb (String.eqb comp "" || String.eqb comp ".").

Lemma normpath_steps_without_dotdot (k : nat) (comps : list string) :
  forall acc,
    ~ In ".." comps ->
    fold_left (normpath_step k) comps acc = (acc ++ filter kept comps)%list.
Proof.
  induction comps as [| c t IH]; intros acc Hno; simpl.
  - now rewrite app_nil_r.
  - rewrite IH by (intros H; apply Hno; now right).
    unfold normpath_step at 1, kept at 2.
    destruct (String.eqb c "" || String.eqb c ".") eqn:Hskip; simpl; [reflexivity |].
    assert (Hc : String.eqb c ".." = false).
    { apply String.eqb_neq. intros ->. apply Hno. now left. }
    rewrite Hc. simpl. now rewrite <- app_assoc.
Qed.

Lemma concat_app (a b : list string) :
  a <> [] -> b <> [] ->
  String.concat sep (a ++ b) = String.concat sep a ++ sep ++ String.concat sep b.
Proof.
  intros Ha Hb. induction a as [| x a IH]; [contradiction |].
  destruct a as [| y a].
  - simpl. destruct b; [contradiction | reflexivity].
  - change (String.concat sep ((x :: y :: a) ++ b))
      with (x ++ sep ++ String.concat sep ((y :: a) ++ b)).
    rewrite IH by discriminate.
    change (String.concat sep (x :: y :: a)) with (x ++ sep ++ String.concat sep (y :: a)).
    now rewrite !append_assoc.
Qed.

(** normpath's count of leading slashes. *)
Definition lead (path : string) : nat :=
  if startswith path "//" && negb (startswith path "///") then 2%nat else 1%nat.

Lemma normpath_absolute (path : string) :
  isabs path = true ->
  normpath path =
  repeat_char sep_char (lead path)
  ++ String.concat sep (fold_left (normpath_step (lead path)) (split sep_char path) []).
Proof.
  intros Habs. unfold normpath, lead. unfold isabs in Habs.
  destruct path as [| c path]; [discriminate |].
  cbn [String.eqb]. rewrite Habs.
  destruct (startswith (String c path) "//" && negb (startswith (String c path) "///"));
    reflexivity.
Qed.

Lemma normpath_absolute_isabs (path : string) :
  isabs path = true -> startswith (normpath path) sep = true.
Proof.
  intros Habs. rewrite normpath_absolute by exact Habs.
  unfold startswith, lead. destruct (_ && _); exact (prefix_app sep _).
Qed.

Lemma prefix_cons (a b : ascii) (s1 s2 : string) :
  String.prefix (String a s1) (String b s2)
  = if ascii_dec a b then String.prefix s1 s2 else false.
Proof. reflexivity. Qed.

Lemma prefix_empty (s : string) : String.prefix "" s = true.
Proof. now destruct s. Qed.

Lemma lead_descendant (p s : string) :
  isabs p = true -> p <> "/" -> p <> "//" ->
  lead (p ++ sep ++ s) = lead p.
Proof.
  unfold isabs, lead, startswith, sep. intros Habs H1 H2.
  destruct p as [| c1 p]; [discriminate |].
  rewrite prefix_cons in Habs.
  destruct (ascii_dec "/" c1) as [<- | ]; [| discriminate].
  destruct p as [| c2 p]; [congruence |].
  cbn [append]. rewrite !prefix_cons.
  destruct (ascii_dec "/" "/") as [_ | Hne]; [| now elim Hne].
  destruct (ascii_dec "/" c2) as [<- | Hc2]; [| reflexivity].
  destruct p as [| c3 p]; [congruence |].
  cbn [append]. rewrite !prefix_cons, !prefix_empty.
  destruct (ascii_dec "/" c3); reflexivity.
Qed.

(** Only the empty mountpoint can cover "/" or "//" from outside. *)
Lemma covers_slashes (m ap : string) :
  ap = "/" \/ ap = "//" ->
  endswith m sep = false ->
  String.eqb ap m || startswith ap (m ++ sep) = true ->
  m = "".
Proof.
  intros Hap Hend H. apply orb_true_iff in H. destruct H as [H | H].
  - apply String.eqb_eq in H. subst m. destruct Hap as [-> | ->]; discriminate.
  - apply prefix_inv in H. destruct H as [r Hr].
    destruct m as [| c1 m]; [reflexivity |]. exfalso.
    destruct Hap as [-> | ->]; simpl in Hr; inversion Hr as [[Hc Hrest]].
    + destruct m; discriminate.
    + destruct m as [| c2 m].
      * subst c1. vm_compute in Hend. discriminate.
      * simpl in Hrest. inversion Hrest as [[Hc2 Hrest']]. destruct m; discriminate.
Qed.

(** The test [path_on_skipped_mount] makes for one mountpoint [m] on an
    absolute form [ap]. *)
Definition covers (m ap : string) : bool :=
  String.eqb ap m || startswith ap (m ++ sep).

(** One mountpoint that does not end with a separator: what it covers, it
    covers with every descendant. *)
Lemma covers_descendant (m path s : string) :
  isabs path = true ->
  endswith m sep = false ->
  ~ In ".." (split sep_char s) ->
  covers m (normpath path) = true ->
  covers m (normpath (path ++ sep ++ s)) = true.
Proof.
  unfold covers. intros Habs Hend Hclean Hm.
  assert (Habsq : isabs (path ++ sep ++ s) = true).
  { unfold isabs, startswith in *. destruct path as [| c p]; [discriminate |].
    cbn [append]. unfold sep in *. rewrite prefix_cons in *.
    destruct (ascii_dec "/" c); [apply prefix_empty | discriminate]. }
  assert (Hempty : forall ap, startswith ap sep = true -> m = "" ->
            String.eqb ap m || startswith ap (m ++ sep) = true).
  { intros ap Hap ->. cbn [append]. rewrite Hap. apply orb_true_r. }
  destruct (string_dec path "/") as [-> | Hp1].
  { apply Hempty; [now apply normpath_absolute_isabs |].
    apply (covers_slashes m "/"); auto. }
  destruct (string_dec path "//") as [-> | Hp2].
  { apply Hempty; [now apply normpath_absolute_isabs |].
    apply (covers_slashes m "//"); auto. }
  rewrite (normpath_absolute _ Habs) in Hm.
  rewrite (normpath_absolute _ Habsq).
  rewrite (lead_descendant _ _ Habs Hp1 Hp2).
  change (path ++ sep ++ s) with (path ++ String sep_char s).
  rewrite split_app, fold_left_app.
  rewrite (normpath_steps_without_dotdot _ (split sep_char s)) by exact Hclean.
  set (comps := fold_left (normpath_step (lead path)) (split sep_char path) []) in *.
  assert (Hlead : repeat_char sep_char (lead path) = "/"
                  \/ repeat_char sep_char (lead path) = "//")
    by (unfold lead; destruct (_ && _); auto).
  destruct (filter kept (split sep_char s)) as [| e es] eqn:Hextra.
  { rewrite app_nil_r. exact Hm. }
  destruct comps as [| c cs] eqn:Hcomps.
  { apply Hempty.
    - destruct Hlead as [-> | ->]; exact (prefix_app sep _).
    - apply (covers_slashes m (repeat_char sep_char (lead path))); auto.
      cbn [String.concat] in Hm.
      destruct Hlead as [Hl | Hl]; rewrite Hl in *; exact Hm. }
  rewrite concat_app by discriminate.
  rewrite <- append_assoc.
  set (ap := repeat_char sep_char (lead path) ++ String.concat sep (c :: cs)) in *.
  apply orb_true_iff. right.
  apply orb_true_iff in Hm. destruct Hm as [Hm | Hm].
  - apply String.eqb_eq in Hm. subst m. unfold startswith.
    rewrite <- append_assoc. apply prefix_app.
  - unfold startswith in *. apply prefix_inv in Hm. destruct Hm as [r ->].
    rewrite !append_assoc. rewrite <- (append_assoc m sep). apply prefix_app.
Qed.

(** The path [abspath] normalizes. *)
Definition anchored (cwd path : string) : string :=
  if isabs path then path else join cwd path.

Lemma anchored_descendant (cwd p s : string) :
  p <> "" -> anchored cwd (p ++ sep ++ s) = anchored cwd p ++ sep ++ s.
Proof.
  intros Hp. unfold anchored, isabs, join, startswith.
  destruct p as [| c p]; [contradiction |].
  cbn [append]. unfold sep. rewrite !prefix_cons, !prefix_empty.
  destruct (ascii_dec "/" c); [reflexivity |].
  destruct (_ || _); cbn [append]; now rewrite !append_assoc.
Qed.

Lemma anchored_isabs (cwd p : string) :
  isabs cwd = true -> isabs (anchored cwd p) = true.
Proof.
  intros Hcwd. unfold anchored. destruct (isabs p) eqn:Hp; [exact Hp |].
  unfold isabs, join, startswith in *. rewrite Hp.
  destruct cwd as [| c cwd]; [discriminate |].
  unfold sep in *. rewrite prefix_cons in Hcwd.
  destruct (_ || _); cbn [append]; rewrite prefix_cons;
    destruct (ascii_dec "/" c); (apply prefix_empty || discriminate).
Qed.

(** C9, away from the root: in a process with an absolute working
    directory, when no excluded mountpoint ends with a separator, a
    non-empty path on an excluded mount stays on it after appending a
    separator and a suffix free of ".." components. *)
Lemma exclusion_inherited_below_other_mounts
    (cwd p s : string) (skip_mounts : list string) :
  isabs cwd = true ->
  p <> "" ->
  (forall m, In m skip_mounts -> endswith m sep = false) ->
  ~ In ".." (split sep_char s) ->
  path_on_skipped_mount cwd p skip_mounts = true ->
  path_on_skipped_mount cwd (p ++ sep ++ s) skip_mounts = true.
Proof.
  intros Hcwd Hne Hmounts Hclean Hp.
  unfold path_on_skipped_mount, abspath in *.
  fold (anchored cwd p) in Hp. fold (anchored cwd (p ++ sep ++ s)).
  rewrite anchored_descendant by exact Hne.
  apply existsb_exists in Hp. destruct Hp as [m [Hin Hm]].
  apply existsb_exists. exists m. split; [exact Hin |].
  apply (covers_descendant m); auto using anchored_isabs.
Qed.

End Descendants.

(** C5 at its failing input.  In a container whose root file system is an
    overlay mount, the excluded-mount set holds "/", and the file
    /etc/passwd lies strictly inside it; the spec's [is_excluded] says so,
    but [path_on_skipped_mount] answers false, because "/" + os.sep is
    "//"; the file is hashed and recorded.  The other example of the claim
    holds: /mnt/foo does not exclude /mnt/foobar, and does exclude
    /mnt/foo/bar. *)
Theorem root_mount_does_not_exclude_its_files :
  load_mounts_to_skip container_world = ["/proc"; "/"] /\
  is_excluded_spec "/" "/etc/passwd" ["/proc"; "/"] = true /\
  path_on_skipped_mount "/" "/etc/passwd" ["/proc"; "/"] = false /\
  path_on_skipped_mount "/" "/" ["/proc"; "/"] = true /\
  path_on_skipped_mount "/" "/mnt/foobar" ["/mnt/foo"] = false /\
  path_on_skipped_mount "/" "/mnt/foo/bar" ["/mnt/foo"] = true /\
  exists r,
    hash_all container_world oldest_first "/" HASH_FILE None = Ok r /\
    List.length (out (final r)) = 1%nat /\ errors (final r) = 0.
Proof.
  repeat split; try (vm_compute; reflexivity).
  eexists. split; [vm_compute; reflexivity |].
  split; vm_compute; reflexivity.
Qed.

(** C9 at its failing input.  With "/" excluded, the path "/." is excluded
    (its absolute form is "/"), but "/." + "/" + "etc" is not (its absolute
    form is "/etc"): exclusion is not inherited by the descendants of the
    root mount. *)
Theorem exclusion_of_root_is_not_inherited :
  abspath "/" "/." = "/" /\
  path_on_skipped_mount "/" "/." ["/proc"; "/"] = true /\
  abspath "/" ("/." ++ sep ++ "etc") = "/etc" /\
  path_on_skipped_mount "/" ("/." ++ sep ++ "etc") ["/proc"; "/"] = false /\
  is_excluded_spec "/" ("/." ++ sep ++ "etc") ["/proc"; "/"] = true.
Proof. repeat split; vm_compute; reflexivity. Qed.

(* ===================================================================== *)
(** * print_entropy *)
(* ===================================================================== *)

Section EntropyFacts.

Import Entropy.

Variable float : Type.
Variable zero : float.
Variable truediv : Z -> Z -> float.
Variable log2_defined : float -> bool.
Variable log2_value : float -> float.
Variable fmul : float -> float -> float.
Variable fsub : float -> float -> float.
Variable format_3f : float -> string.
Variable stdout_strict : bool.

(** The longest [bytes] object the quotients stay positive for. *)
Variable max_len : Z.

(** [math.log2] accepts [count / length] whenever
    [0 < count <= length <= max_len]: the quotient of two such ints is a
    positive float. *)
Hypothesis log2_of_quotient :
  forall c n, 0 < c <= n -> n <= max_len -> log2_defined (truediv c n) = true.

(** [f"{ent:.3f}"] is a text of digits, sign and point (or inf, nan). *)
Hypothesis format_3f_encodes : forall x, encodable (format_3f x) = true.

Let run := print_entropy float zero truediv log2_defined log2_value fmul fsub format_3f
                         stdout_strict.

(** [open(path, "rb").read()] *)
Definition read_file (w : world) (path : string) : result (list byte) :=
  bind (open_rb w path) read_all.

Definition sum (l : list Z) : Z := fold_right Z.add 0 l.

Lemma counter_add_counts (b : byte) (counts : list (byte * Z)) :
  Forall (fun c => 0 < c) (values counts) ->
  Forall (fun c => 0 < c) (values (counter_add b counts)) /\
  sum (values (counter_add b counts)) = sum (values counts) + 1.
Proof.
  unfold values. induction counts as [| [k c] t IH]; intros Hpos; simpl.
  - split; [repeat constructor | reflexivity].
  - inversion Hpos as [| ? ? Hc Ht]; subst. simpl in Hc.
    destruct (Byte.eqb k b); simpl.
    + split; [constructor; [lia | exact Ht] | lia].
    + destruct (IH Ht) as [Hp Hs]. split; [now constructor | lia].
Qed.

Lemma Counter_counts (data : list byte) :
  Forall (fun c => 0 < c) (values (Counter data)) /\
  sum (values (Counter data)) = Z.of_nat (List.length data).
Proof.
  unfold Counter.
  assert (G : forall counts,
             Forall (fun c => 0 < c) (values counts) ->
             Forall (fun c => 0 < c)
                    (values (fold_left (fun cs b => counter_add b cs) data counts)) /\
             sum (values (fold_left (fun cs b => counter_add b cs) data counts))
             = sum (values counts) + Z.of_nat (List.length data)).
  { induction data as [| b t IH]; intros counts Hpos.
    - simpl. split; [exact Hpos | lia].
    - destruct (counter_add_counts b counts Hpos) as [Hp Hs].
      destruct (IH _ Hp) as [Hp' Hs'].
      cbn [fold_left]. split; [exact Hp' |].
      rewrite Hs', Hs. cbn [List.length]. lia. }
  destruct (G [] (Forall_nil _)) as [Hp Hs]. split; [exact Hp |].
  rewrite Hs. reflexivity.
Qed.

Definition keys (counts : list (byte * Z)) : list byte := map fst counts.

Lemma counter_add_keys (b : byte) (counts : list (byte * Z)) :
  NoDup (keys counts) ->
  NoDup (keys (counter_add b counts)) /\
  (forall x, In x (keys (counter_add b counts)) <-> x = b \/ In x (keys counts)).
Proof.
  unfold keys. induction counts as [| [k c] t IH]; intros Hnd; simpl.
  - split; [repeat constructor; intros [] | intros x; split; intros [H | []]; auto].
  - inversion Hnd as [| ? ? Hk Ht]; subst.
    destruct (Byte.eqb k b) eqn:Hkb; simpl.
    + apply Byte.byte_dec_bl in Hkb. subst k.
      split; [exact Hnd | intros x; simpl; intuition congruence].
    + destruct (IH Ht) as [Hnd' Hin]. split.
      * constructor; [| exact Hnd'].
        intros H. apply Hin in H. destruct H as [-> | H]; [| contradiction].
        rewrite Byte.byte_dec_lb in Hkb by reflexivity. discriminate.
      * intros x. simpl. rewrite Hin. intuition congruence.
Qed.

(** ** What [collections.Counter] holds *)

(** The number of occurrences of the byte value [b] in [data]. *)
Definition count (b : byte) (data : list byte) : Z :=
  Z.of_nat (count_occ Byte.byte_eq_dec data b).

(** The distinct byte values of [data], in the order of their first
    occurrence. *)
Fixpoint first_occurrences (data : list byte) : list byte :=
  match data with
  | [] => []
  | b :: t => b :: filter (fun x => negb (Byte.eqb x b)) (first_occurrences t)
  end.

Definition mem (b : byte) (l : list byte) : bool := existsb (Byte.eqb b) l.

Lemma byte_eqb_neq (x y : byte) : Byte.eqb x y = false <-> x <> y.
Proof.
  split.
  - intros H ->. now rewrite Byte.byte_dec_lb in H.
  - intros H. destruct (Byte.eqb x y) eqn:E; [| reflexivity].
    now apply Byte.byte_dec_bl in E.
Qed.

Lemma mem_In (b : byte) (l : list byte) : mem b l = true <-> In b l.
Proof.
  unfold mem. rewrite existsb_exists. split.
  - intros [x [Hin Hx]]. apply Byte.byte_dec_bl in Hx. now subst.
  - intros H. exists b. split; [exact H | now apply Byte.byte_dec_lb].
Qed.

Lemma count_cons_same (b : byte) (t : list byte) : count b (b :: t) = count b t + 1.
Proof. unfold count. rewrite count_occ_cons_eq by reflexivity. lia. Qed.

Lemma count_cons_other (b x : byte) (t : list byte) :
  x <> b -> count x (b :: t) = count x t.
Proof. intros H. unfold count. rewrite count_occ_cons_neq; [reflexivity | congruence]. Qed.

Lemma counter_add_old (b : byte) (counts : list (byte * Z)) :
  NoDup (keys counts) -> In b (keys counts) ->
  counter_add b counts
  = map (fun kc : byte * Z => if Byte.eqb (fst kc) b then (fst kc, snd kc + 1) else kc)
        counts.
Proof.
  unfold keys. induction counts as [| [k c] t IH]; intros Hnd Hin; [contradiction |].
  inversion Hnd as [| ? ? Hk Ht]; subst. cbn [counter_add map fst snd].
  destruct (Byte.eqb k b) eqn:E.
  - apply Byte.byte_dec_bl in E. subst k. f_equal.
    rewrite <- (map_id t) at 1. apply map_ext_in. intros [k' c'] Hin'.
    cbn [fst snd]. destruct (Byte.eqb k' b) eqn:E'; [| reflexivity].
    apply Byte.byte_dec_bl in E'. subst k'. exfalso. apply Hk.
    apply in_map_iff. exists (b, c'). now split.
  - f_equal. apply IH; [exact Ht |].
    destruct Hin as [Hin | Hin]; [| exact Hin].
    cbn [fst] in Hin. subst k. now rewrite Byte.byte_dec_lb in E.
Qed.

Lemma counter_add_new (b : byte) (counts : list (byte * Z)) :
  ~ In b (keys counts) -> counter_add b counts = (counts ++ [(b, 1)])%list.
Proof.
  unfold keys. induction counts as [| [k c] t IH]; intros Hin; [reflexivity |].
  cbn [counter_add map fst app].
  destruct (Byte.eqb k b) eqn:E.
  - apply Byte.byte_dec_bl in E. subst k. exfalso. apply Hin. now left.
  - f_equal. apply IH. intros H. apply Hin. now right.
Qed.

Lemma map_filter_ext {A B : Type} (f g : A -> B) (p q : A -> bool) (l : list A) :
  (forall x, In x l -> p x = q x /\ (p x = true -> f x = g x)) ->
  map f (filter p l) = map g (filter q l).
Proof.
  induction l as [| x t IH]; intros H; [reflexivity |].
  destruct (H x (or_introl eq_refl)) as [Hpq Hfg].
  cbn [filter]. rewrite <- Hpq.
  assert (IH' : map f (filter p t) = map g (filter q t))
    by (apply IH; intros y Hy; apply H; now right).
  destruct (p x); [cbn [map]; rewrite Hfg, IH' by reflexivity; reflexivity | exact IH'].
Qed.

Lemma filter_filter_and {A : Type} (p q : A -> bool) (l : list A) :
  filter p (filter q l) = filter (fun x => q x && p x) l.
Proof.
  induction l as [| x t IH]; [reflexivity |].
  cbn [filter]. destruct (q x); cbn [filter andb]; [| exact IH].
  destruct (p x); now rewrite IH.
Qed.

(** The counter after [data] has been counted into [counts]: the old keys
    with their counts raised, then the new byte values in the order of
    their first occurrence. *)
Lemma Counter_from (data : list byte) :
  forall counts : list (byte * Z),
    NoDup (keys counts) ->
    fold_left (fun cs b => counter_add b cs) data counts
    = (map (fun kc : byte * Z => (fst kc, snd kc + count (fst kc) data)) counts
       ++ map (fun b => (b, count b data))
              (filter (fun x => negb (mem x (keys counts))) (first_occurrences data)))%list.
Proof.
  induction data as [| b t IH]; intros counts Hnd.
  - cbn [fold_left first_occurrences filter map]. rewrite app_nil_r.
    rewrite <- (map_id counts) at 1. apply map_ext. intros [k c].
    cbn [fst snd]. unfold count. cbn [count_occ]. f_equal. lia.
  - cbn [fold_left first_occurrences].
    destruct (counter_add_keys b counts Hnd) as [Hnd' Hkeys'].
    rewrite (IH _ Hnd'). clear IH.
    destruct (mem b (keys counts)) eqn:Hmem.
    + (* [b] has been seen *)
      apply mem_In in Hmem.
      rewrite (counter_add_old b counts Hnd Hmem), map_map.
      cbn [filter]. rewrite (proj2 (mem_In b (keys counts)) Hmem). cbn [negb].
      rewrite filter_filter_and. f_equal.
      * apply map_ext. intros [k c]. cbn [fst snd].
        destruct (Byte.eqb k b) eqn:E; cbn [fst snd].
        -- apply Byte.byte_dec_bl in E. subst k. rewrite count_cons_same. f_equal. lia.
        -- apply byte_eqb_neq in E. now rewrite count_cons_other.
      * apply map_filter_ext. intros x _.
        assert (Hsame : mem x (keys (map (fun kc : byte * Z =>
                                 if Byte.eqb (fst kc) b then (fst kc, snd kc + 1) else kc)
                               counts)) = mem x (keys counts)).
        { f_equal. unfold keys. rewrite map_map. apply map_ext.
          intros [k c]. cbn [fst]. now destruct (Byte.eqb k b). }
        rewrite Hsame.
        destruct (Byte.eqb x b) eqn:E; cbn [negb andb].
        -- apply Byte.byte_dec_bl in E. subst x.
           rewrite (proj2 (mem_In b (keys counts)) Hmem). split; [reflexivity | discriminate].
        -- split; [reflexivity |]. intros _.
           apply byte_eqb_neq in E. now rewrite count_cons_other.
    + (* [b] is new *)
      assert (Hnew : ~ In b (keys counts))
        by (intros H; apply mem_In in H; congruence).
      rewrite (counter_add_new b counts Hnew), map_app. cbn [map fst snd].
      cbn [filter]. rewrite Hmem. cbn [negb map].
      rewrite <- app_assoc. cbn [app]. f_equal.
      * apply map_ext_in. intros [k c] Hin. cbn [fst snd].
        rewrite count_cons_other; [reflexivity |].
        intros ->. apply Hnew. apply in_map_iff. exists (b, c). now split.
      * rewrite count_cons_same. f_equal; [f_equal; lia |].
        rewrite filter_filter_and. apply map_filter_ext. intros x _.
        assert (Hsplit : mem x (keys (counts ++ [(b, 1)])) = mem x (keys counts) || Byte.eqb x b).
        { unfold mem, keys. rewrite map_app, existsb_app. cbn [map fst existsb].
          now rewrite orb_false_r. }
        rewrite Hsplit.
        destruct (Byte.eqb x b) eqn:E; cbn [negb andb].
        -- rewrite orb_true_r. split; [reflexivity | discriminate].
        -- rewrite orb_false_r. split; [reflexivity |]. intros _.
           apply byte_eqb_neq in E. now rewrite count_cons_other.
Qed.

(** [Counter(data)] holds each distinct byte value once, in the order of
    first occurrence, with the number of its occurrences. *)
Lemma Counter_spec (data : list byte) :
  Counter data = map (fun b => (b, count b data)) (first_occurrences data).
Proof.
  unfold Counter. rewrite (Counter_from data [] (NoDup_nil _)).
  cbn [map app keys]. f_equal.
  apply forallb_filter_id, forallb_forall. reflexivity.
Qed.

(** The Shannon entropy of [data] in bits per byte, as the floats give it:
    minus the sum of [p * log2 p] over the distinct byte values of [data],
    with [p] the share of the value among the bytes, [count / len(data)];
    the terms are subtracted from 0.0 one by one, in the order in which
    the values first occur in [data]. *)
Definition shannon (data : list byte) : float :=
  fold_left (fun ent b =>
               let p := truediv (count b data) (Z.of_nat (List.length data)) in
               fsub ent (fmul p (log2_value p)))
            (first_occurrences data) zero.

(** The arguments [math.log2] is called with for [data]. *)
Definition shares (data : list byte) : list float :=
  map (fun b => truediv (count b data) (Z.of_nat (List.length data)))
      (first_occurrences data).

Lemma fold_left_over_map {A B C : Type} (f : A -> B -> A) (g : C -> B) (l : list C) :
  forall a, fold_left f (map g l) a = fold_left (fun a x => f a (g x)) l a.
Proof. induction l as [| x t IH]; intros a; [reflexivity | apply IH]. Qed.

Lemma positive_summand_le (l : list Z) :
  Forall (fun c => 0 < c) l -> forall c, In c l -> c <= sum l.
Proof.
  induction 1 as [| x l Hx Hl IH]; intros c Hin; [contradiction |].
  assert (0 <= sum l).
  { clear - Hl. induction Hl; simpl; lia. }
  simpl. destruct Hin as [-> | Hin]; [lia |].
  specialize (IH _ Hin). lia.
Qed.

(** With every count between 1 and [length], the loop never raises. *)
Lemma entropy_loop_total (length : Z) (counts : list Z) :
  forall (ent : float) (io : effects float),
    length <= max_len ->
    Forall (fun c => 0 < c <= length) counts ->
    entropy_loop float truediv log2_defined log2_value fmul fsub length counts ent io =
    Ok (fold_left (fun ent count =>
                     let p := truediv count length in
                     fsub ent (fmul p (log2_value p))) counts ent,
        {| stdout := stdout float io;
           log2_calls := (log2_calls float io
                          ++ map (fun c => truediv c length) counts)%list |}).
Proof.
  induction counts as [| c t IH]; intros ent io Hmax Hall.
  - simpl. rewrite app_nil_r. now destruct io.
  - inversion Hall as [| ? ? Hc Ht]; subst.
    cbn [entropy_loop]. unfold int_truediv.
    destruct (Z.eqb_spec length 0) as [-> | _]; [lia |].
    cbv [bind]. unfold math_log2. rewrite log2_of_quotient by assumption.
    rewrite IH by assumption. cbn [stdout log2_calls fold_left map].
    now rewrite <- app_assoc.
Qed.

Lemma print_ok (line : string) (io : effects float) :
  stdout_strict = false \/ encodable line = true ->
  print float stdout_strict line io
  = Ok {| stdout := (stdout float io ++ [line])%list;
          log2_calls := log2_calls float io |}.
Proof.
  intros H. unfold print.
  destruct H as [-> | ->]; [reflexivity | now rewrite andb_false_r].
Qed.

Lemma print_surrogate (line : string) (io : effects float) :
  stdout_strict = true -> encodable line = false ->
  print float stdout_strict line io = Raise (UnicodeEncodeError line).
Proof. intros -> H. unfold print. now rewrite H. Qed.

Lemma encodable_basename (p : string) :
  encodable p = true -> encodable (basename p) = true.
Proof.
  induction p as [| c rest IH]; [reflexivity |].
  intros H. assert (Hrest : encodable rest = true).
  { unfold encodable in *. cbn [list_ascii_of_string forallb] in H.
    now apply andb_prop in H. }
  cbn [basename]. destruct (existsb _ _); [now apply IH |].
  destruct (Ascii.eqb c sep_char); assumption.
Qed.

(** The exceptions of [open(path, "rb").read()] have texts that encode,
    when those of the file do. *)
Lemma read_file_error (w : world) (path : string) (e : exn) :
  errors_encode w path = true ->
  read_file w path = Raise e -> encodable (str_of_exn e) = true.
Proof.
  unfold read_file, errors_encode, open_rb, fs_path. intros Henc.
  destruct (has_nul path); [intros H; inversion H; reflexivity |].
  assert (Hobj : forall f, file_errors_encode f = true ->
            bind (open_obj f) read_all = Raise e -> encodable (str_of_exn e) = true).
  { intros f Hf. unfold file_errors_encode in Hf. apply andb_prop in Hf.
    destruct Hf as [Ho Hr]. unfold open_obj, read_all.
    destruct (open_error f) as [e0 |]; cbv [bind]; cbn [fault].
    - intros H. inversion H; subst. exact Ho.
    - destruct (read_error f) as [[[| k] e0] |]; try discriminate.
      intros H. inversion H; subst. exact Hr. }
  destruct (lookup w path) as [n |].
  - destruct (resolve n) as [[f | t r | k f | es |] |].
    + now apply Hobj.
    + intros H; inversion H. now apply oserror_encodable.
    + now apply Hobj.
    + intros H; inversion H. now apply oserror_encodable.
    + intros H; inversion H. now apply oserror_encodable.
    + intros H; inversion H. now apply oserror_encodable.
  - intros H; inversion H. now apply oserror_encodable.
Qed.

(** The loop over the counter accumulates [shannon data], calling
    [math.log2] on the [shares] of [data]. *)
Lemma entropy_loop_shannon (data : list byte) :
  data <> [] ->
  Z.of_nat (List.length data) <= max_len ->
  entropy_loop float truediv log2_defined log2_value fmul fsub
    (Z.of_nat (List.length data)) (values (Counter data)) zero (no_effects float)
  = Ok (shannon data, {| stdout := []; log2_calls := shares data |}).
Proof.
  intros Hne Hsize.
  destruct (Counter_counts data) as [Hpos Hsum].
  rewrite entropy_loop_total.
  - cbn [no_effects stdout log2_calls app]. unfold shannon, shares, values.
    rewrite Counter_spec, map_map. cbn [snd].
    now rewrite fold_left_over_map, map_map.
  - exact Hsize.
  - apply Forall_forall. intros c Hin. split.
    + eapply Forall_forall in Hpos; eauto.
    + rewrite <- Hsum. now apply positive_summand_le.
Qed.

(** The run on a readable, non-empty file whose line can be printed. *)
Lemma print_entropy_nonempty
    (w : world) (prog path : string) (rest : list string) (content : list byte) :
  read_file w path = Ok content -> content <> [] ->
  Z.of_nat (List.length content) <= max_len ->
  stdout_strict = false \/ encodable path = true ->
  run w (prog :: path :: rest) =
  Ok {| stdout := [path ++ ": Entropy = " ++ format_3f (shannon content)
                   ++ " bits/byte, Size = "
                   ++ str_of_int (Z.of_nat (List.length content)) ++ " bytes"];
        log2_calls := shares content |}.
Proof.
  intros Hr Hne Hsize Hp. unfold run, print_entropy.
  cbn [List.length Nat.ltb Nat.leb index nth_error]. cbv [bind].
  unfold read_file, bind in Hr. rewrite Hr.
  destruct content as [| b bs] eqn:Hc; [congruence |]. rewrite <- Hc in *.
  rewrite (entropy_loop_shannon content Hne Hsize).
  apply print_ok. destruct Hp as [Hs | Hp]; [now left | right].
  now rewrite !encodable_app, Hp, format_3f_encodes, str_of_int_encodable.
Qed.

(** X20. What [print_entropy] does when its line can be printed: standard
    output is not strict, or the arguments encode and so do the texts of
    the errors of the file.  For every non-empty [sys.argv] and every file
    (of at most [max_len] bytes) it returns, having printed one line:
    - without a file argument, the usage line;
    - when the file cannot be read, the error line;
    - for an empty file, the "entropy = 0.0" line, and in these three cases
      [math.log2] is never called;
    - for a readable, non-empty file, the Shannon entropy of its bytes
      ([shannon]) with the size, [math.log2] having been called once per
      distinct byte value, on its share of the bytes. *)
Theorem print_entropy_prints_one_line
    (w : world) (argv : list string)
    (Hargv : argv <> [])
    (Hsize : forall data, read_file w (nth 1 argv "") = Ok data ->
                          Z.of_nat (List.length data) <= max_len)
    (Hprint : stdout_strict = false \/
              (Forall (fun a => encodable a = true) argv /\
               errors_encode w (nth 1 argv "") = true)) :
  (exists io, run w argv = Ok io /\ List.length (stdout float io) = 1%nat) /\
  (forall prog, argv = [prog] ->
     run w argv = Ok {| stdout := ["Usage: " ++ basename prog ++ " <file>"];
                        log2_calls := [] |}) /\
  (forall prog path rest e,
     argv = prog :: path :: rest -> read_file w path = Raise e ->
     run w argv = Ok {| stdout := ["[ERROR] Cannot read " ++ path ++ ": " ++ str_of_exn e];
                        log2_calls := [] |}) /\
  (forall prog path rest,
     argv = prog :: path :: rest -> read_file w path = Ok [] ->
     run w argv = Ok {| stdout := [path ++ ": empty file (entropy = 0.0)"];
                        log2_calls := [] |}) /\
  (forall prog path rest data,
     argv = prog :: path :: rest -> read_file w path = Ok data -> data <> [] ->
     run w argv =
     Ok {| stdout := [path ++ ": Entropy = " ++ format_3f (shannon data)
                      ++ " bits/byte, Size = "
                      ++ str_of_int (Z.of_nat (List.length data)) ++ " bytes"];
           log2_calls := shares data |}).
Proof.
  assert (Husage : forall prog, argv = [prog] ->
            run w argv = Ok {| stdout := ["Usage: " ++ basename prog ++ " <file>"];
                               log2_calls := [] |}).
  { intros prog ->. unfold run, print_entropy.
    cbn [List.length Nat.ltb Nat.leb index nth_error]. cbv [bind].
    apply print_ok. destruct Hprint as [-> | [Hall _]]; [now left | right].
    inversion Hall as [| ? ? Hprog _]; subst.
    now rewrite !encodable_app, encodable_basename. }
  assert (Hpath : forall prog path rest, argv = prog :: path :: rest ->
            stdout_strict = false \/
            (encodable path = true /\ errors_encode w path = true)).
  { intros prog path rest ->. destruct Hprint as [-> | [Hall Herr]]; [now left | right].
    inversion Hall as [| ? ? _ Hall']; subst.
    inversion Hall' as [| ? ? Hp _]; subst. split; [exact Hp | exact Herr]. }
  assert (Herr : forall prog path rest e,
            argv = prog :: path :: rest -> read_file w path = Raise e ->
            run w argv = Ok {| stdout := ["[ERROR] Cannot read " ++ path ++ ": "
                                          ++ str_of_exn e];
                               log2_calls := [] |}).
  { intros prog path rest e Heq Hr.
    destruct (Hpath _ _ _ Heq) as [Hs | [Hp He]]; subst argv;
      unfold run, print_entropy;
      cbn [List.length Nat.ltb Nat.leb index nth_error]; cbv [bind];
      unfold read_file, bind in Hr; rewrite Hr; apply print_ok; [now left | right].
    rewrite !encodable_app, Hp. cbn [andb encodable].
    apply (read_file_error w path e He). exact Hr. }
  assert (Hempty : forall prog path rest,
            argv = prog :: path :: rest -> read_file w path = Ok [] ->
            run w argv = Ok {| stdout := [path ++ ": empty file (entropy = 0.0)"];
                               log2_calls := [] |}).
  { intros prog path rest Heq Hr.
    destruct (Hpath _ _ _ Heq) as [Hs | [Hp He]]; subst argv;
      unfold run, print_entropy;
      cbn [List.length Nat.ltb Nat.leb index nth_error]; cbv [bind];
      unfold read_file, bind in Hr; rewrite Hr; apply print_ok; [now left | right].
    now rewrite !encodable_app, Hp. }
  assert (Hdata : forall prog path rest data,
            argv = prog :: path :: rest -> read_file w path = Ok data -> data <> [] ->
            run w argv =
            Ok {| stdout := [path ++ ": Entropy = " ++ format_3f (shannon data)
                             ++ " bits/byte, Size = "
                             ++ str_of_int (Z.of_nat (List.length data)) ++ " bytes"];
                  log2_calls := shares data |}).
  { intros prog path rest content Heq Hr Hne.
    pose proof (Hpath _ _ _ Heq) as Hp. subst argv.
    apply print_entropy_nonempty; [exact Hr | exact Hne | now apply Hsize |].
    destruct Hp as [Hs | [Hp _]]; [now left | now right]. }
  split; [| repeat split; assumption].
  destruct argv as [| prog [| path rest]]; [congruence | |].
  - eexists. split; [now apply Husage | reflexivity].
  - destruct (read_file w path) as [[| b bs] | e] eqn:Hr.
    + eexists. split; [eapply Hempty; eauto | reflexivity].
    + eexists. split; [eapply Hdata; eauto; discriminate | reflexivity].
    + eexists. split; [eapply Herr; eauto | reflexivity].
Qed.

End EntropyFacts.

(** ** The theorem on exact rationals *)

Section EntropyOnRationals.

Let Q : Type := QArith_base.Q.

(** A float model to run [print_entropy] with: exact rationals, with the
    integer part of the binary logarithm for [math.log2]. *)
Definition q_truediv (c n : Z) : Q := QArith_base.Qmake c (Z.to_pos n).

Definition q_log2_defined (q : Q) : bool := (0 <? QArith_base.Qnum q)%Z.

Definition q_log2 (q : Q) : Q :=
  QArith_base.inject_Z (Z.log2 (QArith_base.Qnum q)
                        - Z.log2 (Zpos (QArith_base.Qden q)))%Z.

Definition q_format (q : Q) : string :=
  (str_of_int (QArith_base.Qnum q) ++ "/" ++ str_of_int (Zpos (QArith_base.Qden q)))%string.

Lemma q_format_encodes (q : Q) : encodable (q_format q) = true.
Proof.
  unfold q_format. now rewrite !encodable_app, !str_of_int_encodable.
Qed.

Lemma q_quotient_positive (c n : Z) :
  (0 < c <= n -> n <= 2 ^ 63 - 1 -> q_log2_defined (q_truediv c n) = true)%Z.
Proof. intros Hc _. unfold q_log2_defined, q_truediv. simpl. apply Z.ltb_lt. lia. Qed.

End EntropyOnRationals.

(** The theorem at [sys.argv = ["entropy.py", "/srv/data/a.txt"]], the file
    holding "hello", with a strict standard output. *)
Lemma print_entropy_prints_one_line_witness :
  exists io,
    Entropy.print_entropy QArith_base.Q (QArith_base.Qmake 0 1) q_truediv q_log2_defined
      q_log2 QArith_base.Qmult QArith_base.Qminus q_format true
      scenario_world ["entropy.py"; "/srv/data/a.txt"] = Ok io /\
    List.length (Entropy.stdout QArith_base.Q io) = 1%nat.
Proof.
  apply (print_entropy_prints_one_line QArith_base.Q (QArith_base.Qmake 0 1) q_truediv
           q_log2_defined q_log2 QArith_base.Qmult QArith_base.Qminus q_format true
           (2 ^ 63 - 1) q_quotient_positive q_format_encodes
           scenario_world ["entropy.py"; "/srv/data/a.txt"]).
  - discriminate.
  - intros content H. vm_compute in H. inversion H. vm_compute. discriminate.
  - right. split; [repeat constructor | reflexivity].
Defined.

(** C10 fails on the code.  Every line [print_entropy] prints for a file
    argument holds the argument, and no [print] is inside a [try]: with
    the strict standard output of a UTF-8 locale and a file name that is
    not valid UTF-8, the function raises, whatever the file is; when the
    file cannot be read, the UnicodeEncodeError comes out of the handler
    that was to report the error.  (With an empty [sys.argv], which a
    script never has, the usage branch raises IndexError.) *)
Theorem print_entropy_raises_on_undecodable_name
    (float : Type) (zero : float) (truediv : Z -> Z -> float)
    (log2_defined : float -> bool) (log2_value : float -> float)
    (fmul fsub : float -> float -> float) (format_3f : float -> string) :
  (forall w : world,
     exists e,
       Entropy.print_entropy float zero truediv log2_defined log2_value fmul fsub
         format_3f true w ["entropy.py"; cafe_path] = Raise e) /\
  Entropy.print_entropy float zero truediv log2_defined log2_value fmul fsub
    format_3f true scenario_world ["entropy.py"; cafe_path]
  = Raise (UnicodeEncodeError
             ("[ERROR] Cannot read " ++ cafe_path ++ ": "
              ++ "[Errno 2] No such file or directory: '/srv/music/caf"
              ++ String backslash "udce9.txt'")) /\
  (forall (strict : bool) (w : world),
     Entropy.print_entropy float zero truediv log2_defined log2_value fmul fsub
       format_3f strict w [] = Raise (IndexError "list index out of range")).
Proof.
  split; [| split; reflexivity].
  intros w. unfold Entropy.print_entropy.
  cbn [List.length Nat.ltb Nat.leb index nth_error]. cbv [bind].
  assert (Hline : forall (s : string) io,
            Entropy.print float true (cafe_path ++ s) io
            = Raise (UnicodeEncodeError (cafe_path ++ s))).
  { intros s io. unfold Entropy.print. rewrite encodable_app.
    change (encodable cafe_path) with false. reflexivity. }
  destruct (match open_rb w cafe_path with Ok a => read_all a | Raise e => Raise e end)
    as [[| b bs] | e].
  - rewrite Hline. eauto.
  - destruct (Entropy.entropy_loop _ _ _ _ _ _ _ _ _ _) as [[ent io] | e]; [| eauto].
    rewrite Hline. eauto.
  - eexists. unfold Entropy.print.
    rewrite encodable_app, (encodable_app cafe_path).
    change (encodable cafe_path) with false. reflexivity.
Qed.


(* ===================================================================== *)
(** * The mount table: load_mounts_to_skip *)
(* ===================================================================== *)

Section MountTable.

(** What [load_mounts_to_skip] reads: the path it opens and the file found
    there. *)
Definition mount_table_path (w : world) : string :=
  if text_exists (proc_self_mountinfo w) then "/proc/self/mountinfo" else "/proc/mounts".

Definition mount_table (w : world) : text_file :=
  if text_exists (proc_self_mountinfo w) then proc_self_mountinfo w else proc_mounts w.

Definition table_lines (w : world) : list string :=
  match mount_table w with
  | Lines ls => ls
  | Absent | Unreadable _ => []
  end.

(** The (mountpoint, fstype) pair a line yields; [None] for a line the
    loop skips with [continue]. *)
Definition parsed_line (path line : string) : option (string * string) :=
  if endswith path "mountinfo" then
    match parse_mountinfo_line line with
    | Ok x => Some x
    | Raise _ => None
    end
  else
    let parts := split_ws line in
    if (List.length parts <? 3)%nat then None
    else Some (nth 1 parts "", nth 2 parts "").

(** The mountpoint a line adds to [mounts], if any. *)
Definition line_mount (cwd path line : string) : option string :=
  match parsed_line path line with
  | Some (mountpoint, fstype) =>
      if skipped_fstype fstype then Some (abspath cwd mountpoint) else None
  | None => None
  end.

Lemma load_line_line_mount (cwd path : string) (mounts : list string) (line : string) :
  load_line cwd path mounts line =
  match line_mount cwd path line with
  | Some m => (mounts ++ [m])%list
  | None => mounts
  end.
Proof.
  unfold load_line, line_mount, parsed_line.
  destruct (endswith path "mountinfo").
  - destruct (parse_mountinfo_line line) as [[mp fs] |]; [| reflexivity].
    destruct (skipped_fstype fs); reflexivity.
  - destruct (List.length (split_ws line) <? 3)%nat; [reflexivity |].
    destruct (skipped_fstype _); reflexivity.
Qed.

Lemma load_lines_In (cwd path : string) (ls : list string) :
  forall (mounts : list string) (m : string),
    In m (fold_left (load_line cwd path) ls mounts) <->
    In m mounts \/ exists line, In line ls /\ line_mount cwd path line = Some m.
Proof.
  induction ls as [| line rest IH]; intros mounts m; simpl.
  - split; [auto | intros [H | (l & [] & _)]; exact H].
  - rewrite IH, load_line_line_mount. split.
    + intros [H | (l & Hl & Hm)].
      * destruct (line_mount cwd path line) as [m' |] eqn:Hline; [| now left].
        apply in_app_or in H. destruct H as [H | [<- | []]]; [now left |].
        right. exists line. split; [now left | exact Hline].
      * right. exists l. split; [now right | exact Hm].
    + intros [H | (l & [<- | Hl] & Hm)].
      * left. destruct (line_mount cwd path line); [apply in_or_app |]; auto.
      * left. rewrite Hm. apply in_or_app. right. now left.
      * right. exists l. split; assumption.
Qed.

Lemma insert_sorted_perm (x : string) (l : list string) :
  Permutation (insert_sorted x l) (x :: l).
Proof.
  induction l as [| y t IH]; simpl; [reflexivity |].
  destruct (key_le x y); [reflexivity |].
  etransitivity; [apply perm_skip, IH | apply perm_swap].
Qed.

Lemma sorted_set_perm (mounts : list string) :
  Permutation (sorted_set mounts) (nodup string_dec mounts).
Proof.
  unfold sorted_set. induction (nodup string_dec mounts) as [| x t IH]; simpl;
    [reflexivity |].
  etransitivity; [apply insert_sorted_perm | now apply perm_skip].
Qed.

Lemma sorted_set_In (mounts : list string) (m : string) :
  In m (sorted_set mounts) <-> In m mounts.
Proof.
  split; intros H.
  - apply (nodup_In string_dec).
    eapply Permutation_in; [apply sorted_set_perm | exact H].
  - eapply Permutation_in; [symmetry; apply sorted_set_perm |].
    now apply nodup_In.
Qed.

(** The key order is total. *)
Lemma key_le_total (a b : string) : key_le a b = false -> key_le b a = true.
Proof.
  unfold key_le. intros H.
  apply orb_false_iff in H. destruct H as [Hlt Hrest].
  apply Z.ltb_ge in Hlt.
  destruct (Z.ltb_spec (- len b) (- len a)) as [Hlt' | Hge]; [reflexivity |].
  assert (Heq : - len a = - len b) by lia.
  rewrite Heq, Z.eqb_refl in *. simpl in *.
  destruct (String.leb_total a b) as [H | H]; [congruence | exact H].
Qed.

Definition key_order (a b : string) : Prop := key_le a b = true.

Lemma insert_sorted_Sorted (x : string) (l : list string) :
  Sorted key_order l -> Sorted key_order (insert_sorted x l).
Proof.
  induction l as [| y t IH]; intros Hs; simpl.
  - repeat constructor.
  - destruct (key_le x y) eqn:Hxy.
    + constructor; [exact Hs | constructor; exact Hxy].
    + inversion Hs as [| ? ? Ht Hhd]; subst.
      constructor; [apply IH, Ht |].
      destruct t as [| z t']; simpl.
      * constructor. now apply key_le_total.
      * destruct (key_le x z); constructor;
          [now apply key_le_total | inversion Hhd; assumption].
Qed.

Lemma sorted_set_Sorted (mounts : list string) : Sorted key_order (sorted_set mounts).
Proof.
  unfold sorted_set. induction (nodup string_dec mounts) as [| x t IH]; simpl.
  - constructor.
  - now apply insert_sorted_Sorted.
Qed.

(** Along a list in key order the lengths never grow. *)
Lemma key_order_lengths (l : list string) :
  Sorted key_order l ->
  StronglySorted (fun a b => (String.length b <= String.length a)%nat) l.
Proof.
  intros Hs. apply Sorted_StronglySorted.
  - intros a b c Hab Hbc. lia.
  - induction Hs as [| a l Hl IH Hhd]; constructor; [exact IH |].
    destruct Hhd as [| b l' Hab]; constructor.
    unfold key_order, key_le, len in Hab.
    apply orb_true_iff in Hab. destruct Hab as [H | H].
    + apply Z.ltb_lt in H. lia.
    + apply andb_true_iff in H. destruct H as [H _]. apply Z.eqb_eq in H. lia.
Qed.

(** Where the members of the returned list come from. *)
Lemma load_mounts_to_skip_In (w : world) (m : string) :
  In m (load_mounts_to_skip w) <->
  exists line mountpoint fstype,
    In line (table_lines w) /\
    parsed_line (mount_table_path w) line = Some (mountpoint, fstype) /\
    skipped_fstype fstype = true /\
    m = abspath (getcwd w) mountpoint.
Proof.
  unfold load_mounts_to_skip. cbv zeta.
  fold (mount_table_path w). fold (mount_table w).
  rewrite sorted_set_In.
  assert (Hfold : forall ls,
            In m (fold_left (load_line (getcwd w) (mount_table_path w)) ls []) <->
            exists line mountpoint fstype,
              In line ls /\
              parsed_line (mount_table_path w) line = Some (mountpoint, fstype) /\
              skipped_fstype fstype = true /\
              m = abspath (getcwd w) mountpoint).
  { intros ls. rewrite load_lines_In. split.
    - intros [[] | (line & Hin & Hm)].
      unfold line_mount in Hm.
      destruct (parsed_line _ line) as [[mp fs] |] eqn:Hp; [| discriminate].
      destruct (skipped_fstype fs) eqn:Hs; [| discriminate].
      inversion Hm. exists line, mp, fs. auto.
    - intros (line & mp & fs & Hin & Hp & Hs & ->).
      right. exists line. split; [exact Hin |].
      unfold line_mount. now rewrite Hp, Hs. }
  unfold table_lines.
  destruct (mount_table w) as [| e | ls]; [| | apply Hfold].
  - split; [intros [] | intros (l & _ & _ & [] & _)].
  - split; [intros [] | intros (l & _ & _ & [] & _)].
Qed.

End MountTable.

(** X1. The list [load_mounts_to_skip] returns has no duplicates and is in
    the order of the key [(-len(p), p)]: each mountpoint is at least as
    long as every one after it, and of two neighbours of equal length the
    first is the smaller string. *)
Theorem load_mounts_to_skip_sorted_without_duplicates (w : world) :
  NoDup (load_mounts_to_skip w) /\
  Sorted key_order (load_mounts_to_skip w) /\
  StronglySorted (fun a b => (String.length b <= String.length a)%nat)
                 (load_mounts_to_skip w).
Proof.
  unfold load_mounts_to_skip. cbv zeta.
  match goal with |- context [sorted_set ?l] => set (mounts := l) end.
  split; [| split].
  - eapply Permutation_NoDup; [symmetry; apply sorted_set_perm | apply NoDup_nodup].
  - apply sorted_set_Sorted.
  - apply key_order_lengths, sorted_set_Sorted.
Qed.

(** X2. A mountpoint is in the list [load_mounts_to_skip] returns exactly
    when some line of the mount table that was read parses to a mountpoint
    and a filesystem type, the type is in SKIP_FS_TYPES or starts with one
    of SKIP_FS_PREFIXES, and the mountpoint is the absolute form of the
    parsed one: lines that do not parse and lines of other types add
    nothing, and no denylisted line is lost. *)
Theorem load_mounts_to_skip_membership (w : world) (m : string) :
  In m (load_mounts_to_skip w) <->
  exists line mountpoint fstype,
    In line (table_lines w) /\
    parsed_line (mount_table_path w) line = Some (mountpoint, fstype) /\
    skipped_fstype fstype = true /\
    m = abspath (getcwd w) mountpoint.
Proof. apply load_mounts_to_skip_In. Qed.

(* ===================================================================== *)
(** * path_on_skipped_mount on the list load_mounts_to_skip builds *)
(* ===================================================================== *)

Section SkipList.

Lemma existsb_same_elements {A : Type} (f : A -> bool) (l l' : list A) :
  (forall x, In x l <-> In x l') -> existsb f l = existsb f l'.
Proof.
  intros H.
  destruct (existsb f l) eqn:E; symmetry.
  - apply existsb_exists in E. destruct E as [x [Hin Hx]].
    apply existsb_exists. exists x. split; [now apply H | exact Hx].
  - destruct (existsb f l') eqn:E'; [| reflexivity].
    apply existsb_exists in E'. destruct E' as [x [Hin Hx]].
    rewrite <- E. symmetry. apply existsb_exists.
    exists x. split; [now apply H | exact Hx].
Qed.

(** A world whose /proc/self/mountinfo exists but cannot be read, while
    /proc/mounts lists /proc. *)
Definition unreadable_mountinfo_world : world :=
  {| getcwd := "/"; getpid := 4242; cpu_count := Some 2;
     proc_self_mountinfo := Unreadable (OSError "Permission denied");
     proc_mounts := Lines [ "proc /proc proc rw,nosuid,nodev,noexec,relatime 0 0" ++ nl ];
     lookup := static_lookup "/" mounted_tree;
     append_error := fun _ => None |}.

(** The last character of a non-empty string decides [endswith _ "/"]. *)
Lemma substring_last (s : string) (c : ascii) :
  String.substring (String.length s) 1 (s ++ String c "") = String c "".
Proof. induction s as [| x s IH]; simpl; [reflexivity | exact IH]. Qed.

Lemma endswith_snoc (s : string) (c : ascii) :
  endswith (s ++ String c "") sep = Ascii.eqb c sep_char.
Proof.
  unfold endswith. rewrite string_length_app. simpl String.length.
  replace (String.length s + 1 - 1)%nat with (String.length s) by lia.
  rewrite substring_last.
  replace (1 <=? String.length s + 1)%nat with true
    by (symmetry; apply Nat.leb_le; lia).
  simpl. unfold sep_char. destruct (Ascii.eqb c "/"); reflexivity.
Qed.

Lemma string_snoc (s : string) :
  s <> "" -> exists s' c, s = s' ++ String c "".
Proof.
  induction s as [| x s IH]; intros Hne; [contradiction |].
  destruct s as [| y s].
  - exists "", x. reflexivity.
  - destruct IH as (s' & c & Hs); [discriminate |].
    exists (String x s'), c. simpl. now rewrite <- Hs.
Qed.

(** A component: not empty, and free of separators. *)
Definition component (comp : string) : Prop :=
  comp <> "" /\ ~ In sep_char (list_ascii_of_string comp).

Lemma split_no_sep (s : string) :
  forall comp, In comp (split sep_char s) ->
               ~ In sep_char (list_ascii_of_string comp).
Proof.
  induction s as [| x s IH]; intros comp Hin; simpl in Hin.
  - destruct Hin as [<- | []]. intros [].
  - destruct (Ascii.eqb x sep_char) eqn:Hx.
    + destruct Hin as [<- | Hin]; [intros [] | now apply IH].
    + pose proof (split_nonempty sep_char s) as Hne.
      destruct (split sep_char s) as [| w ws] eqn:Hs; [contradiction |].
      destruct Hin as [<- | Hin].
      * simpl. intros [Heq | Hin].
        -- subst x. now rewrite Ascii.eqb_refl in Hx.
        -- revert Hin. apply IH. now left.
      * apply IH. now right.
Qed.

Lemma Forall_removelast {A : Type} (P : A -> Prop) (l : list A) :
  Forall P l -> Forall P (removelast l).
Proof.
  induction 1 as [| x l Hx Hl IH]; simpl; [constructor |].
  destruct l; [constructor | now constructor].
Qed.

Lemma normpath_step_components (k : nat) (acc : list string) (comp : string) :
  Forall component acc ->
  ~ In sep_char (list_ascii_of_string comp) ->
  Forall component (normpath_step k acc comp).
Proof.
  intros Hacc Hcomp. unfold normpath_step.
  destruct (String.eqb comp "" || String.eqb comp ".") eqn:Hskip; [exact Hacc |].
  match goal with |- context [if ?b then _ else _] => destruct b end.
  - apply Forall_app. split; [exact Hacc |]. constructor; [| constructor].
    split; [| exact Hcomp].
    intros ->. discriminate Hskip.
  - destruct acc; [exact Hacc | now apply Forall_removelast].
Qed.

Lemma normpath_steps_components (k : nat) (comps : list string) :
  forall acc,
    Forall component acc ->
    (forall comp, In comp comps -> ~ In sep_char (list_ascii_of_string comp)) ->
    Forall component (fold_left (normpath_step k) comps acc).
Proof.
  induction comps as [| c t IH]; intros acc Hacc Hcomps; simpl; [exact Hacc |].
  apply IH.
  - apply normpath_step_components; [exact Hacc | apply Hcomps; now left].
  - intros comp Hin. apply Hcomps. now right.
Qed.

Lemma concat_ends_with_last (comps : list string) :
  comps <> [] -> exists front, String.concat sep comps = front ++ last comps "".
Proof.
  induction comps as [| c t IH]; intros Hne; [contradiction |].
  destruct t as [| d t].
  - exists "". reflexivity.
  - destruct IH as [front Hf]; [discriminate |].
    exists (c ++ sep ++ front).
    change (String.concat sep (c :: d :: t)) with (c ++ sep ++ String.concat sep (d :: t)).
    rewrite Hf. change (last (c :: d :: t) "") with (last (d :: t) "").
    now rewrite !append_assoc.
Qed.

(** The absolute form of a path never ends with a separator, unless it is
    the root "/" (or "//"). *)
Lemma normpath_no_trailing_sep (path : string) :
  isabs path = true ->
  normpath path = "/" \/ normpath path = "//" \/ endswith (normpath path) sep = false.
Proof.
  intros Habs. rewrite (normpath_absolute _ Habs).
  assert (Hlead : repeat_char sep_char (lead path) = "/"
                  \/ repeat_char sep_char (lead path) = "//")
    by (unfold lead; destruct (_ && _); auto).
  pose proof (normpath_steps_components (lead path) (split sep_char path) []
                (Forall_nil _) (split_no_sep path)) as Hcomps.
  destruct (fold_left (normpath_step (lead path)) (split sep_char path) [])
    as [| c cs] eqn:Hfold.
  - simpl String.concat. destruct Hlead as [-> | ->]; auto.
  - right. right.
    destruct (concat_ends_with_last (c :: cs)) as [front Hfront]; [discriminate |].
    rewrite Hfront.
    assert (Hlast : component (last (c :: cs) "")).
    { eapply Forall_forall; [exact Hcomps |].
      destruct (exists_last (l := c :: cs)) as (l' & a & Heq); [discriminate |].
      rewrite Heq, last_last. apply in_or_app. right. now left. }
    destruct Hlast as [Hne Hnosep].
    destruct (string_snoc _ Hne) as (s' & ch & Hs). rewrite Hs in *.
    rewrite <- !append_assoc, endswith_snoc.
    apply Ascii.eqb_neq. intros ->. apply Hnosep.
    rewrite list_ascii_of_string_app. apply in_or_app. right. now left.
Qed.

Lemma abspath_no_trailing_sep (cwd path : string) :
  isabs cwd = true ->
  abspath cwd path = "/" \/ abspath cwd path = "//"
  \/ endswith (abspath cwd path) sep = false.
Proof.
  intros Hcwd. unfold abspath. fold (anchored cwd path).
  apply normpath_no_trailing_sep, anchored_isabs, Hcwd.
Qed.

End SkipList.

(** X3. Sorting and deduplicating the mountpoints does not change any
    answer of [path_on_skipped_mount]: on the list as
    [load_mounts_to_skip] returns it ([sorted(set(mounts), key=...)]) and
    on the list as it was collected, every path gets the same answer. *)
Theorem skip_list_order_does_not_matter (cwd path : string) (mounts : list string) :
  path_on_skipped_mount cwd path (sorted_set mounts)
  = path_on_skipped_mount cwd path mounts.
Proof.
  unfold path_on_skipped_mount. apply existsb_same_elements.
  intros m. apply sorted_set_In.
Qed.

(** X4. When /proc/self/mountinfo exists but cannot be read,
    [load_mounts_to_skip] returns the empty list, whatever /proc/mounts
    holds (the fallback is taken only when mountinfo does not exist), and
    then no path is on a skipped mount. *)
Theorem unreadable_mountinfo_excludes_nothing
    (w : world) (e : exn) (path : string)
    (Hinfo : proc_self_mountinfo w = Unreadable e) :
  load_mounts_to_skip w = [] /\
  path_on_skipped_mount (getcwd w) path (load_mounts_to_skip w) = false.
Proof.
  assert (H : load_mounts_to_skip w = []).
  { unfold load_mounts_to_skip. rewrite Hinfo. reflexivity. }
  rewrite H. split; reflexivity.
Qed.

(** The theorem where /proc/mounts lists /proc: /proc/version is not on a
    skipped mount. *)
Lemma unreadable_mountinfo_excludes_nothing_witness :
  load_mounts_to_skip unreadable_mountinfo_world = [] /\
  path_on_skipped_mount "/" "/proc/version"
    (load_mounts_to_skip unreadable_mountinfo_world) = false.
Proof.
  apply (unreadable_mountinfo_excludes_nothing unreadable_mountinfo_world
           (OSError "Permission denied") "/proc/version").
  reflexivity.
Defined.

(** X5. Every mountpoint that a line of the mount table gives with a
    denylisted filesystem type is itself on a skipped mount, for the list
    [load_mounts_to_skip] builds from that table. *)
Theorem listed_mountpoint_is_on_skipped_mount
    (w : world) (line mountpoint fstype : string)
    (Hline : In line (table_lines w))
    (Hparsed : parsed_line (mount_table_path w) line = Some (mountpoint, fstype))
    (Htype : skipped_fstype fstype = true) :
  path_on_skipped_mount (getcwd w) mountpoint (load_mounts_to_skip w) = true.
Proof.
  unfold path_on_skipped_mount. apply existsb_exists.
  exists (abspath (getcwd w) mountpoint). split.
  - apply load_mounts_to_skip_In.
    exists line, mountpoint, fstype. auto.
  - rewrite String.eqb_refl. reflexivity.
Qed.

(** The theorem at the /proc line of the scenario's mount table. *)
Lemma listed_mountpoint_is_on_skipped_mount_witness :
  path_on_skipped_mount "/" "/proc" (load_mounts_to_skip scenario_world) = true.
Proof.
  apply (listed_mountpoint_is_on_skipped_mount scenario_world
           (nth 0 mountinfo_lines "") "/proc" "proc").
  - simpl. left. reflexivity.
  - vm_compute. reflexivity.
  - vm_compute. reflexivity.
Defined.

(** X6. A mountpoint never excludes a path whose absolute form merely
    continues the mountpoint's text without a separator: when the absolute
    form is the mountpoint followed by a non-empty suffix that does not
    start with "/", [path_on_skipped_mount] answers false for that
    mountpoint (so /mnt/foo does not exclude /mnt/foobar). *)
Theorem sibling_with_longer_name_is_not_excluded
    (cwd path m suffix : string)
    (Habs : abspath cwd path = m ++ suffix)
    (Hsuffix : suffix <> "")
    (Hsep : startswith suffix sep = false) :
  path_on_skipped_mount cwd path [m] = false.
Proof.
  unfold path_on_skipped_mount. rewrite Habs. simpl existsb.
  rewrite orb_false_r. apply orb_false_iff. split.
  - apply String.eqb_neq. intros H.
    apply (f_equal String.length) in H. rewrite string_length_app in H.
    destruct suffix; [contradiction | simpl in H; lia].
  - unfold startswith in *.
    destruct (String.prefix (m ++ sep) (m ++ suffix)) eqn:Hp; [| reflexivity].
    apply prefix_inv in Hp. destruct Hp as [r Hr].
    rewrite append_assoc in Hr.
    assert (Hcancel : forall a b c : string, a ++ b = a ++ c -> b = c).
    { clear. induction a as [| x a IH]; simpl; intros b c H; [exact H |].
      inversion H. now apply IH. }
    apply Hcancel in Hr. rewrite Hr, prefix_app in Hsep. discriminate.
Qed.

(** The theorem at /mnt/foobar and the mountpoint /mnt/foo. *)
Lemma sibling_with_longer_name_is_not_excluded_witness :
  path_on_skipped_mount "/" "/mnt/foobar" ["/mnt/foo"] = false.
Proof.
  apply (sibling_with_longer_name_is_not_excluded "/" "/mnt/foobar" "/mnt/foo" "bar").
  - reflexivity.
  - discriminate.
  - reflexivity.
Defined.

(** X7. For the list [load_mounts_to_skip] builds in a process with an
    absolute working directory, as long as the root itself ("/" or "//")
    is not in it: a non-empty path on a skipped mount stays on a skipped
    mount when a separator and a suffix without ".." components are
    appended. *)
Theorem skipped_mounts_cover_their_descendants
    (w : world) (p s : string)
    (Hcwd : isabs (getcwd w) = true)
    (Hroot : ~ In "/" (load_mounts_to_skip w))
    (Hroot2 : ~ In "//" (load_mounts_to_skip w))
    (Hp : p <> "")
    (Hs : ~ In ".." (split sep_char s))
    (Hon : path_on_skipped_mount (getcwd w) p (load_mounts_to_skip w) = true) :
  path_on_skipped_mount (getcwd w) (p ++ sep ++ s) (load_mounts_to_skip w) = true.
Proof.
  apply exclusion_inherited_below_other_mounts; try assumption.
  intros m Hin.
  destruct (proj1 (load_mounts_to_skip_In w m) Hin) as (line & mp & fs & _ & _ & _ & Hm).
  destruct (abspath_no_trailing_sep (getcwd w) mp Hcwd) as [H | [H | H]];
    rewrite <- Hm in H; [| | exact H]; rewrite H in Hin; contradiction.
Qed.

(** The theorem at /proc and the suffix self/status, on the scenario's
    mount table. *)
Lemma skipped_mounts_cover_their_descendants_witness :
  path_on_skipped_mount "/" ("/proc" ++ sep ++ "self/status")
    (load_mounts_to_skip scenario_world) = true.
Proof.
  apply (skipped_mounts_cover_their_descendants scenario_world "/proc" "self/status").
  - reflexivity.
  - vm_compute. intros [H | [H | [H | []]]]; discriminate H.
  - vm_compute. intros [H | [H | [H | []]]]; discriminate H.
  - discriminate.
  - vm_compute. intros [H | [H | []]]; discriminate H.
  - vm_compute. reflexivity.
Defined.

(* ===================================================================== *)
(** * More on the worker *)
(* ===================================================================== *)

Section WorkerMore.

(** A fault at a read call the loop never makes is never seen. *)
Lemma read_chunks_unreached (fuel : nat) :
  forall (k : nat) (rem : list byte) (e : exn) (h : Blake2b.hasher) (br : Z),
    (List.length rem < fuel)%nat ->
    (0 < k)%nat ->
    Z.of_nat (List.length rem) <= (Z.of_nat k - 1) * CHUNK ->
    read_chunks fuel {| remaining := rem; fault := Some (k, e) |} h br =
    Ok ({| Blake2b.digest_size := Blake2b.digest_size h;
           Blake2b.absorbed := (Blake2b.absorbed h ++ rem)%list |},
        br + Z.of_nat (List.length rem)).
Proof.
  induction fuel as [| f IH]; intros k rem e h br Hfuel Hk Hfar; [lia |].
  destruct k as [| k]; [lia |].
  cbn [read_chunks]. unfold read. cbn [fault remaining]. cbv [bind].
  pose proof CHUNK_pos as Hc.
  destruct (take CHUNK rem) as [| b bs] eqn:Htake.
  - apply take_nil_inv in Htake; [| exact Hc]. subst rem.
    rewrite app_nil_r. simpl. rewrite Z.add_0_r. now destruct h.
  - assert (Hne : rem <> []) by (intros ->; discriminate).
    pose proof (drop_length_lt CHUNK rem Hc Hne) as Hlt.
    assert (Hpos : 0 < Z.of_nat (List.length rem))
      by (destruct rem; [congruence | simpl; lia]).
    assert (Hk1 : (0 < k)%nat).
    { destruct k; [| lia]. simpl in Hfar. lia. }
    rewrite IH; try lia.
    + unfold Blake2b.update. cbn [Blake2b.digest_size Blake2b.absorbed].
      rewrite <- app_assoc, <- Htake, take_drop.
      f_equal. f_equal.
      rewrite <- (take_drop CHUNK rem) at 3. rewrite length_app, Htake. lia.
    + rewrite drop_length by lia.
      replace (Z.of_nat (S k) - 1) with (Z.of_nat k - 1 + 1) in Hfar by lia.
      rewrite Z.mul_add_distr_r in Hfar.
      assert (0 <= (Z.of_nat k - 1) * CHUNK) by (apply Z.mul_nonneg_nonneg; lia).
      lia.
Qed.

(** Whether the read loop meets the fault of a stream over [content]. *)
Definition fault_met (flt : option (nat * exn)) (content : list byte) : bool :=
  match flt with
  | None => false
  | Some (k, _) =>
      Nat.eqb k 0 || ((Z.of_nat k - 1) * CHUNK <? Z.of_nat (List.length content))
  end.


End WorkerMore.

(** X8. [is_regular_file] contains the OSError of [os.lstat] and nothing
    else.  For a path without NUL it returns, and answers True exactly
    when the path names a regular file itself: for a missing path, a
    symbolic link (also one that leads to a regular file), a directory or
    a device it answers False.  For a path with an embedded NUL it raises
    the ValueError of [os.lstat], which [except OSError] does not catch. *)
Theorem is_regular_file_only_for_the_file_itself (w : world) (path : string) :
  (has_nul path = false ->
   exists b,
     is_regular_file w path = Ok b /\
     (b = true <-> exists f, lookup w path = Some (File f))) /\
  (has_nul path = true ->
   is_regular_file w path = Raise (ValueError "embedded null byte")).
Proof.
  split; [| apply is_regular_file_nul].
  intros Hnul. rewrite is_regular_file_total by exact Hnul.
  eexists. split; [reflexivity |].
  destruct (lookup w path) as [[f | t r | k f | es |] |];
    split; try discriminate; eauto; intros [f' H]; discriminate H.
Qed.

(** X9. For a file that opens (its path and the text of the error of a
    failing read encode, so that the lines to the debug log go through),
    [blake2b_file] returns the BLAKE2b-512 hex
    digest of the whole content, however many CHUNK-sized reads that takes,
    unless a read fails before the end of the file has been seen, in which
    case it returns null; a failure that would only come after the read
    that returns [b''] does not matter. *)
Theorem blake2b_file_digest_of_whole_content
    (w : world) (path : string) (content : list byte) (flt : option (nat * exn))
    (Hopen : open_rb w path = Ok {| remaining := content; fault := flt |})
    (Hname : encodable path = true)
    (Herr : forall k e, flt = Some (k, e) -> encodable (str_of_exn e) = true) :
  blake2b_file w path 64 =
  Ok (if fault_met flt content then None else Some (Blake2b.hexdigest 64 content)).
Proof.
  destruct flt as [[k e] |]; cbn [fault_met].
  - specialize (Herr k e eq_refl).
    destruct (Nat.eqb_spec k 0) as [-> | Hk]; cbn [orb].
    + apply (blake2b_file_read_error w path content 0 e Hname Herr Hopen). now left.
    + destruct (Z.ltb_spec ((Z.of_nat k - 1) * CHUNK) (Z.of_nat (List.length content)))
        as [Hlt | Hge].
      * apply (blake2b_file_read_error w path content k e Hname Herr Hopen). now right.
      * rewrite blake2b_file_quiet by exact Hname.
        unfold read_for_hash. rewrite Hopen. cbv [bind]. cbn [remaining].
        rewrite read_chunks_unreached; [reflexivity | lia | lia | exact Hge].
  - now apply blake2b_file_readable.
Qed.

(** The theorem at the file of [faulty_world] whose first read fails. *)
Lemma blake2b_file_digest_of_whole_content_witness :
  blake2b_file faulty_world "/srv/faulty/bad-sector" 64 = Ok None.
Proof.
  apply (blake2b_file_digest_of_whole_content faulty_world "/srv/faulty/bad-sector"
           (bytes_of "partly readable") (Some (O, eio))).
  - reflexivity.
  - reflexivity.
  - intros k e H. inversion H. reflexivity.
Defined.

(** X10. The digest [hash_one] returns for a readable regular file off the
    skipped mounts (a file of the file system: its path encodes and holds
    no NUL) is the BLAKE2b-512 hex digest of its content and
    nothing else: two such files with the same content get the same
    digest, whatever their paths, mount lists and file systems. *)
Theorem same_content_same_digest
    (w1 w2 : world) (p1 p2 : string) (skip1 skip2 : list string)
    (content : list byte)
    (Hfile1 : lookup w1 p1 = Some (File (plain_file content)))
    (Hfile2 : lookup w2 p2 = Some (File (plain_file content)))
    (Hmount1 : path_on_skipped_mount (getcwd w1) p1 skip1 = false)
    (Hmount2 : path_on_skipped_mount (getcwd w2) p2 skip2 = false)
    (Hname1 : encodable p1 = true) (Hnul1 : has_nul p1 = false)
    (Hname2 : encodable p2 = true) (Hnul2 : has_nul p2 = false) :
  hash_one w1 (p1, skip1) = Ok (p1, Some (Blake2b.hexdigest 64 content)) /\
  hash_one w2 (p2, skip2) = Ok (p2, Some (Blake2b.hexdigest 64 content)).
Proof. split; now apply hash_one_regular. Qed.

(** The theorem at a.txt and b.txt of the end-to-end scenario. *)
Lemma same_content_same_digest_witness :
  hash_one scenario_world ("/srv/data/a.txt", load_mounts_to_skip scenario_world)
  = Ok ("/srv/data/a.txt", Some (Blake2b.hexdigest 64 (bytes_of "hello"))) /\
  hash_one scenario_world ("/srv/data/b.txt", load_mounts_to_skip scenario_world)
  = Ok ("/srv/data/b.txt", Some (Blake2b.hexdigest 64 (bytes_of "hello"))).
Proof.
  apply (same_content_same_digest scenario_world scenario_world
           "/srv/data/a.txt" "/srv/data/b.txt"
           (load_mounts_to_skip scenario_world) (load_mounts_to_skip scenario_world)
           (bytes_of "hello")).
  - reflexivity.
  - reflexivity.
  - vm_compute. reflexivity.
  - vm_compute. reflexivity.
  - reflexivity.
  - reflexivity.
  - reflexivity.
  - reflexivity.
Defined.



(* ===================================================================== *)
(** * More on the coordinator *)
(* ===================================================================== *)

Section CoordinatorMore.

Lemma NoDup_app_disjoint {A : Type} (l1 l2 : list A) (a : A) :
  NoDup (l1 ++ l2) -> In a l1 -> In a l2 -> False.
Proof.
  induction l1 as [| x l1 IH]; intros Hnd H1 H2; [contradiction |].
  simpl in Hnd. inversion Hnd as [| ? ? Hx Hrest]; subst.
  destruct H1 as [-> | H1]; [| now apply IH].
  apply Hx, in_or_app. now right.
Qed.

(** With distinct identities, [futures.remove(fut)] (and the [pass] on
    ValueError) leaves the futures other than [fut], in their order. *)
Lemma list_remove_filter (x : Future) (l : list Future) :
  NoDup (map fid l) ->
  match list_remove x l with Some l' => l' | None => l end
  = filter (fun f => negb (same f x)) l.
Proof.
  induction l as [| y t IH]; intros Hnd; [reflexivity |].
  simpl in Hnd. inversion Hnd as [| ? ? Hy Ht]; subst.
  simpl. destruct (same y x) eqn:Hs; simpl.
  - symmetry. apply forallb_filter_id. apply forallb_forall.
    intros f Hf. apply negb_true_iff.
    destruct (same f x) eqn:Hfx; [| reflexivity].
    exfalso. apply Hy. apply same_fid in Hs. apply same_fid in Hfx.
    rewrite Hs, <- Hfx. now apply in_map.
  - specialize (IH Ht). destruct (list_remove x t); f_equal; exact IH.
Qed.

Lemma NoDup_fid_filter (p : Future -> bool) (l : list Future) :
  NoDup (map fid l) -> NoDup (map fid (filter p l)).
Proof.
  induction l as [| y t IH]; intros Hnd; [constructor |].
  simpl in Hnd. inversion Hnd as [| ? ? Hy Ht]; subst.
  simpl. destruct (p y); [| now apply IH].
  simpl. constructor; [| now apply IH].
  intros Hin. apply Hy. apply in_map_iff in Hin. destruct Hin as [f [Hf Hin]].
  apply filter_In in Hin. rewrite <- Hf. apply in_map. tauto.
Qed.

Lemma drain_one_futures (st st' : state) (fut : Future) :
  NoDup (map fid (futures st)) ->
  drain_one st fut = Ok st' ->
  futures st' = filter (fun f => negb (same f fut)) (futures st).
Proof.
  intros Hnd. unfold drain_one.
  rewrite <- (list_remove_filter fut (futures st) Hnd).
  destruct (outcome fut) as [[p d] | e]; cbv [bind]; [| discriminate].
  intros H. inversion H; subst st'. clear H.
  destruct (list_remove fut (futures st)); destruct (truthy d); reflexivity.
Qed.

(** A drain loop that runs to the end of [order] leaves exactly the
    futures that are not in [order], in their order. *)
Lemma drain_loop_futures (n : option Z) (order : list Future) :
  forall (count : Z) (st st' : state),
    NoDup (map fid (futures st)) ->
    match n with
    | Some k => count + Z.of_nat (List.length order) <= k
    | None => True
    end ->
    drain_loop n count order st = Ok st' ->
    futures st' = filter (fun f => negb (existsb (same f) order)) (futures st).
Proof.
  induction order as [| fut rest IH]; intros count st st' Hnd Hbound Hrun.
  - simpl in Hrun. inversion Hrun; subst. simpl. now rewrite filter_true.
  - cbn [drain_loop] in Hrun.
    destruct (drain_one st fut) as [st1 | e] eqn:Hone; cbv [bind] in Hrun;
      [| discriminate].
    pose proof (drain_one_futures _ _ _ Hnd Hone) as H1.
    assert (Hcomp : forall l,
              filter (fun f => negb (existsb (same f) rest))
                     (filter (fun f => negb (same f fut)) l)
              = filter (fun f => negb (existsb (same f) (fut :: rest))) l).
    { clear. induction l as [| y t IHl]; [reflexivity |].
      simpl. destruct (same y fut); simpl; [exact IHl |].
      destruct (existsb (same y) rest); simpl; now rewrite IHl. }
    destruct (match n with Some n0 => n0 <=? count + 1 | None => false end) eqn:Hbreak.
    + inversion Hrun; subst st1. clear Hrun.
      destruct n as [k |]; [| discriminate]. apply Z.leb_le in Hbreak.
      destruct rest as [| g rest']; [| simpl List.length in Hbound; lia].
      rewrite H1. apply filter_ext. intros f. simpl. now rewrite orb_false_r.
    + rewrite (IH (count + 1) st1 st'); [rewrite H1; apply Hcomp | | | exact Hrun].
      * rewrite H1. now apply NoDup_fid_filter.
      * destruct n; [simpl List.length in Hbound; lia | exact I].
Qed.

(** Taking away a permutation of the first [k] futures leaves the rest. *)
Lemma filter_away_firstn (k : nat) (l order : list Future) :
  NoDup (map fid l) ->
  Permutation order (firstn k l) ->
  filter (fun f => negb (existsb (same f) order)) l = skipn k l.
Proof.
  intros Hnd Hperm.
  assert (Hin : forall f, existsb (same f) order = true <->
                          In (fid f) (map fid (firstn k l))).
  { intros f. rewrite existsb_exists. split.
    - intros [g [Hg Hs]]. apply same_fid in Hs. rewrite Hs.
      apply in_map. eapply Permutation_in; eassumption.
    - intros H. apply in_map_iff in H. destruct H as [g [Hfid Hg]].
      exists g. split; [eapply Permutation_in; [symmetry |]; eassumption |].
      apply same_fid. now symmetry. }
  rewrite <- (firstn_skipn k l) in Hnd. rewrite map_app in Hnd.
  rewrite <- (firstn_skipn k l) at 1. rewrite filter_app.
  replace (filter _ (firstn k l)) with (@nil Future).
  - simpl. apply forallb_filter_id. apply forallb_forall.
    intros f Hf. apply negb_true_iff.
    destruct (existsb (same f) order) eqn:E; [| reflexivity].
    exfalso. apply Hin in E.
    eapply NoDup_app_disjoint; [exact Hnd | exact E | now apply in_map].
  - symmetry.
    assert (G : forall t', incl t' (firstn k l) ->
              filter (fun f => negb (existsb (same f) order)) t' = []).
    { induction t' as [| z t' IHt']; intros Hincl; [reflexivity |].
      simpl. replace (existsb (same z) order) with true.
      - simpl. apply IHt'. intros a Ha. apply Hincl. now right.
      - symmetry. apply Hin. apply in_map. apply Hincl. now left. }
    apply G, incl_refl.
Qed.

Lemma append_inj_length (a b x y : string) :
  String.length a = String.length b -> a ++ x = b ++ y -> a = b /\ x = y.
Proof.
  revert b. induction a as [| c a IH]; intros [| d b] Hlen H; simpl in *;
    try discriminate; [auto |].
  inversion H; subst. destruct (IH b) as [-> ->]; auto.
Qed.

Lemma append_cancel_r (a b c : string) : a ++ c = b ++ c -> a = b.
Proof.
  intros H. apply (append_inj_length a b c c); [| exact H].
  apply (f_equal String.length) in H. rewrite !string_length_app in H. lia.
Qed.

End CoordinatorMore.

(** X12. [drain(n)] with [n >= 0] takes the oldest futures: when every
    future in flight delivers a result, it returns, the futures left in
    flight are the list without its first [n] elements (none, if there
    were no more than [n]), in the same order, and [done] has grown by the
    number taken while [submitted] is unchanged. *)
Theorem drain_takes_the_oldest_futures
    (pick : list Future -> nat) (n : Z) (st : state)
    (Hn : 0 <= n)
    (Hdeliver : Forall delivers (futures st))
    (Hdistinct : NoDup (map fid (futures st))) :
  exists st',
    drain pick (Some n) st = Ok st' /\
    futures st' = skipn (Z.to_nat n) (futures st) /\
    Permutation (consumed st')
                (consumed st ++ firstn (Z.to_nat n) (futures st)) /\
    done st' = done st + Z.of_nat (Nat.min (Z.to_nat n) (List.length (futures st))) /\
    submitted st' = submitted st.
Proof.
  destruct (drain_spec pick (Some n) st Hdeliver Hdistinct Hn) as [st' [Hrun Hby]].
  exists st'. split; [exact Hrun |].
  pose proof (as_completed_perm pick (snapshot_of (Some n) st)) as Hperm.
  assert (Hsnap : snapshot_of (Some n) st = firstn (Z.to_nat n) (futures st)).
  { simpl. unfold slice_to. destruct (Z.leb_spec 0 n); [reflexivity | lia]. }
  rewrite Hsnap in *.
  destruct Hby as (Hs & _ & Hc & Hd & _ & _ & _).
  split; [| split; [| split]].
  - unfold drain in Hrun. cbv zeta in Hrun.
    change (slice_to n (futures st)) with (snapshot_of (Some n) st) in Hrun.
    rewrite Hsnap in Hrun.
    assert (Hbound : 0 + Z.of_nat (List.length
                (as_completed pick (firstn (Z.to_nat n) (futures st)))) <= n)
      by (rewrite (Permutation_length Hperm), length_firstn; lia).
    rewrite (drain_loop_futures (Some n) _ 0 st st' Hdistinct Hbound Hrun).
    now apply filter_away_firstn.
  - rewrite Hc. now apply Permutation_app_head.
  - rewrite Hd, (Permutation_length Hperm), length_firstn. reflexivity.
  - exact Hs.
Qed.

(** The theorem on three futures in flight, two of them drained, the
    newest of the two completing first. *)
Lemma drain_takes_the_oldest_futures_witness :
  exists st',
    drain newest_first (Some 2)
      {| submitted := 3; done := 0; errors := 0;
         futures := futures_for scenario_world [] 0
                      ["/srv/data/a.txt"; "/srv/data/link"; "/srv/data/b.txt"];
         out := []; pool := fresh_pool 4; consumed := [] |} = Ok st' /\
    map _path (futures st') = ["/srv/data/b.txt"].
Proof.
  destruct (drain_takes_the_oldest_futures newest_first 2
              {| submitted := 3; done := 0; errors := 0;
                 futures := futures_for scenario_world [] 0
                              ["/srv/data/a.txt"; "/srv/data/link"; "/srv/data/b.txt"];
                 out := []; pool := fresh_pool 4; consumed := [] |})
    as [st' (Hrun & Hfut & _)].
  - lia.
  - apply futures_for_deliver. repeat constructor.
  - cbn [futures]. rewrite futures_for_fids. apply seq_NoDup.
  - exists st'. split; [exact Hrun |]. rewrite Hfut. reflexivity.
Defined.

(* ===================================================================== *)
(** * More on hash_all *)
(* ===================================================================== *)

(** X13. [hash_all] fails before it walks or submits anything when it
    cannot write its first line to the debug log, get its pool or open its
    output file: with a root that does not encode it raises the
    UnicodeEncodeError of that line; otherwise (the skipped mountpoints
    encoding too), called with a pool size that is zero or negative it
    raises the pool's ValueError, and with a valid pool size but an output
    file that cannot be opened for appending it raises the error of that
    [open]. *)
Theorem hash_all_fails_before_the_walk
    (w : world) (pick : list Future -> nat) (root out_file : string) :
  (forall workers,
     encodable root = false ->
     hash_all w pick root out_file workers
     = Raise (UnicodeEncodeError ("[START] root=" ++ root ++ " workers="
                                  ++ str_of_int (pool_size w workers)))) /\
  (encodable root = true ->
   Forall (fun m => encodable m = true) (load_mounts_to_skip w) ->
   (forall n, n <= 0 ->
      hash_all w pick root out_file (Some n)
      = Raise (ValueError "max_workers must be greater than 0")) /\
   (forall workers e,
      0 < pool_size w workers -> append_error w out_file = Some e ->
      hash_all w pick root out_file workers = Raise e)).
Proof.
  split.
  - intros workers Hroot. unfold hash_all. fold (pool_size w workers). cbv zeta.
    rewrite teeprint_surrogate; [reflexivity |].
    now rewrite !encodable_app, Hroot.
  - intros Hroot Hmounts. split.
    + intros n Hn.
      destruct (start_lines w root n Hroot Hmounts) as [Hstart Hskip].
      unfold hash_all. cbv zeta. rewrite Hstart, Hskip.
      unfold ProcessPoolExecutor. cbv [bind].
      destruct (Z.leb_spec n 0); [reflexivity | lia].
    + intros workers e Hpool Hopen.
      destruct (start_lines w root (pool_size w workers) Hroot Hmounts)
        as [Hstart Hskip].
      unfold hash_all. fold (pool_size w workers).
      cbv zeta. rewrite Hstart, Hskip. unfold ProcessPoolExecutor, open_append.
      cbv [bind].
      destruct (Z.leb_spec (pool_size w workers) 0); [lia |].
      rewrite Hopen. reflexivity.
Qed.

(** X14. Called without [workers], [hash_all] works with a pool of
    [max(4, cpu_count or 4)] workers, so of at least 4, whatever
    [os.cpu_count()] reports (a number, 0 or None): that is the pool of
    every run that returns, and creating the pool never fails: the run
    returns whenever its output file opens and the names are well
    formed. *)
Theorem default_pool_has_at_least_four_workers
    (w : world) (pick : list Future -> nat) (root out_file : string) :
  (forall r,
    hash_all w pick root out_file None = Ok r ->
    4 <= max_workers (pool (final r)) /\
    max_workers (pool (final r))
    = Z.max 4 (match cpu_count w with
               | Some c => if c =? 0 then 4 else c
               | None => 4
               end)) /\
  (append_error w out_file = None ->
   well_named w root = true ->
   exists r, hash_all w pick root out_file None = Ok r).
Proof.
  split.
  - intros r Hrun.
    destruct (hash_all_returned w pick root out_file None r Hrun) as (Hacc & _).
    rewrite (acc_pool _ _ _ _ _ Hacc). cbn [max_workers]. unfold pool_size.
    split; [lia | reflexivity].
  - apply hash_all_returns. unfold pool_size. lia.
Qed.

(** The theorem at the end-to-end scenario (8 CPUs). *)
Lemma default_pool_has_at_least_four_workers_witness :
  exists r,
    hash_all scenario_world oldest_first scenario_root HASH_FILE None = Ok r /\
    4 <= max_workers (pool (final r)).
Proof.
  destruct (default_pool_has_at_least_four_workers scenario_world oldest_first
              scenario_root HASH_FILE) as [Hevery Hreturns].
  destruct (Hreturns eq_refl scenario_well_named) as [r Hrun].
  exists r. split; [exact Hrun | apply (Hevery r Hrun)].
Defined.



(** X16. An output record determines its fields: two records built by
    [drain]'s format from digests of the same length (as all digests of one
    size are) are equal only if digest, verdict and reason are equal. *)
Theorem format_record_injective
    (d1 d2 : string) (b1 b2 : bool) (r1 r2 : string)
    (Hlen : String.length d1 = String.length d2)
    (Heq : format_record d1 b1 r1 = format_record d2 b2 r2) :
  d1 = d2 /\ b1 = b2 /\ r1 = r2.
Proof.
  unfold format_record in Heq.
  apply append_inj_length in Heq; [| exact Hlen].
  destruct Heq as [Hd Hrest]. split; [exact Hd |].
  destruct b1, b2; simpl in Hrest; inversion Hrest as [Hr];
    apply append_cancel_r in Hr; auto.
Qed.

(** The theorem at two records of the same digest. *)
Lemma format_record_injective_witness :
  hello_digest = hello_digest /\ false = false /\ "DUMMY_REASON" = "DUMMY_REASON".
Proof.
  apply (format_record_injective hello_digest hello_digest false false
           "DUMMY_REASON" "DUMMY_REASON"); reflexivity.
Defined.

(* ===================================================================== *)
(** * More on print_entropy *)
(* ===================================================================== *)

Section EntropyMore.

Import Entropy.

Variable float : Type.
Variable zero : float.
Variable truediv : Z -> Z -> float.
Variable log2_defined : float -> bool.
Variable log2_value : float -> float.
Variable fmul : float -> float -> float.
Variable fsub : float -> float -> float.
Variable format_3f : float -> string.
Variable stdout_strict : bool.
Variable max_len : Z.

Hypothesis log2_of_quotient :
  forall c n, 0 < c <= n -> n <= max_len -> log2_defined (truediv c n) = true.

Hypothesis format_3f_encodes : forall x, encodable (format_3f x) = true.

Let run := print_entropy float zero truediv log2_defined log2_value fmul fsub format_3f
                         stdout_strict.

Lemma Counter_keys (data : list byte) :
  NoDup (keys (Counter data)) /\
  (forall x, In x (keys (Counter data)) <-> In x data).
Proof.
  unfold Counter.
  assert (G : forall counts,
             NoDup (keys counts) ->
             NoDup (keys (fold_left (fun cs b => counter_add b cs) data counts)) /\
             (forall x, In x (keys (fold_left (fun cs b => counter_add b cs) data counts))
                        <-> In x data \/ In x (keys counts))).
  { induction data as [| b t IH]; intros counts Hnd; cbn [fold_left].
    - split; [exact Hnd | intros x; simpl; tauto].
    - destruct (counter_add_keys b counts Hnd) as [Hnd1 Hin1].
      destruct (IH _ Hnd1) as [Hnd2 Hin2]. split; [exact Hnd2 |].
      intros x. rewrite Hin2, Hin1. simpl. intuition. }
  destruct (G [] (NoDup_nil _)) as [Hnd Hin]. split; [exact Hnd |].
  intros x. rewrite Hin. simpl. tauto.
Qed.

(** There are 256 byte values. *)
Lemma distinct_bytes_at_most_256 (l : list byte) :
  NoDup l -> (List.length l <= 256)%nat.
Proof.
  intros Hnd.
  assert (Hmap : NoDup (map Byte.to_nat l)).
  { apply Finite.Injective_map_NoDup; [| exact Hnd].
    intros x y Hxy.
    assert (H : Byte.of_nat (Byte.to_nat x) = Byte.of_nat (Byte.to_nat y)) by now rewrite Hxy.
    rewrite !Byte.of_to_nat in H. now inversion H. }
  assert (H : (List.length (map Byte.to_nat l) <= List.length (seq 0 256))%nat).
  { apply NoDup_incl_length; [exact Hmap |].
    intros n Hn. apply in_map_iff in Hn. destruct Hn as [x [<- _]].
    apply in_seq. pose proof (Byte.to_nat_bounded x). lia. }
  now rewrite length_map, length_seq in H.
Qed.

(** X17. On a readable, non-empty file (whose path encodes, when standard
    output is strict) [print_entropy] calls [math.log2]
    once for each distinct byte value of the file, so at most 256 times
    however long the file is, and prints exactly one line. *)
Theorem log2_called_once_per_distinct_byte
    (w : world) (prog path : string) (rest : list string) (content : list byte)
    (Hread : read_file w path = Ok content)
    (Hne : content <> [])
    (Hsize : Z.of_nat (List.length content) <= max_len)
    (Hprint : stdout_strict = false \/ encodable path = true) :
  exists io,
    run w (prog :: path :: rest) = Ok io /\
    List.length (log2_calls float io)
    = List.length (nodup Byte.byte_eq_dec content) /\
    (List.length (log2_calls float io) <= 256)%nat /\
    List.length (stdout float io) = 1%nat.
Proof.
  eexists. split.
  { exact (print_entropy_nonempty float zero truediv log2_defined log2_value fmul fsub
             format_3f stdout_strict max_len log2_of_quotient format_3f_encodes
             w prog path rest content Hread Hne Hsize Hprint). }
  cbn [log2_calls stdout List.length].
  destruct (Counter_keys content) as [Hnd Hin].
  assert (Hkeys : keys (Counter content) = first_occurrences content).
  { unfold keys. rewrite Counter_spec, map_map. cbn [fst]. apply map_id. }
  rewrite Hkeys in Hnd, Hin.
  unfold shares. rewrite length_map.
  split; [| split; [| reflexivity]].
  - apply Permutation_length, NoDup_Permutation; [exact Hnd | apply NoDup_nodup |].
    intros x. rewrite Hin. symmetry. apply nodup_In.
  - now apply distinct_bytes_at_most_256.
Qed.

End EntropyMore.

(** The theorem on exact rationals, at the scenario's a.txt ("hello": four
    distinct byte values). *)
Lemma log2_called_once_per_distinct_byte_witness :
  exists io,
    Entropy.print_entropy QArith_base.Q (QArith_base.Qmake 0 1) q_truediv q_log2_defined
      q_log2 QArith_base.Qmult QArith_base.Qminus q_format true
      scenario_world ["entropy.py"; "/srv/data/a.txt"] = Ok io /\
    List.length (Entropy.log2_calls QArith_base.Q io) = 4%nat.
Proof.
  destruct (log2_called_once_per_distinct_byte QArith_base.Q (QArith_base.Qmake 0 1)
              q_truediv q_log2_defined q_log2 QArith_base.Qmult QArith_base.Qminus
              q_format true (2 ^ 63 - 1) q_quotient_positive q_format_encodes
              scenario_world "entropy.py" "/srv/data/a.txt" [] (bytes_of "hello"))
    as [io (Hrun & Hcalls & _)].
  - reflexivity.
  - discriminate.
  - vm_compute. discriminate.
  - now right.
  - exists io. split; [exact Hrun |]. rewrite Hcalls. reflexivity.
Defined.
